(** * Conversation history parser: sections, topics, merging

    A shallow embedding of [src/utils/parser.js] and the properties of its
    segmentation engine, of its raw-text parser and of its summary.

    Conventions of the embedding.
    - A JavaScript string is its sequence of UTF-16 code units; the embedding
      keeps the code units below 256, one [ascii] each, so that
      [toLowerCase], [trim] and the character classes of the regular
      expressions are exact on every string of the model.
    - A JavaScript number is an exact integer ([Z], [nat]) where the code
      counts or indexes, and elsewhere the rational ([Q]) that a finite
      Number holds: a gap in minutes, a similarity threshold. Where the
      code subtracts dates and divides, in the time gap and in the summary,
      an operation answers the double nearest to its exact result (module
      [Number]); comparisons are exact.
    - A [Date] is its time value in milliseconds, [None] for an invalid date.
    - Section objects and the arrays in their [messages] field live in a
      store and are reached through references, as the code mutates them in
      place; message records are never written by the code and are values. *)

From Stdlib Require Import ZArith QArith Qround Qabs Qpower Qfield Lqa String
  Ascii List Lia Sorting.Sorted.
From stdpp Require Import base list option strings pretty sorting.

Open Scope string_scope.
Open Scope nat_scope.
Open Scope list_scope.

(** ** Strings *)

Module JsString.

Definition code (c : ascii) : nat := nat_of_ascii c.

(** Upper-case letters of the first 256 code points: A-Z, and the
    Latin-1 capitals U+00C0..U+00DE without the multiplication sign. *)
Definition isUpper (c : ascii) : bool :=
  let n := code c in
  ((65 <=? n) && (n <=? 90)) ||
  ((192 <=? n) && (n <=? 222) && negb (n =? 215)).

Definition lowerChar (c : ascii) : ascii :=
  if isUpper c then ascii_of_nat (code c + 32) else c.

Fixpoint toLowerCase (s : string) : string :=
  match s with
  | EmptyString => EmptyString
  | String c s' => String (lowerChar c) (toLowerCase s')
  end.

(** [includes s k] is [s.includes(k)]: [k] occurs in [s] at some offset. *)
Fixpoint includes (s k : string) : bool :=
  String.prefix k s ||
  match s with
  | EmptyString => false
  | String _ s' => includes s' k
  end.

(** Line terminators below 256: LF and CR. *)
Definition isLineTerminator (c : ascii) : bool :=
  let n := code c in (n =? 10) || (n =? 13).

(** White space of [trim] and of the class [\s], below 256:
    TAB, LF, VT, FF, CR, SPACE and NO-BREAK SPACE. *)
Definition isWhiteSpace (c : ascii) : bool :=
  let n := code c in
  ((9 <=? n) && (n <=? 13)) || (n =? 32) || (n =? 160).

(** The class [\w]: A-Z, a-z, 0-9 and the underscore. *)
Definition isWordChar (c : ascii) : bool :=
  let n := code c in
  ((65 <=? n) && (n <=? 90)) || ((97 <=? n) && (n <=? 122)) ||
  ((48 <=? n) && (n <=? 57)) || (n =? 95).

Fixpoint trimStart (s : string) : string :=
  match s with
  | EmptyString => EmptyString
  | String c s' => if isWhiteSpace c then trimStart s' else s
  end.

Fixpoint trimEnd (s : string) : string :=
  match s with
  | EmptyString => EmptyString
  | String c s' =>
      match trimEnd s' with
      | EmptyString => if isWhiteSpace c then EmptyString else String c EmptyString
      | t => String c t
      end
  end.

Definition trim (s : string) : string := trimEnd (trimStart s).

(** [s.split(sep)] for a separator that is a string. The loop walks [s]
    with the piece read so far in [piece]; at an occurrence of [sep] it
    closes the piece and passes over the rest of the occurrence, [skip]
    characters. An empty separator cuts between all code units. *)
Fixpoint splitLoop (sep : string) (skip : nat) (piece s : string) : list string :=
  match s with
  | EmptyString => [piece]
  | String c s' =>
      match skip with
      | S skip' => splitLoop sep skip' piece s'
      | 0 =>
          if String.prefix sep s
          then piece :: splitLoop sep (String.length sep - 1) EmptyString s'
          else splitLoop sep 0 (piece +:+ String c EmptyString) s'
      end
  end.

Fixpoint codeUnits (s : string) : list string :=
  match s with
  | EmptyString => []
  | String c s' => String c EmptyString :: codeUnits s'
  end.

Definition split (sep s : string) : list string :=
  if String.eqb sep "" then codeUnits s else splitLoop sep 0 EmptyString s.

(** Every code unit of [s] is in the class [p]. *)
Fixpoint every (p : ascii → bool) (s : string) : bool :=
  match s with
  | EmptyString => true
  | String c s' => p c && every p s'
  end.

(** Truthiness of a value that is a string or absent. *)
Definition truthy (v : option string) : bool :=
  match v with
  | None => false
  | Some s => negb (String.eqb s "")
  end.

End JsString.

Import JsString.

(** ** Regular expressions of the parser

    The three regular-expression literals of the file, each written as the
    backtracking search the literal denotes: a greedy quantifier tries the
    longer match first and falls back, a lazy one the shorter. With the flag
    [m], [^] holds at offset 0 and after a line terminator, and [$] at the
    end of the input and before a line terminator. *)

Module RegExp.

(** The result of [s.match(re)] for a pattern without the flag [g]: the
    text before the match, capture group 1 (absent when the pattern has no
    such group) and the text after the match; [s.replace(re, '')] is
    [before ++ after]. *)
Record Match := mkMatch {
  before : string;
  group1 : option string;
  after : string
}.

(** A pattern is what [match] answers on every string. *)
Definition t : Type := string → option Match.

Definition replaceEmpty (m : Match) : string := before m +:+ after m.

(** Where the anchors hold, with the flag [m]: [^] after the text
    [before], which is empty or ends with a line terminator, and [$] before
    the text [after], which is empty or begins with one. *)
Fixpoint lineStartsAfter (before : string) : bool :=
  match before with
  | EmptyString => true
  | String c EmptyString => isLineTerminator c
  | String _ rest => lineStartsAfter rest
  end.

Definition lineEndsBefore (after : string) : bool :=
  match after with
  | EmptyString => true
  | String c _ => isLineTerminator c
  end.

(** The characters up to the next position where [$] holds. *)
Fixpoint restOfLine (s : string) : string :=
  match s with
  | EmptyString => EmptyString
  | String c s' => if isLineTerminator c then EmptyString else String c (restOfLine s')
  end.

(** [(.+?)$] at [s]: at least one character that is no line terminator,
    then as few as reach a position where [$] holds. *)
Definition lazyToLineEnd (s : string) : option string :=
  match s with
  | EmptyString => None
  | String c s' =>
      if isLineTerminator c then None else Some (String c (restOfLine s'))
  end.

(** [C*(.+?)$] at [s], [C] the class [isSep], once one character of the
    class has been taken: take one more when the rest then matches. *)
Fixpoint afterSeps (isSep : ascii → bool) (s : string) : option string :=
  match s with
  | EmptyString => None
  | String c s' =>
      if isSep c then
        match afterSeps isSep s' with
        | Some r => Some r
        | None => lazyToLineEnd s
        end
      else lazyToLineEnd s
  end.

(** [C+(.+?)$] at [s]. *)
Definition sepsThenCapture (isSep : ascii → bool) (s : string) : option string :=
  match s with
  | EmptyString => None
  | String c s' => if isSep c then afterSeps isSep s' else None
  end.

Definition isHash (c : ascii) : bool := code c =? 35.
Definition isColon (c : ascii) : bool := code c =? 58.

(** [#*\s+(.+?)$] at [s], once one [#] has been taken. *)
Fixpoint afterHashes (s : string) : option string :=
  match s with
  | EmptyString => None
  | String c s' =>
      if isHash c then
        match afterHashes s' with
        | Some r => Some r
        | None => sepsThenCapture isWhiteSpace s
        end
      else sepsThenCapture isWhiteSpace s
  end.

(** [#+\s+(.+?)$] at [s]. *)
Definition headerHere (s : string) : option string :=
  match s with
  | EmptyString => None
  | String c s' => if isHash c then afterHashes s' else None
  end.

(** Capture group 1 of [content.match(/^#+\s+(.+?)$/m)]: the first offset,
    among those where [^] holds, at which the rest matches. *)
Fixpoint headerFrom (atLineStart : bool) (s : string) : option string :=
  match (if atLineStart then headerHere s else None) with
  | Some r => Some r
  | None =>
      match s with
      | EmptyString => None
      | String c s' => headerFrom (isLineTerminator c) s'
      end
  end.

Definition matchHeader (content : string) : option string :=
  headerFrom true content.

(** A lower-case ASCII word at the head of [s], letter case ignored;
    the answer is what follows it. *)
Fixpoint stripWordIgnoreCase (word s : string) : option string :=
  match word with
  | EmptyString => Some s
  | String k word' =>
      match s with
      | EmptyString => None
      | String c s' =>
          if Ascii.eqb (lowerChar c) k then stripWordIgnoreCase word' s' else None
      end
  end.

Definition isSpaceOrColon (c : ascii) : bool := isWhiteSpace c || isColon c.

(** [(?:section|topic|discuss)[\s:]+(.+?)$] at [s], the alternatives in
    their order. *)
Definition markerHere (s : string) : option string :=
  let alternative word :=
    match stripWordIgnoreCase word s with
    | Some rest => sepsThenCapture isSpaceOrColon rest
    | None => None
    end in
  match alternative "section" with
  | Some r => Some r
  | None =>
      match alternative "topic" with
      | Some r => Some r
      | None => alternative "discuss"
      end
  end.

(** Capture group 1 of
    [content.match(/(?:section|topic|discuss)[\s:]+(.+?)$/im)]. *)
Fixpoint matchMarker (s : string) : option string :=
  match markerHere s with
  | Some r => Some r
  | None =>
      match s with
      | EmptyString => None
      | String _ s' => matchMarker s'
      end
  end.

(** [\s*] at [s]: what is left once the white space is taken. *)
Definition afterSpaces (s : string) : string := trimStart s.

(** [[\w\s]*?:\s*] at [s], once the characters [taken] of the class have
    been taken: the colon now, or else one more character of the class. *)
Fixpoint lazyAuthor (taken s : string) : option (string * string) :=
  match s with
  | EmptyString => None
  | String c s' =>
      if isColon c then Some (taken, afterSpaces s')
      else if isWordChar c || isWhiteSpace c
           then lazyAuthor (taken +:+ String c EmptyString) s'
           else None
  end.

(** [([\w\s]+?):\s*] at [s]. *)
Definition authorHere (s : string) : option (string * string) :=
  match s with
  | EmptyString => None
  | String c s' =>
      if isWordChar c || isWhiteSpace c
      then lazyAuthor (String c EmptyString) s'
      else None
  end.

Fixpoint authorFrom (atLineStart : bool) (skipped s : string) : option Match :=
  match (if atLineStart then authorHere s else None) with
  | Some (name, rest) => Some (mkMatch skipped (Some name) rest)
  | None =>
      match s with
      | EmptyString => None
      | String c s' =>
          authorFrom (isLineTerminator c) (skipped +:+ String c EmptyString) s'
      end
  end.

(** The default [authorPattern], [/^([\w\s]+?):\s*/m]. *)
Definition defaultAuthorPattern : t := authorFrom true EmptyString.

End RegExp.

(** ** Numbers

    A finite Number is the rational it holds. The differences and the
    quotients that the time gap and the summary compute are of integers
    that a Number holds exactly; their results lie in the normal range of
    the doubles. *)

Module Number.

(** The integer nearest to [x], the even one of two equally near. *)
Definition roundHalfEven (x : Q) : Z :=
  let f := Qfloor x in
  match (x - inject_Z f ?= 1 # 2)%Q with
  | Lt => f
  | Gt => (f + 1)%Z
  | Eq => if Z.even f then f else (f + 1)%Z
  end.

(** The [e] with [2^e <= a < 2^(e+1)], for [a > 0]. *)
Definition exponent (a : Q) : Z :=
  let e := (Z.log2 (Qnum a) - Z.log2 (Zpos (Qden a)))%Z in
  if Qle_bool (2 ^ e) a then e else (e - 1)%Z.

(** The Number an arithmetic operation answers for the exact result [q]:
    the double nearest to it, of 53 significant bits, ties to the even
    one. *)
Definition nearest (q : Q) : Q :=
  if Qeq_bool q 0 then 0%Q
  else
    let a := Qabs q in
    let ulp := (2 ^ Z.max (exponent a - 52) (-1074))%Q in
    let m := inject_Z (roundHalfEven (a / ulp)) in
    Qred (if Qle_bool 0 q then m * ulp else - (m * ulp))%Q.

(** [Math.round(x)] *)
Definition round (x : Q) : Z := Qfloor (x + (1 # 2)).

Definition twoDigits (n : Z) : string :=
  if (n <? 10)%Z then "0" +:+ pretty n else pretty n.

(** [x.toFixed(2)], for [x] below [10^21] in absolute value: the digits of
    the integer nearest to [100 |x|], the larger of two equally near. *)
Definition toFixed2 (x : Q) : string :=
  let n := Qfloor (Qabs x * 100 + (1 # 2)) in
  (if Qle_bool 0 x then "" else "-")
  +:+ pretty (n / 100)%Z +:+ "." +:+ twoDigits (n mod 100)%Z.

End Number.

(** ** Dates and timestamps *)

(** The time value of a [Date] object, in milliseconds since the epoch;
    [None] is the invalid date, whose time value is NaN. *)
Abbreviation Date := (option Z).

(** What the field [timestamp] of a message holds: nothing, [null], a
    number (an integer or NaN), a string or a [Date] object. *)
Inductive Timestamp : Type :=
| TsUndefined
| TsNull
| TsNumber (n : Z)
| TsNaN
| TsString (s : string)
| TsDate (d : Date).

Definition timestampTruthy (v : Timestamp) : bool :=
  match v with
  | TsUndefined | TsNull | TsNaN => false
  | TsNumber n => negb (n =? 0)%Z
  | TsString s => negb (String.eqb s "")
  | TsDate _ => true
  end.

(** [TimeClip]: a time value beyond 8.64e15 ms on either side is NaN. *)
Definition timeClip (n : Z) : Date :=
  if (Z.abs n <=? 8640000000000000)%Z then Some n else None.

(** ** Messages and sections *)

Module Message.
Record t := mk {
  id : option Z;
  timestamp : Timestamp;
  content : option string;
  author : option string;
  user : option string;
  originalContent : option string
}.
End Message.

(** A reference: the index of a cell of the store. *)
Abbreviation ref := nat.

Module ConversationSection.
Record t := mk {
  id : nat;
  title : string;
  messages : ref;
  startTime : Date;
  endTime : Date;
  topic : string;
  participants : list string
}.

Definition setEndTime (v : Date) (s : t) : t :=
  mk (id s) (title s) (messages s) (startTime s) v (topic s) (participants s).

Definition setParticipants (v : list string) (s : t) : t :=
  mk (id s) (title s) (messages s) (startTime s) (endTime s) (topic s) v.
End ConversationSection.

(** ** The store and the computations over it *)

(** The section objects and the message arrays allocated so far, and the
    number of times the wall clock has been read. *)
Record World := mkWorld {
  sectionObjs : list ConversationSection.t;
  arrays : list (list Message.t);
  clockReads : nat
}.

(** A computation reads and writes the world and may throw ([None]). *)
Definition M (A : Type) : Type := World → option (A * World).

Definition ret {A} (a : A) : M A := fun w => Some (a, w).

Definition bind {A B} (m : M A) (k : A → M B) : M B :=
  fun w => match m w with
           | Some (a, w') => k a w'
           | None => None
           end.

Notation "x <- m ;; k" := (bind m (fun x => k))
  (at level 100, m at next level, right associativity).
Notation "m ;;; k" := (bind m (fun _ => k))
  (at level 100, right associativity).

Definition newArray (v : list Message.t) : M ref :=
  fun w => Some (length (arrays w),
                 mkWorld (sectionObjs w) (arrays w ++ [v]) (clockReads w)).

Definition newSection (s : ConversationSection.t) : M ref :=
  fun w => Some (length (sectionObjs w),
                 mkWorld (sectionObjs w ++ [s]) (arrays w) (clockReads w)).

Definition readSection (r : ref) : M ConversationSection.t :=
  fun w => match sectionObjs w !! r with
           | Some s => Some (s, w)
           | None => None
           end.

Definition readArray (r : ref) : M (list Message.t) :=
  fun w => match arrays w !! r with
           | Some v => Some (v, w)
           | None => None
           end.

Definition writeSection (r : ref) (s : ConversationSection.t) : M unit :=
  fun w => if r <? length (sectionObjs w)
           then Some (tt, mkWorld (<[r:=s]> (sectionObjs w)) (arrays w) (clockReads w))
           else None.

Definition writeArray (r : ref) (v : list Message.t) : M unit :=
  fun w => if r <? length (arrays w)
           then Some (tt, mkWorld (sectionObjs w) (<[r:=v]> (arrays w)) (clockReads w))
           else None.

(** [Array.from(new Set(xs))]: the elements of [xs], each at its first
    occurrence. *)
Definition uniqueInOrder (xs : list string) : list string :=
  fold_left (fun seen x => if bool_decide (x ∈ seen) then seen else seen ++ [x])
            xs [].

(** ** The topic classifier *)

(** The table [topics] of [detectTopic], in the order [Object.entries]
    enumerates it (insertion order of the literal). *)
Definition topics : list (string * list string) :=
  [ ("technical",
      ["code"; "bug"; "error"; "function"; "variable"; "debug"; "implement"; "deploy"]);
    ("question", ["what"; "how"; "why"; "when"; "where"; "?"]);
    ("discussion",
      ["think"; "opinion"; "discuss"; "consider"; "suggest"; "propose"]);
    ("planning",
      ["plan"; "schedule"; "deadline"; "milestone"; "timeline"; "sprint"]);
    ("feedback",
      ["feedback"; "review"; "comment"; "suggestion"; "improve"; "better"]) ].

(** [keywords.filter((keyword) => lowerContent.includes(keyword)).length] *)
Definition keywordScore (lowerContent : string) (keywords : list string) : nat :=
  length (List.filter (fun keyword => includes lowerContent keyword) keywords).

(** One turn of the loop over the table: the pair is [(maxScore, detectedTopic)]. *)
Definition topicStep (lowerContent : string)
    (acc : nat * string) (entry : string * list string) : nat * string :=
  let '(maxScore, detectedTopic) := acc in
  let '(topic, keywords) := entry in
  let score := keywordScore lowerContent keywords in
  if maxScore <? score then (score, topic) else (maxScore, detectedTopic).

Definition detectTopicIn (table : list (string * list string))
    (content : option string) : string :=
  if negb (truthy content) then "general"
  else
    let lowerContent := toLowerCase (default "" content) in
    snd (fold_left (topicStep lowerContent) table (0, "general")).

Definition detectTopic (content : option string) : string :=
  detectTopicIn topics content.

(** The best score of the table. *)
Definition bestScore (lowerContent : string)
    (table : list (string * list string)) : nat :=
  foldr Nat.max 0 (map (fun entry => keywordScore lowerContent (snd entry)) table).

(** The classifier as the specification words it: the score of a topic is
    the number of its keywords that occur in the content as substrings,
    each keyword counted once; the answer is "general" when the best score
    is 0 and otherwise the first topic of the enumeration that reaches
    it. *)

(** [keyword] occurs in [s] as a substring. *)
Definition occursIn (keyword s : string) : Prop :=
  ∃ before after, s = before +:+ keyword +:+ after.

(** [score] of the [keywords] occur in [s]. *)
Inductive occurrences (s : string) : list string → nat → Prop :=
| occurrences_nil : occurrences s [] 0
| occurrences_hit (keyword : string) (keywords : list string) (score : nat) :
    occursIn keyword s →
    occurrences s keywords score →
    occurrences s (keyword :: keywords) (S score)
| occurrences_miss (keyword : string) (keywords : list string) (score : nat) :
    ¬ occursIn keyword s →
    occurrences s keywords score →
    occurrences s (keyword :: keywords) score.

(** The answer for topics of the [names] and the [scores] given, in the
    order of the enumeration. *)
Definition firstBest (names : list string) (scores : list nat) : string :=
  let best := foldr Nat.max 0 scores in
  if best =? 0 then "general"
  else
    match List.find (fun named => snd named =? best) (zip names scores) with
    | Some named => fst named
    | None => "general"
    end.

(** ** Helpers of the segmenter *)

(** [isTimedOut]: the subtraction of two dates is NaN when either is
    invalid, and NaN is greater than nothing. The difference and the
    quotient are Numbers: each is the double nearest to the exact result. *)
Definition isTimedOut (lastTime currentTime : Date) (gapMinutes : Q) : bool :=
  match lastTime, currentTime with
  | Some l, Some c =>
      let diffMinutes :=
        Number.nearest (Number.nearest (inject_Z (c - l)) / (1000 * 60)) in
      negb (Qle_bool diffMinutes gapMinutes)
  | _, _ => false
  end.

Definition hasSectionMarker (content : option string) (markers : list string) : bool :=
  if negb (truthy content) then false
  else
    let lowerContent := toLowerCase (default "" content) in
    existsb (fun marker => includes lowerContent (toLowerCase marker)) markers.

(** [content || ''] *)
Definition contentOrEmpty (content : option string) : option string :=
  if truthy content then content else Some "".

Definition hasTopicChange (prevMessage currentMessage : Message.t) : bool :=
  let prevTopic := detectTopic (contentOrEmpty (Message.content prevMessage)) in
  let currentTopic := detectTopic (contentOrEmpty (Message.content currentMessage)) in
  negb (String.eqb prevTopic currentTopic)
  && truthy (Some prevTopic) && truthy (Some currentTopic).

(** [content.split('\n')[0]] *)
Fixpoint firstLineOf (s : string) : string :=
  match s with
  | EmptyString => EmptyString
  | String c s' => if code c =? 10 then EmptyString else String c (firstLineOf s')
  end.

Definition extractTitle (content : option string) : option string :=
  if negb (truthy content) then None
  else
    let c := default "" content in
    match RegExp.matchHeader c with
    | Some headerMatch => Some (trim headerMatch)
    | None =>
        match RegExp.matchMarker c with
        | Some sectionMatch => Some (trim sectionMatch)
        | None =>
            let firstLine := trim (firstLineOf c) in
            if String.length firstLine <? 100 then Some firstLine else None
        end
    end.

(** [extractTitle(message.content) || `Section ${sectionId}`] *)
Definition titleOrSection (content : option string) (sectionId : nat) : string :=
  let extracted := extractTitle content in
  if truthy extracted then default "" extracted
  else "Section " +:+ pretty sectionId.

(** What one message adds to the set of [extractParticipants]. *)
Definition participantsOf (msg : Message.t) : list string :=
  (if truthy (Message.author msg) then [default "" (Message.author msg)] else [])
  ++ (if truthy (Message.user msg) then [default "" (Message.user msg)] else []).

Definition extractParticipants (messages : list Message.t) : list string :=
  uniqueInOrder (flat_map participantsOf messages).

(** A message with its date; a group, which is a first message and those
    that follow it in its section; and a section as a caller sees it
    through a reference, which is the object and the content of the array in
    its field [messages]. *)
Abbreviation Stamped := (Message.t * Date)%type.
Abbreviation Group := (Stamped * list Stamped)%type.
Abbreviation Snapshot := (ConversationSection.t * list Message.t)%type.

(** ** Reading a section through a reference *)

(** The object, and the content of the array in its field [messages]. *)
Definition sectionAt (w : World) (r : ref) : option Snapshot :=
  match sectionObjs w !! r with
  | Some s =>
      match arrays w !! ConversationSection.messages s with
      | Some held => Some (s, held)
      | None => None
      end
  | None => None
  end.

Definition sectionsAt (w : World) (refs : list ref) : option (list Snapshot) :=
  mapM (sectionAt w) refs.

(** ** The section merger *)

(** [similarity]: 1 when the topics are the same string, else 0. *)
Definition similarityOf (lastSection currentSection : ConversationSection.t) : Q :=
  if String.eqb (ConversationSection.topic lastSection)
                (ConversationSection.topic currentSection)
  then 1%Q else 0%Q.

(** One turn of the loop of [mergeSimilarSections] for [sections[i]], the
    reference [current]; every field is read from the store at the moment
    the statement reads it. *)
Definition mergeStep (threshold : Q) (merged : list ref) (current : ref)
    : M (list ref) :=
  match last merged with
  | None => fun _ => None
  | Some lastRef =>
      lastSection <- readSection lastRef ;;
      currentSection <- readSection current ;;
      let similarity := similarityOf lastSection currentSection in
      if Qle_bool threshold similarity then
        (* lastSection.messages.push(...currentSection.messages) *)
        currentSection <- readSection current ;;
        pushed <- readArray (ConversationSection.messages currentSection) ;;
        lastSection <- readSection lastRef ;;
        kept <- readArray (ConversationSection.messages lastSection) ;;
        writeArray (ConversationSection.messages lastSection) (kept ++ pushed) ;;;
        (* lastSection.endTime = currentSection.endTime *)
        currentSection <- readSection current ;;
        lastSection <- readSection lastRef ;;
        writeSection lastRef
          (ConversationSection.setEndTime
             (ConversationSection.endTime currentSection) lastSection) ;;;
        (* lastSection.participants = Array.from(new Set([...])) *)
        lastSection <- readSection lastRef ;;
        currentSection <- readSection current ;;
        writeSection lastRef
          (ConversationSection.setParticipants
             (uniqueInOrder (ConversationSection.participants lastSection
                             ++ ConversationSection.participants currentSection))
             lastSection) ;;;
        ret merged
      else ret (merged ++ [current])
  end.

Fixpoint mergeLoop (threshold : Q) (merged : list ref) (rest : list ref)
    : M (list ref) :=
  match rest with
  | [] => ret merged
  | current :: rest' =>
      merged' <- mergeStep threshold merged current ;;
      mergeLoop threshold merged' rest'
  end.

(** [mergeSimilarSections(sections, threshold = 0.7)]; [None] for the
    threshold is the call that leaves it out. *)
Definition mergeSimilarSections (sections : list ref) (threshold : option Q)
    : M (list ref) :=
  let threshold := default 0.7%Q threshold in
  match sections with
  | [] | [_] => ret sections
  | first :: rest => mergeLoop threshold [first] rest
  end.

(** The section object that has absorbed [currentSection]. *)
Definition fusedSection (lastSection currentSection : ConversationSection.t)
    : ConversationSection.t :=
  ConversationSection.setParticipants
    (uniqueInOrder (ConversationSection.participants lastSection
                    ++ ConversationSection.participants currentSection))
    (ConversationSection.setEndTime
       (ConversationSection.endTime currentSection) lastSection).

(** Every reference of the list is to a section object of the store whose
    field [messages] is an array of the store. *)
Definition validSections (w : World) (refs : list ref) : bool :=
  forallb (fun r => bool_decide (is_Some (sectionAt w r))) refs.

(** No two neighbours of the list have the same topic. *)
Fixpoint adjacentTopicsDiffer (w : World) (refs : list ref) : bool :=
  match refs with
  | r1 :: (r2 :: _) as rest =>
      match sectionObjs w !! r1, sectionObjs w !! r2 with
      | Some s1, Some s2 =>
          negb (String.eqb (ConversationSection.topic s1)
                           (ConversationSection.topic s2))
          && adjacentTopicsDiffer w rest
      | _, _ => false
      end
  | _ => true
  end.

(** The store once [currentSection] is fused into the section at [lastRef]. *)
Definition fusedWorld (w : World) (lastRef : ref)
    (lastSection currentSection : ConversationSection.t)
    (kept pushed : list Message.t) : World :=
  mkWorld (<[lastRef := fusedSection lastSection currentSection]> (sectionObjs w))
          (<[ConversationSection.messages lastSection := kept ++ pushed]> (arrays w))
          (clockReads w).

(** The fields of the surviving section. *)
Definition fusedFrom (fused lastSection currentSection : ConversationSection.t)
    : Prop :=
  ConversationSection.endTime fused = ConversationSection.endTime currentSection
  ∧ NoDup (ConversationSection.participants fused)
  ∧ (∀ x, x ∈ ConversationSection.participants fused
          ↔ x ∈ ConversationSection.participants lastSection
            ∨ x ∈ ConversationSection.participants currentSection)
  ∧ ConversationSection.id fused = ConversationSection.id lastSection
  ∧ ConversationSection.title fused = ConversationSection.title lastSection
  ∧ ConversationSection.topic fused = ConversationSection.topic lastSection
  ∧ ConversationSection.startTime fused = ConversationSection.startTime lastSection.

(** The fields a fusion never writes. *)
Definition sameIdentity (s s' : ConversationSection.t) : Prop :=
  ConversationSection.id s' = ConversationSection.id s
  ∧ ConversationSection.title s' = ConversationSection.title s
  ∧ ConversationSection.messages s' = ConversationSection.messages s
  ∧ ConversationSection.startTime s' = ConversationSection.startTime s
  ∧ ConversationSection.topic s' = ConversationSection.topic s.

(** The store [w'] differs from [w] at most in the sections [touched] and
    in the arrays of their field [messages]: no section object and no array
    of messages is added, every section keeps its identity, every array
    keeps what it held as a prefix, and what is not reached from [touched]
    is as it was. *)
Definition mergeFrame (w w' : World) (touched : list ref) : Prop :=
  length (sectionObjs w') = length (sectionObjs w)
  ∧ length (arrays w') = length (arrays w)
  ∧ clockReads w' = clockReads w
  ∧ (∀ r s, sectionObjs w !! r = Some s →
       ∃ s', sectionObjs w' !! r = Some s'
             ∧ sameIdentity s s'
             ∧ (r ∉ touched → s' = s))
  ∧ (∀ a held, arrays w !! a = Some held →
       ∃ held', arrays w' !! a = Some held'
                ∧ held `prefix_of` held'
                ∧ ((∀ r s, r ∈ touched → sectionObjs w !! r = Some s →
                           ConversationSection.messages s ≠ a) →
                   held' = held)).

(** [array.sort(compare)]: the sort is stable; [precedes x e] is
    [compare(x, e) < 0]. *)
Fixpoint insertSorted {A} (precedes : A → A → bool) (e : A) (l : list A) : list A :=
  match l with
  | [] => [e]
  | x :: l' => if precedes x e then x :: insertSorted precedes e l' else e :: l
  end.

Definition stableSort {A} (precedes : A → A → bool) (l : list A) : list A :=
  foldr (insertSorted precedes) [] l.

(** ** An object used as a table of counts *)

Module JsObject.

(** The own properties of an object created by [{}] and filled by
    assignment, in the order of their creation. *)
Definition t : Type := list (string * nat).

(** The names an object inherits from [Object.prototype]. *)
Definition prototypeKeys : list string :=
  [ "constructor"; "__defineGetter__"; "__defineSetter__"; "hasOwnProperty";
    "__lookupGetter__"; "__lookupSetter__"; "isPrototypeOf";
    "propertyIsEnumerable"; "toString"; "valueOf"; "__proto__";
    "toLocaleString" ].

Definition getOwn (key : string) (o : t) : option nat :=
  snd <$> List.find (fun entry => String.eqb (fst entry) key) o.

(** [o[key] = value]: an own property keeps its place. *)
Fixpoint set (key : string) (value : nat) (o : t) : t :=
  match o with
  | [] => [(key, value)]
  | (k, v) :: o' =>
      if String.eqb k key then (k, value) :: o' else (k, v) :: set key value o'
  end.

Definition isDigit (c : ascii) : bool := (48 <=? code c) && (code c <=? 57).

Fixpoint digitsValue (s : string) (value : N) : option N :=
  match s with
  | EmptyString => Some value
  | String c s' =>
      if isDigit c
      then digitsValue s' (10 * value + N.of_nat (code c - 48))%N
      else None
  end.

(** The array index a property name is, if it is one: a decimal numeral
    without leading zero, of value at most [2^32 - 2]. *)
Definition arrayIndex (key : string) : option N :=
  match key with
  | EmptyString => None
  | String c rest =>
      if (code c =? 48) && negb (String.eqb rest "") then None
      else
        match digitsValue key 0 with
        | Some n => if (n <=? 4294967294)%N then Some n else None
        | None => None
        end
  end.

(** [Object.entries(o)]: the properties named by array indices first, in
    ascending order of the index, then the others in the order of their
    creation. *)
Definition entries (o : t) : list (string * nat) :=
  let indexed :=
    omap (fun entry => (fun n => (n, entry)) <$> arrayIndex (fst entry)) o in
  map snd (stableSort (fun x e => (fst x <? fst e)%N) indexed)
  ++ List.filter (fun entry => negb (bool_decide (is_Some (arrayIndex (fst entry))))) o.

End JsObject.

(** ** The summary of sections *)

Module Summary.

(** [participants] is a [Set] in the summary of no section and an array
    otherwise. *)
Inductive Participants : Type :=
| AsSet (elements : list string)
| AsArray (elements : list string).

(** [averageMessagesPerSection] is the number 0 in the summary of no
    section and a string otherwise. *)
Inductive Average : Type :=
| AsNumber (n : Z)
| AsString (s : string).

(** [None] is NaN. *)
Record Duration := mkDuration {
  milliseconds : option Q;
  seconds : option Z;
  minutes : option Z;
  hours : string
}.

(** [topics] is [None] where a topic is a name inherited from
    [Object.prototype] other than [__proto__]: the count stored for it is
    then no number, and what the sort makes of the counts is left to the
    host. *)
Record t := mk {
  totalSections : nat;
  totalMessages : nat;
  averageMessagesPerSection : Average;
  topics : option (list (string * nat));
  participants : Participants;
  duration : option Duration
}.

End Summary.

(** [topicCounts[topic] = (topicCounts[topic] || 0) + 1]

    Under a name that [Object.prototype] defines, what is read is no count
    but an object or a function, and the sum is a string. The object has no
    own property of such a name: [__proto__] is an accessor whose setter
    ignores a string, so that the assignment leaves the table as it is;
    under every other inherited name the assignment creates an own property
    that holds the string, and the counts are no longer all numbers
    ([None]). *)
Definition countTopic (topicCounts : option JsObject.t) (topic : string)
    : option JsObject.t :=
  match topicCounts with
  | Some counts =>
      if String.eqb topic "__proto__" then Some counts
      else if bool_decide (topic ∈ JsObject.prototypeKeys) then None
      else Some (JsObject.set topic (default 0 (JsObject.getOwn topic counts) + 1)
                   counts)
  | None => None
  end.

(** The callback of [sections.forEach], with [totalMessages],
    [allParticipants] and [topicCounts] as it leaves them. *)
Definition summaryStep (state : nat * list string * option JsObject.t) (r : ref)
    : M (nat * list string * option JsObject.t) :=
  let '(totalMessages, allParticipants, topicCounts) := state in
  section <- readSection r ;;
  held <- readArray (ConversationSection.messages section) ;;
  ret (totalMessages + length held,
       fold_left (fun seen x => if bool_decide (x ∈ seen) then seen else seen ++ [x])
                 (ConversationSection.participants section) allParticipants,
       countTopic topicCounts (ConversationSection.topic section)).

Fixpoint summaryLoop (state : nat * list string * option JsObject.t)
    (rest : list ref) : M (nat * list string * option JsObject.t) :=
  match rest with
  | [] => ret state
  | r :: rest' =>
      state' <- summaryStep state r ;;
      summaryLoop state' rest'
  end.

(** [lastTime - firstTime] on dates. *)
Definition dateDifference (lastTime firstTime : Date) : option Q :=
  match lastTime, firstTime with
  | Some l, Some f => Some (Number.nearest (inject_Z (l - f)))
  | _, _ => None
  end.

Definition durationOf (duration : option Q) : Summary.Duration :=
  Summary.mkDuration
    duration
    ((fun d => Number.round (Number.nearest (d / 1000))) <$> duration)
    ((fun d => Number.round (Number.nearest (d / 60000))) <$> duration)
    (match duration with
     | Some d => Number.toFixed2 (Number.nearest (d / 3600000))
     | None => "NaN"
     end).

Definition emptySummary : Summary.t :=
  Summary.mk 0 0 (Summary.AsNumber 0) (Some []) (Summary.AsSet []) None.

Definition generateSectionSummary (sections : list ref) : M Summary.t :=
  match sections with
  | [] => ret emptySummary
  | firstRef :: _ =>
      state <- summaryLoop (0, [], Some []) sections ;;
      let '(totalMessages, allParticipants, topicCounts) := state in
      firstSection <- readSection firstRef ;;
      lastSection <- readSection (List.last sections firstRef) ;;
      let duration :=
        dateDifference (ConversationSection.endTime lastSection)
                       (ConversationSection.startTime firstSection) in
      ret (Summary.mk
             (length sections)
             totalMessages
             (Summary.AsString
                (Number.toFixed2
                   (Number.nearest
                      (inject_Z (Z.of_nat totalMessages)
                       / inject_Z (Z.of_nat (length sections))))))
             ((fun counts =>
                 stableSort (fun x e => snd e <? snd x) (JsObject.entries counts))
                <$> topicCounts)
             (Summary.AsArray allParticipants)
             (Some (durationOf duration)))
  end.

(** ** What the summary computes *)

(** The field [topics] for sections of the topics [sectionTopics], in
    their order. *)
Definition topicHistogram (sectionTopics : list string)
    : option (list (string * nat)) :=
  (fun counts => stableSort (fun x e => snd e <? snd x) (JsObject.entries counts))
    <$> fold_left countTopic sectionTopics (Some []).

(** The summary of sections that are, with the messages they hold,
    [snapshots]. *)
Definition summaryOf (snapshots : list Snapshot) : Summary.t :=
  match snapshots with
  | [] => emptySummary
  | first :: _ =>
      let totalMessages := length (concat (map snd snapshots)) in
      Summary.mk
        (length snapshots)
        totalMessages
        (Summary.AsString
           (Number.toFixed2
              (Number.nearest
                 (inject_Z (Z.of_nat totalMessages)
                  / inject_Z (Z.of_nat (length snapshots))))))
        (topicHistogram
           (map (fun x => ConversationSection.topic (fst x)) snapshots))
        (Summary.AsArray
           (uniqueInOrder
              (concat (map (fun x => ConversationSection.participants (fst x))
                           snapshots))))
        (Some (durationOf
                 (dateDifference
                    (ConversationSection.endTime (fst (List.last snapshots first)))
                    (ConversationSection.startTime (fst first)))))
  end.

(** What a fusion of two neighbours keeps of a list of snapshots. *)
Definition sameTotals (fused snapshots : list Snapshot) : Prop :=
  concat (map snd fused) = concat (map snd snapshots)
  ∧ length fused ≤ length snapshots
  ∧ uniqueInOrder
      (concat (map (fun x => ConversationSection.participants (fst x)) fused))
    = uniqueInOrder
        (concat (map (fun x => ConversationSection.participants (fst x))
                     snapshots))
  ∧ (fun x => ConversationSection.startTime (fst x)) <$> head fused
    = (fun x => ConversationSection.startTime (fst x)) <$> head snapshots
  ∧ (fun x => ConversationSection.endTime (fst x)) <$> last fused
    = (fun x => ConversationSection.endTime (fst x)) <$> last snapshots.

(** ** The segmenter and the raw-text parser *)

Record DetectOptions := mkDetectOptions {
  timeGap : option Q;
  sectionMarkers : option (list string);
  detectTopicChanges : option bool
}.

Definition defaultSectionMarkers : list string :=
  ["section:"; "topic:"; "discuss:"; "new topic"; "---"; "==="].

Record ParseOptions := mkParseOptions {
  delimiter : option string;
  authorPattern : option RegExp.t;
  preserveFormatting : option bool
}.

(** ** Data of the examples *)

(** A wall clock that advances by one millisecond at every reading, and a
    host that reads no date in a string (no example holds a string
    timestamp). *)
Definition exampleClock (k : nat) : Z := (1700000000000 + Z.of_nat k)%Z.
Definition exampleDateParse (s : string) : Date := None.

Definition emptyWorld : World := mkWorld [] [] 0.
Definition defaultOptions : DetectOptions := mkDetectOptions None None None.
Definition defaultParseOptions : ParseOptions := mkParseOptions None None None.

(** [{ timestamp: t, content: c }] *)
Definition plainMessage (t : Z) (c : string) : Message.t :=
  Message.mk None (TsNumber t) (Some c) None None None.

(** Two messages, the second stamped before the first. *)
Definition outOfOrderMessages : list Message.t :=
  [plainMessage 100 "hello"; plainMessage 50 "hello"].

Definition orderedMessages : list Message.t :=
  [plainMessage 100 "hello"; plainMessage 200 "hello"].

(** A message, one more than 31 minutes later, one a millisecond after
    that, and one whose timestamp is the epoch. *)
Definition gapMessages : list Message.t :=
  [plainMessage 1000 "hello"; plainMessage 1861001 "hello again";
   plainMessage 1861002 "still here";
   plainMessage 0 "I found a bug in the function"].

Definition threeSegments : string := "Alice: hi

Bob:

Carol: yo".

(** A store of three sections of one message each, of topics "planning",
    "planning" and "feedback". *)
Definition sectionOf (id : nat) (title : string) (array : ref) (time : Z)
    (topic : string) (participants : list string) : ConversationSection.t :=
  ConversationSection.mk id title array (Some time) (Some time) topic participants.

Definition threeSections : World :=
  mkWorld
    [sectionOf 0 "Plan" 0 1000 "planning" ["ann"; "bob"];
     sectionOf 1 "Schedule" 1 2000 "planning" ["bob"; "cy"];
     sectionOf 2 "Review" 2 3000 "feedback" ["ann"]]
    [[plainMessage 1000 "the plan"]; [plainMessage 2000 "the schedule"];
     [plainMessage 3000 "a review"]]
    0.

(** The sections of [threeSections] with the messages they hold. *)
Definition threeSnapshots : list Snapshot :=
  [ (sectionOf 0 "Plan" 0 1000 "planning" ["ann"; "bob"],
     [plainMessage 1000 "the plan"]);
    (sectionOf 1 "Schedule" 1 2000 "planning" ["bob"; "cy"],
     [plainMessage 2000 "the schedule"]);
    (sectionOf 2 "Review" 2 3000 "feedback" ["ann"],
     [plainMessage 3000 "a review"]) ].

(** [threeSections] with the topic [__proto__] in the second section and
    "planning" in the third. *)
Definition protoSections : World :=
  mkWorld
    [sectionOf 0 "Plan" 0 1000 "planning" ["ann"; "bob"];
     sectionOf 1 "Schedule" 1 2000 "__proto__" ["bob"; "cy"];
     sectionOf 2 "Review" 2 3000 "planning" ["ann"]]
    [[plainMessage 1000 "the plan"]; [plainMessage 2000 "the schedule"];
     [plainMessage 3000 "a review"]]
    0.

Definition protoSnapshots : list Snapshot :=
  [ (sectionOf 0 "Plan" 0 1000 "planning" ["ann"; "bob"],
     [plainMessage 1000 "the plan"]);
    (sectionOf 1 "Schedule" 1 2000 "__proto__" ["bob"; "cy"],
     [plainMessage 2000 "the schedule"]);
    (sectionOf 2 "Review" 2 3000 "planning" ["ann"],
     [plainMessage 3000 "a review"]) ].

Section Parser.

(** The host: [Date_now k] is what the [k]-th reading of the wall clock
    answers, [Date_parse s] the time value the host reads in the string
    [s]. *)
Variable Date_now : nat → Z.
Variable Date_parse : string → Date.

(** [new Date(v)] *)
Definition newDate (v : Timestamp) : Date :=
  match v with
  | TsUndefined => None
  | TsNull => Some 0%Z
  | TsNumber n => timeClip n
  | TsNaN => None
  | TsString s => Date_parse s
  | TsDate d => d
  end.

Definition readClock : M Z :=
  fun w => Some (Date_now (clockReads w),
                 mkWorld (sectionObjs w) (arrays w) (S (clockReads w))).

(** [new Date(message.timestamp || Date.now())] *)
Definition messageDate (message : Message.t) : M Date :=
  if timestampTruthy (Message.timestamp message)
  then ret (newDate (Message.timestamp message))
  else now <- readClock ;; ret (newDate (TsNumber now)).

(** The variables of the loop: [sections], [currentSection], [sectionId]. *)
Record LoopState := mkLoopState {
  sections : list ref;
  currentSection : option ref;
  sectionId : nat
}.

Section Loop.

Variable timeGap' : Q.
Variable sectionMarkers' : list string.
Variable detectTopicChanges' : bool.
Variable messages : list Message.t.

(** The body of the loop for [messages[i]], the record [message]. *)
Definition detectStep (st : LoopState) (i : nat) (message : Message.t)
    : M LoopState :=
  timestamp <- messageDate message ;;
  shouldNewSection <-
    match currentSection st with
    | None => ret true
    | Some current =>
        section <- readSection current ;;
        ret (isTimedOut (ConversationSection.endTime section) timestamp timeGap'
             || hasSectionMarker (Message.content message) sectionMarkers'
             || (detectTopicChanges' && (0 <? i)
                 && match messages !! (i - 1) with
                    | Some prevMessage => hasTopicChange prevMessage message
                    | None => false
                    end))
    end ;;
  if (shouldNewSection : bool) then
    let sections' :=
      match currentSection st with
      | Some current => sections st ++ [current]
      | None => sections st
      end in
    let id := sectionId st in
    let sectionId' := S (sectionId st) in
    array <- newArray [message] ;;
    created <- newSection
      (ConversationSection.mk id
         (titleOrSection (Message.content message) sectionId')
         array timestamp timestamp
         (detectTopic (Message.content message))
         (extractParticipants [message])) ;;
    ret (mkLoopState sections' (Some created) sectionId')
  else
    match currentSection st with
    | None => fun _ => None
    | Some current =>
        (* currentSection.messages.push(message) *)
        section <- readSection current ;;
        held <- readArray (ConversationSection.messages section) ;;
        writeArray (ConversationSection.messages section) (held ++ [message]) ;;;
        (* currentSection.endTime = timestamp *)
        section <- readSection current ;;
        writeSection current (ConversationSection.setEndTime timestamp section) ;;;
        (* currentSection.participants = extractParticipants(...) *)
        section <- readSection current ;;
        held <- readArray (ConversationSection.messages section) ;;
        writeSection current
          (ConversationSection.setParticipants (extractParticipants held) section) ;;;
        ret st
    end.

(** The loop from index [i] on, [rest] being [messages.slice(i)]. *)
Fixpoint detectLoop (st : LoopState) (i : nat) (rest : list Message.t)
    : M LoopState :=
  match rest with
  | [] => ret st
  | message :: rest' =>
      st' <- detectStep st i message ;;
      detectLoop st' (S i) rest'
  end.

End Loop.

Definition detectSections (messages : list Message.t) (options : DetectOptions)
    : M (list ref) :=
  let timeGap := default 30%Q (timeGap options) in
  let sectionMarkers := default defaultSectionMarkers (sectionMarkers options) in
  let detectTopicChanges := default true (detectTopicChanges options) in
  match messages with
  | [] => ret []
  | _ =>
      st <- detectLoop timeGap sectionMarkers detectTopicChanges messages
              (mkLoopState [] None 0) 0 messages ;;
      match currentSection st with
      | Some current => ret (sections st ++ [current])
      | None => ret (sections st)
      end
  end.

(** ** The raw-text parser *)

Section Segments.

Variable authorPattern' : RegExp.t.
Variable preserveFormatting' : bool.

(** The callback of [segments.forEach], with the array [messages] it
    pushes to; it throws when the pattern has no capture group 1. *)
Definition parseSegment (messages : list Message.t) (index : nat)
    (segment : string) : M (list Message.t) :=
  let authorMatch := authorPattern' segment in
  now <- readClock ;;
  let content :=
    match authorMatch with
    | Some m => trim (RegExp.replaceEmpty m)
    | None => trim segment
    end in
  author <-
    match authorMatch with
    | Some m =>
        match RegExp.group1 m with
        | Some name => ret (trim name)
        | None => fun _ => None
        end
    | None => ret "Unknown"
    end ;;
  let message :=
    Message.mk (Some (Z.of_nat index)) (TsDate (Some now)) (Some content)
      (Some author) None
      (if preserveFormatting' then Some segment else None) in
  if truthy (Message.content message)
  then ret (messages ++ [message])
  else ret messages.

Fixpoint parseLoop (messages : list Message.t) (index : nat)
    (rest : list string) : M (list Message.t) :=
  match rest with
  | [] => ret messages
  | segment :: rest' =>
      messages' <- parseSegment messages index segment ;;
      parseLoop messages' (S index) rest'
  end.

End Segments.

(** [text.split(delimiter).filter((s) => s.trim())] *)
Definition segmentsOf (delimiter text : string) : list string :=
  List.filter (fun segment => truthy (Some (trim segment))) (split delimiter text).

Definition parseRawConversation (text : string) (options : ParseOptions)
    : M (list Message.t) :=
  let delimiter := default "

" (delimiter options) in
  let authorPattern := default RegExp.defaultAuthorPattern (authorPattern options) in
  let preserveFormatting := default true (preserveFormatting options) in
  if negb (truthy (Some text)) then ret []
  else
    parseLoop authorPattern preserveFormatting [] 0 (segmentsOf delimiter text).

(** ** What the raw-text parser computes *)

Section ParsedSegments.

Variable pattern : RegExp.t.
Variable preserve : bool.

(** The field [content] of the message of a segment. *)
Definition cleanedContent (segment : string) : string :=
  match pattern segment with
  | Some m => trim (RegExp.replaceEmpty m)
  | None => trim segment
  end.

Definition authorOf (segment : string) : string :=
  match pattern segment with
  | Some m => trim (default "" (RegExp.group1 m))
  | None => "Unknown"
  end.

(** The pattern, where it matches the segment, has a capture group 1. *)
Definition hasGroup1 (segment : string) : bool :=
  match pattern segment with
  | Some m => bool_decide (is_Some (RegExp.group1 m))
  | None => true
  end.

Definition messageOfSegment (now : Z) (index : nat) (segment : string)
    : Message.t :=
  Message.mk (Some (Z.of_nat index)) (TsDate (Some now))
    (Some (cleanedContent segment)) (Some (authorOf segment)) None
    (if preserve then Some segment else None).

(** The messages of the segments [rest], the first of which has the index
    [index] and is read at the [reads]-th reading of the clock. *)
Fixpoint parsedFrom (reads index : nat) (rest : list string) : list Message.t :=
  match rest with
  | [] => []
  | segment :: rest' =>
      (if truthy (Some (cleanedContent segment))
       then [messageOfSegment (Date_now reads) index segment]
       else [])
      ++ parsedFrom (S reads) (S index) rest'
  end.

(** The indices, from [index] on, of the segments of [rest] whose cleaned
    content is not empty. *)
Fixpoint keptFrom (index : nat) (rest : list string) : list nat :=
  match rest with
  | [] => []
  | segment :: rest' =>
      (if truthy (Some (cleanedContent segment)) then [index] else [])
      ++ keptFrom (S index) rest'
  end.

End ParsedSegments.

(** ** What the segmenter computes

    The dates of the messages, the groups the loop cuts them into and the
    store the loop leaves, as functions of the input. *)

(** The clock is read once for every message whose timestamp is falsy. *)
Definition dateOf (reads : nat) (message : Message.t) : Date :=
  if timestampTruthy (Message.timestamp message)
  then newDate (Message.timestamp message)
  else newDate (TsNumber (Date_now reads)).

Definition readsOf (message : Message.t) : nat :=
  if timestampTruthy (Message.timestamp message) then 0 else 1.

Fixpoint messageDates (reads : nat) (messages : list Message.t) : list Date :=
  match messages with
  | [] => []
  | message :: rest =>
      dateOf reads message :: messageDates (reads + readsOf message) rest
  end.

Fixpoint clockReadsOf (messages : list Message.t) : nat :=
  match messages with
  | [] => 0
  | message :: rest => readsOf message + clockReadsOf rest
  end.

Definition groupItems (g : Group) : list Stamped := fst g :: snd g.
Definition groupMessages (g : Group) : list Message.t := map fst (groupItems g).
Definition groupLast (g : Group) : Stamped := List.last (snd g) (fst g).

Section Groups.

Variable gap : Q.
Variable markers : list string.
Variable topicChanges : bool.

(** The triggers of a new section between a message and the next. *)
Definition startsSection (prev next : Stamped) : bool :=
  isTimedOut (snd prev) (snd next) gap
  || hasSectionMarker (Message.content (fst next)) markers
  || (topicChanges && hasTopicChange (fst prev) (fst next)).

Fixpoint groupsFrom (closed : list Group) (current : Group)
    (rest : list Stamped) : list Group :=
  match rest with
  | [] => closed ++ [current]
  | next :: rest' =>
      if startsSection (groupLast current) next
      then groupsFrom (closed ++ [current]) (next, []) rest'
      else groupsFrom closed (fst current, snd current ++ [next]) rest'
  end.

Definition groupsOf (stamped : list Stamped) : list Group :=
  match stamped with
  | [] => []
  | first :: rest => groupsFrom [] (first, []) rest
  end.

End Groups.

(** The section object of the [k]-th group, its array being the [k]-th
    allocated after [firstArray]. *)
Definition sectionOfGroup (firstArray : ref) (k : nat) (g : Group)
    : ConversationSection.t :=
  let first := fst (fst g) in
  ConversationSection.mk k
    (titleOrSection (Message.content first) (S k))
    (firstArray + k)
    (snd (fst g)) (snd (groupLast g))
    (detectTopic (Message.content first))
    (extractParticipants (groupMessages g)).

(** The store [w] after the sections of the groups [gs] have been built. *)
Definition worldWith (w : World) (gs : list Group) (reads : nat) : World :=
  mkWorld (sectionObjs w ++ imap (sectionOfGroup (length (arrays w))) gs)
          (arrays w ++ map groupMessages gs)
          (clockReads w + reads).

(** The variables of the loop once the groups [closed] are closed and one
    more is open. *)
Definition stateAfter (w0 : World) (closed : list Group) : LoopState :=
  mkLoopState (seq (length (sectionObjs w0)) (length closed))
              (Some (length (sectionObjs w0) + length closed))
              (S (length closed)).

(** The groups of a call of [detectSections] in the store [w]. *)
Definition detectedGroups (messages : list Message.t) (options : DetectOptions)
    (w : World) : list Group :=
  groupsOf (default 30%Q (timeGap options))
           (default defaultSectionMarkers (sectionMarkers options))
           (default true (detectTopicChanges options))
           (zip messages (messageDates (clockReads w) messages)).

Definition snapshotOfGroup (firstArray : ref) (k : nat) (g : Group) : Snapshot :=
  (sectionOfGroup firstArray k g, groupMessages g).

(** The index in the input of the first message of the [k]-th section. *)
Definition offsetOf (snapshots : list Snapshot) (k : nat) : nat :=
  length (concat (map snd (take k snapshots))).

(** [endTime >= startTime] on dates: false when either is invalid. *)
Definition dateGe (a b : Date) : bool :=
  match a, b with
  | Some x, Some y => (y <=? x)%Z
  | _, _ => false
  end.

(** * Properties *)

(** ** Properties of the classifier *)

Section Classifier.

Variable lowerContent : string.

Let score (entry : string * list string) : nat :=
  keywordScore lowerContent (snd entry).

(** A positive best score is reached by some entry of the table. *)
Lemma find_score_is_Some (table : list (string * list string)) (best : nat) :
  best = bestScore lowerContent table → 0 < best →
  is_Some (List.find (fun entry => score entry =? best) table).
Proof.
  unfold bestScore, score. revert best.
  induction table as [|entry table IH]; intros best Hbest Hpos.
  - cbn in Hbest. lia.
  - cbn [map foldr] in Hbest. cbn [List.find].
    destruct (Nat.eqb_spec (keywordScore lowerContent (snd entry)) best) as [|Hne];
      [eexists; reflexivity|].
    apply IH; [lia|assumption].
Qed.

Lemma find_best_is_Some (table : list (string * list string)) :
  0 < bestScore lowerContent table →
  is_Some (List.find (fun entry => score entry =? bestScore lowerContent table)
             table).
Proof. intros. by apply find_score_is_Some. Qed.

(** The loop keeps the accumulator while no entry beats it, and otherwise
    ends on the first entry that reaches the best score of the table. *)
Lemma topic_fold_first_best (table : list (string * list string))
    (maxScore : nat) (detected : string) :
  fold_left (topicStep lowerContent) table (maxScore, detected) =
    if bestScore lowerContent table <=? maxScore then (maxScore, detected)
    else
      (bestScore lowerContent table,
       match List.find (fun entry => score entry =? bestScore lowerContent table)
               table with
       | Some entry => fst entry
       | None => detected
       end).
Proof.
  revert maxScore detected.
  induction table as [|[topic keywords] table IH]; intros maxScore detected.
  - reflexivity.
  - pose proof (find_best_is_Some table) as Hfind.
    cbn [fold_left topicStep]. unfold bestScore in *.
    cbn [map foldr List.find snd fst]. unfold score in *. cbn [snd].
    set (s := keywordScore lowerContent keywords).
    set (rest := foldr Nat.max 0 _) in *.
    destruct (Nat.ltb_spec maxScore s) as [Hlt|Hge]; rewrite IH.
    + destruct (Nat.leb_spec rest s) as [Hr|Hr].
      * replace (s `max` rest) with s by lia.
        destruct (Nat.leb_spec s maxScore); [lia|].
        rewrite Nat.eqb_refl. reflexivity.
      * replace (s `max` rest) with rest by lia.
        destruct (Nat.leb_spec rest maxScore); [lia|].
        destruct (Nat.eqb_spec s rest); [lia|].
        destruct Hfind as [e ->]; [lia|reflexivity].
    + destruct (Nat.leb_spec rest maxScore) as [Hr|Hr].
      * destruct (Nat.leb_spec (s `max` rest) maxScore); [reflexivity|lia].
      * replace (s `max` rest) with rest by lia.
        destruct (Nat.leb_spec rest maxScore); [lia|].
        destruct (Nat.eqb_spec s rest); [lia|]. reflexivity.
Qed.

End Classifier.

(** ** The store under the operations of the loop *)

Lemma bind_run {A B} (m : M A) (k : A → M B) (w w' : World) (a : A) :
  m w = Some (a, w') → bind m k w = k a w'.
Proof. unfold bind. by intros ->. Qed.

Lemma readSection_last (os : list ConversationSection.t) (o : ConversationSection.t)
    (ars : list (list Message.t)) (k : nat) :
  readSection (length os) (mkWorld (os ++ [o]) ars k)
  = Some (o, mkWorld (os ++ [o]) ars k).
Proof.
  unfold readSection. cbn [sectionObjs].
  by rewrite list_lookup_middle.
Qed.

Lemma writeSection_last (os : list ConversationSection.t)
    (o o' : ConversationSection.t) (ars : list (list Message.t)) (k : nat) :
  writeSection (length os) o' (mkWorld (os ++ [o]) ars k)
  = Some (tt, mkWorld (os ++ [o']) ars k).
Proof.
  unfold writeSection. cbn [sectionObjs].
  rewrite length_app. cbn [length].
  destruct (Nat.ltb_spec (length os) (length os + 1)); [|lia].
  replace (length os) with (length os + 0) at 1 by lia.
  by rewrite insert_app_r.
Qed.

Lemma readArray_last (os : list ConversationSection.t)
    (ars : list (list Message.t)) (a : list Message.t) (k : nat) :
  readArray (length ars) (mkWorld os (ars ++ [a]) k)
  = Some (a, mkWorld os (ars ++ [a]) k).
Proof.
  unfold readArray. cbn [arrays].
  by rewrite list_lookup_middle.
Qed.

Lemma writeArray_last (os : list ConversationSection.t)
    (ars : list (list Message.t)) (a a' : list Message.t) (k : nat) :
  writeArray (length ars) a' (mkWorld os (ars ++ [a]) k)
  = Some (tt, mkWorld os (ars ++ [a']) k).
Proof.
  unfold writeArray. cbn [arrays].
  rewrite length_app. cbn [length].
  destruct (Nat.ltb_spec (length ars) (length ars + 1)); [|lia].
  replace (length ars) with (length ars + 0) at 1 by lia.
  by rewrite insert_app_r.
Qed.

Lemma messageDate_run (message : Message.t) (os : list ConversationSection.t)
    (ars : list (list Message.t)) (k : nat) :
  messageDate message (mkWorld os ars k)
  = Some (dateOf k message, mkWorld os ars (k + readsOf message)).
Proof.
  unfold messageDate, dateOf, readsOf.
  destruct (timestampTruthy (Message.timestamp message)).
  - unfold ret. by rewrite Nat.add_0_r.
  - unfold bind, readClock, ret. cbn. by rewrite Nat.add_1_r.
Qed.

(** ** One turn of the loop *)

Section Step.

Variable gap : Q.
Variable markers : list string.
Variable topicChanges : bool.
Variable messages : list Message.t.

(** A turn with an open section, the last object of the store, whose array
    is the last array: the turn either closes it and opens the next, or
    extends it. *)
Lemma detectStep_open (os : list ConversationSection.t) (o : ConversationSection.t)
    (ars : list (list Message.t)) (a : list Message.t) (k : nat)
    (closed : list ref) (id i : nat) (message prev : Message.t) :
  ConversationSection.messages o = length ars →
  0 < i → messages !! (i - 1) = Some prev →
  detectStep gap markers topicChanges messages
    (mkLoopState closed (Some (length os)) id) i message
    (mkWorld (os ++ [o]) (ars ++ [a]) k)
  = let date := dateOf k message in
    let k' := k + readsOf message in
    if startsSection gap markers topicChanges
         (prev, ConversationSection.endTime o) (message, date)
    then
      Some (mkLoopState (closed ++ [length os]) (Some (S (length os))) (S id),
            mkWorld
              ((os ++ [o]) ++
               [ConversationSection.mk id
                  (titleOrSection (Message.content message) (S id))
                  (S (length ars)) date date
                  (detectTopic (Message.content message))
                  (extractParticipants [message])])
              ((ars ++ [a]) ++ [[message]]) k')
    else
      Some (mkLoopState closed (Some (length os)) id,
            mkWorld
              (os ++ [ConversationSection.setParticipants
                        (extractParticipants (a ++ [message]))
                        (ConversationSection.setEndTime date o)])
              (ars ++ [a ++ [message]]) k').
Proof.
  intros Harr Hi Hprev. unfold detectStep. cbn [currentSection sections sectionId].
  rewrite (bind_run _ _ _ _ _ (messageDate_run _ _ _ _)).
  rewrite (bind_run _ _ _ _ _ (bind_run _ _ _ _ _ (readSection_last _ _ _ _))).
  unfold ret at 1. rewrite Hprev.
  destruct (Nat.ltb_spec 0 i) as [_|]; [|lia].
  rewrite andb_true_r.
  unfold startsSection. cbn [fst snd].
  destruct (_ || _ || _).
  - unfold bind, newArray, newSection, ret. cbn [arrays sectionObjs clockReads].
    rewrite !length_app. cbn [length].
    by rewrite !Nat.add_1_r.
  - rewrite (bind_run _ _ _ _ _ (readSection_last _ _ _ _)).
    rewrite Harr.
    rewrite (bind_run _ _ _ _ _ (readArray_last _ _ _ _)).
    rewrite (bind_run _ _ _ _ _ (writeArray_last _ _ _ _ _)).
    rewrite (bind_run _ _ _ _ _ (readSection_last _ _ _ _)).
    rewrite (bind_run _ _ _ _ _ (writeSection_last _ _ _ _ _)).
    rewrite (bind_run _ _ _ _ _ (readSection_last _ _ _ _)).
    cbn [ConversationSection.setEndTime ConversationSection.messages].
    rewrite Harr.
    rewrite (bind_run _ _ _ _ _ (readArray_last _ _ _ _)).
    rewrite (bind_run _ _ _ _ _ (writeSection_last _ _ _ _ _)).
    reflexivity.
Qed.

End Step.

(** ** The loop builds the sections of the groups *)

Lemma groupLast_extend (g : Group) (next : Stamped) :
  groupLast (fst g, snd g ++ [next]) = next.
Proof. unfold groupLast. cbn [fst snd]. apply last_last. Qed.

Lemma groupMessages_extend (g : Group) (next : Stamped) :
  groupMessages (fst g, snd g ++ [next]) = groupMessages g ++ [fst next].
Proof.
  unfold groupMessages, groupItems. cbn [fst snd].
  by rewrite app_comm_cons, map_app.
Qed.

Lemma sectionOfGroup_extend (firstArray k : nat) (g : Group) (next : Stamped) :
  ConversationSection.setParticipants
    (extractParticipants (groupMessages g ++ [fst next]))
    (ConversationSection.setEndTime (snd next) (sectionOfGroup firstArray k g))
  = sectionOfGroup firstArray k (fst g, snd g ++ [next]).
Proof.
  unfold sectionOfGroup, ConversationSection.setParticipants,
    ConversationSection.setEndTime.
  cbn [ConversationSection.id ConversationSection.title
       ConversationSection.messages ConversationSection.startTime
       ConversationSection.endTime ConversationSection.topic
       ConversationSection.participants].
  by rewrite groupLast_extend, groupMessages_extend.
Qed.

Lemma worldWith_snoc (w : World) (closed : list Group) (current : Group)
    (reads : nat) :
  worldWith w (closed ++ [current]) reads
  = mkWorld
      ((sectionObjs w ++ imap (sectionOfGroup (length (arrays w))) closed)
       ++ [sectionOfGroup (length (arrays w)) (length closed) current])
      ((arrays w ++ map groupMessages closed) ++ [groupMessages current])
      (clockReads w + reads).
Proof.
  unfold worldWith. rewrite imap_app, map_app. cbn [imap map].
  by rewrite Nat.add_0_r, !app_assoc.
Qed.

Section LoopGroups.

Variable gap : Q.
Variable markers : list string.
Variable topicChanges : bool.
Variable messages : list Message.t.
Variable w0 : World.

Lemma detectLoop_groups (rest : list Message.t) :
  ∀ (closed : list Group) (current : Group) (reads i : nat),
    0 < i →
    messages !! (i - 1) = Some (fst (groupLast current)) →
    drop i messages = rest →
    ∃ (closed' : list Group) (current' : Group),
      groupsFrom gap markers topicChanges closed current
        (zip rest (messageDates (clockReads w0 + reads) rest))
      = closed' ++ [current']
      ∧ detectLoop gap markers topicChanges messages (stateAfter w0 closed) i rest
          (worldWith w0 (closed ++ [current]) reads)
        = Some (stateAfter w0 closed',
                worldWith w0 (closed' ++ [current'])
                  (reads + clockReadsOf rest)).
Proof.
  induction rest as [|message rest IH]; intros closed current reads i Hi Hprev Hdrop.
  - exists closed, current. split; [reflexivity|].
    cbn [detectLoop clockReadsOf]. unfold ret.
    by rewrite Nat.add_0_r.
  - assert (messages !! i = Some message) as Hmsg.
    { pose proof (lookup_drop messages i 0) as H.
      rewrite Hdrop, Nat.add_0_r in H. symmetry. exact H. }
    assert (drop (S i) messages = rest) as Hdrop'.
    { pose proof (drop_drop messages 1 i) as H.
      rewrite Hdrop, Nat.add_1_r in H. symmetry. exact H. }
    cbn [messageDates zip zip_with groupsFrom detectLoop].
    set (date := dateOf (clockReads w0 + reads) message).
    rewrite worldWith_snoc. unfold stateAfter at 1.
    pose proof (detectStep_open gap markers topicChanges messages
      (sectionObjs w0 ++ imap (sectionOfGroup (length (arrays w0))) closed)
      (sectionOfGroup (length (arrays w0)) (length closed) current)
      (arrays w0 ++ map groupMessages closed)
      (groupMessages current) (clockReads w0 + reads)
      (seq (length (sectionObjs w0)) (length closed))
      (S (length closed)) i message (fst (groupLast current))) as Hstep.
    rewrite !length_app, length_imap, length_map in Hstep.
    specialize (Hstep eq_refl Hi Hprev).
    cbn zeta in Hstep. fold date in Hstep.
    replace (fst (groupLast current),
             ConversationSection.endTime
               (sectionOfGroup (length (arrays w0)) (length closed) current))
      with (groupLast current) in Hstep.
    2:{ unfold sectionOfGroup. cbn [ConversationSection.endTime].
        apply surjective_pairing. }
    destruct (startsSection gap markers topicChanges (groupLast current)
                (message, date));
      rewrite (bind_run _ _ _ _ _ Hstep); clear Hstep.
    + destruct (IH (closed ++ [current]) ((message, date), [])
                  (reads + readsOf message) (S i)) as (closed' & current' & HG & HL).
      { lia. }
      { rewrite Nat.sub_succ, Nat.sub_0_r. exact Hmsg. }
      { exact Hdrop'. }
      exists closed', current'. split.
      * rewrite <- HG. by rewrite Nat.add_assoc.
      * replace (reads + clockReadsOf (message :: rest))
          with (reads + readsOf message + clockReadsOf rest)
          by (cbn [clockReadsOf]; lia).
        rewrite <- HL. f_equal.
        -- unfold stateAfter. rewrite length_app. cbn [length].
           rewrite Nat.add_1_r, seq_S. f_equal. f_equal. lia.
        -- rewrite worldWith_snoc. rewrite imap_app, map_app, !length_app.
           cbn [imap map length]. rewrite Nat.add_0_r, !Nat.add_1_r.
           rewrite Nat.add_assoc.
           unfold sectionOfGroup at 5. unfold groupLast, groupMessages, groupItems.
           cbn [fst snd List.last map].
           by rewrite Nat.add_succ_r, !app_assoc.
    + destruct (IH closed (fst current, snd current ++ [(message, date)])
                  (reads + readsOf message) (S i)) as (closed' & current' & HG & HL).
      { lia. }
      { rewrite Nat.sub_succ, Nat.sub_0_r, groupLast_extend. exact Hmsg. }
      { exact Hdrop'. }
      exists closed', current'. split.
      * rewrite <- HG. by rewrite Nat.add_assoc.
      * replace (reads + clockReadsOf (message :: rest))
          with (reads + readsOf message + clockReadsOf rest)
          by (cbn [clockReadsOf]; lia).
        rewrite <- HL. f_equal.
        rewrite worldWith_snoc.
        change message with (fst (message, date)) at 1 2.
        change date with (snd (message, date)) at 1.
        rewrite sectionOfGroup_extend, groupMessages_extend.
        by rewrite Nat.add_assoc.
Qed.

End LoopGroups.

(** ** What [detectSections] returns *)

Lemma worldWith_nil (w : World) : worldWith w [] 0 = w.
Proof.
  destruct w as [os ars k]. unfold worldWith. cbn.
  by rewrite !app_nil_r, Nat.add_0_r.
Qed.

Lemma worldWith_sectionAt (w : World) (gs : list Group) (reads k : nat) (g : Group) :
  gs !! k = Some g →
  sectionAt (worldWith w gs reads) (length (sectionObjs w) + k)
  = Some (snapshotOfGroup (length (arrays w)) k g).
Proof.
  intros Hk. unfold sectionAt, worldWith. cbn [sectionObjs arrays].
  rewrite lookup_app_r by lia.
  replace (length (sectionObjs w) + k - length (sectionObjs w)) with k by lia.
  rewrite list_lookup_imap, Hk. cbn [fmap option_fmap option_map].
  unfold sectionOfGroup at 1. cbn [ConversationSection.messages].
  rewrite lookup_app_r by lia.
  replace (length (arrays w) + k - length (arrays w)) with k by lia.
  rewrite list_lookup_fmap, Hk. reflexivity.
Qed.

Lemma worldWith_sectionsAt (w : World) (gs : list Group) (reads : nat) :
  sectionsAt (worldWith w gs reads) (seq (length (sectionObjs w)) (length gs))
  = Some (imap (snapshotOfGroup (length (arrays w))) gs).
Proof.
  apply mapM_Some_2, Forall2_same_length_lookup_2.
  - by rewrite length_seq, length_imap.
  - intros k r snap Hr Hsnap.
    apply lookup_seq in Hr as [-> Hlt].
    apply list_lookup_imap_Some in Hsnap as (g & Hg & ->).
    by apply worldWith_sectionAt.
Qed.

(** The functional specification of the segmenter: it always returns, its
    sections are those of the groups of the input, allocated after the
    cells of the store it was called in, and nothing else changes. *)
Theorem detectSections_groups (messages : list Message.t) (options : DetectOptions)
    (w : World) :
  detectSections messages options w
  = Some (seq (length (sectionObjs w))
              (length (detectedGroups messages options w)),
          worldWith w (detectedGroups messages options w) (clockReadsOf messages)).
Proof.
  unfold detectSections, detectedGroups.
  destruct messages as [|message rest].
  - cbn. unfold ret. by rewrite worldWith_nil.
  - set (gap := default 30%Q (timeGap options)).
    set (markers := default defaultSectionMarkers (sectionMarkers options)).
    set (changes := default true (detectTopicChanges options)).
    cbn [detectLoop messageDates zip zip_with groupsOf].
    set (date := dateOf (clockReads w) message).
    destruct (detectLoop_groups gap markers changes (message :: rest) w rest
                [] ((message, date), []) (readsOf message) 1)
      as (closed' & current' & HG & HL); [lia|reflexivity|reflexivity|].
    match goal with
    | |- context [worldWith w ?G _] =>
        replace G with (closed' ++ [current']) by (symmetry; exact HG)
    end.
    assert (detectStep gap markers changes (message :: rest)
              (mkLoopState [] None 0) 0 message w
            = Some (stateAfter w [],
                    worldWith w ([] ++ [((message, date), [])]) (readsOf message)))
      as Hfirst.
    { unfold detectStep. cbn [currentSection sections sectionId].
      destruct w as [os ars k].
      rewrite (bind_run _ _ _ _ _ (messageDate_run _ _ _ _)).
      unfold bind, ret, newArray, newSection, stateAfter, worldWith.
      cbn [sectionObjs arrays clockReads app imap map length seq].
      unfold sectionOfGroup, groupLast, groupMessages, groupItems.
      cbn [fst snd List.last map]. by rewrite !Nat.add_0_r. }
    unfold bind. rewrite Hfirst. cbv beta iota. rewrite HL. cbv beta iota.
    unfold stateAfter. cbn [currentSection sections]. unfold ret.
    rewrite length_app. cbn [length clockReadsOf].
    by rewrite Nat.add_1_r, seq_S.
Qed.

(** The sections a caller reads through the references returned. *)
Corollary detectSections_snapshots (messages : list Message.t)
    (options : DetectOptions) (w : World) :
  ∃ (refs : list ref) (w' : World),
    detectSections messages options w = Some (refs, w')
    ∧ sectionsAt w' refs
      = Some (imap (snapshotOfGroup (length (arrays w)))
                   (detectedGroups messages options w)).
Proof.
  eexists _, _. split; [apply detectSections_groups|].
  apply worldWith_sectionsAt.
Qed.

(** ** The groups partition the input *)

Lemma groupsFrom_items (gap : Q) (markers : list string) (changes : bool)
    (rest : list Stamped) :
  ∀ (closed : list Group) (current : Group),
    concat (map groupItems (groupsFrom gap markers changes closed current rest))
    = concat (map groupItems closed) ++ groupItems current ++ rest.
Proof.
  induction rest as [|next rest IH]; intros closed current; cbn [groupsFrom].
  - rewrite map_app, concat_app. cbn [map concat]. by rewrite !app_nil_r.
  - destruct (startsSection _ _ _ _ _); rewrite IH.
    + rewrite map_app, concat_app. unfold groupItems. cbn [map concat fst snd].
      rewrite app_nil_r, <- !app_assoc. reflexivity.
    + unfold groupItems. cbn [fst snd]. f_equal.
      rewrite <- !app_comm_cons. f_equal. by rewrite <- app_assoc.
Qed.

Lemma groupsOf_items (gap : Q) (markers : list string) (changes : bool)
    (stamped : list Stamped) :
  concat (map groupItems (groupsOf gap markers changes stamped)) = stamped.
Proof.
  destruct stamped as [|first rest]; [reflexivity|].
  unfold groupsOf. by rewrite groupsFrom_items.
Qed.

Lemma length_messageDates (messages : list Message.t) :
  ∀ reads, length (messageDates reads messages) = length messages.
Proof.
  induction messages as [|message rest IH]; intros reads; [reflexivity|].
  cbn [messageDates length]. by rewrite IH.
Qed.

Lemma map_snd_snapshots (firstArray : ref) (gs : list Group) :
  map snd (imap (snapshotOfGroup firstArray) gs) = map groupMessages gs.
Proof.
  apply list_eq. intros k.
  rewrite !list_lookup_fmap, list_lookup_imap.
  by destruct (gs !! k).
Qed.

Lemma concat_groupMessages (gs : list Group) :
  concat (map groupMessages gs) = map fst (concat (map groupItems gs)).
Proof.
  induction gs as [|g gs IH]; [reflexivity|].
  cbn [map concat]. by rewrite map_app, IH.
Qed.

Lemma detectedGroups_messages (messages : list Message.t)
    (options : DetectOptions) (w : World) :
  concat (map groupMessages (detectedGroups messages options w)) = messages.
Proof.
  unfold detectedGroups. rewrite concat_groupMessages, groupsOf_items.
  apply fst_zip. by rewrite length_messageDates.
Qed.

(** C1. The sections [detectSections] returns, their [messages] arrays
    read in the order of the result and put end to end, are the input
    list: every message once, in its place. *)
Theorem detectSections_partition (messages : list Message.t)
    (options : DetectOptions) (w : World) :
  ∃ (refs : list ref) (w' : World) (snapshots : list Snapshot),
    detectSections messages options w = Some (refs, w')
    ∧ sectionsAt w' refs = Some snapshots
    ∧ concat (map snd snapshots) = messages.
Proof.
  destruct (detectSections_snapshots messages options w) as (refs & w' & Hrun & Hat).
  exists refs, w', (imap (snapshotOfGroup (length (arrays w)))
                      (detectedGroups messages options w)).
  split; [exact Hrun|]. split; [exact Hat|].
  rewrite map_snd_snapshots. apply detectedGroups_messages.
Qed.

(** ** Where a message lies in the sections *)

Lemma concat_lookup_Some {A} (ls : list (list A)) :
  ∀ (i : nat) (x : A),
    concat ls !! i = Some x →
    ∃ (k : nat) (l : list A) (j : nat),
      ls !! k = Some l ∧ l !! j = Some x
      ∧ length (concat (take k ls)) + j = i.
Proof.
  induction ls as [|l ls IH]; intros i x Hx; [done|].
  cbn [concat] in Hx. apply lookup_app_Some in Hx as [Hx|[Hle Hx]].
  - exists 0, l, i. by split_and!.
  - destruct (IH _ _ Hx) as (k & l' & j & Hk & Hj & Hlen).
    exists (S k), l', j. split_and!; [done|done|].
    cbn [take concat]. rewrite length_app. lia.
Qed.

Lemma groupItems_last (g : Group) :
  ∃ before, groupItems g = before ++ [groupLast g].
Proof.
  unfold groupItems, groupLast. destruct g as [first others]. cbn [fst snd].
  destruct others as [|other others]; [by exists []|].
  exists (first :: removelast (other :: others)).
  rewrite <- app_comm_cons. f_equal. by apply app_removelast_last.
Qed.

Lemma messageDates_lookup (messages : list Message.t) :
  ∀ (reads i : nat) (message : Message.t),
    messages !! i = Some message →
    messageDates reads messages !! i
    = Some (dateOf (reads + clockReadsOf (take i messages)) message).
Proof.
  induction messages as [|first rest IH]; intros reads i message Hi; [done|].
  destruct i as [|i]; cbn [messageDates take clockReadsOf].
  - injection Hi as ->. cbn. by rewrite Nat.add_0_r.
  - cbn in Hi |- *. rewrite (IH _ _ _ Hi). by rewrite Nat.add_assoc.
Qed.

Lemma offsetOf_snapshots (firstArray : ref) (gs : list Group) (k : nat) :
  offsetOf (imap (snapshotOfGroup firstArray) gs) k
  = length (concat (map groupItems (take k gs))).
Proof.
  unfold offsetOf.
  rewrite <- firstn_map, map_snd_snapshots, firstn_map.
  by rewrite concat_groupMessages, length_map.
Qed.

(** C9. The [k]-th section returned has the stored id [k], counted from
    0, and when no title is extracted from its first message its title is
    "Section" followed by [k + 1], the counter once incremented. There is
    such a section as soon as there is a message: the first message of the
    input opens the first section returned, whose id is 0 and whose title,
    when none is extracted from that message, is "Section 1". *)
Theorem detectSections_id_title (messages : list Message.t)
    (options : DetectOptions) (w : World) :
  ∃ (refs : list ref) (w' : World) (snapshots : list Snapshot),
    detectSections messages options w = Some (refs, w')
    ∧ sectionsAt w' refs = Some snapshots
    ∧ (∀ (k : nat) (s : ConversationSection.t) (held : list Message.t),
         snapshots !! k = Some (s, held) →
         ConversationSection.id s = k
         ∧ ∃ first others,
             held = first :: others
             ∧ ConversationSection.title s
               = if truthy (extractTitle (Message.content first))
                 then default "" (extractTitle (Message.content first))
                 else "Section " +:+ pretty (k + 1))
    ∧ (∀ (first : Message.t) (rest : list Message.t),
         messages = first :: rest →
         ∃ (s : ConversationSection.t) (others : list Message.t)
           (more : list Snapshot),
           snapshots = (s, first :: others) :: more
           ∧ ConversationSection.id s = 0
           ∧ (truthy (extractTitle (Message.content first)) = false →
              ConversationSection.title s = "Section 1")).
Proof.
  destruct (detectSections_snapshots messages options w) as (refs & w' & Hrun & Hat).
  eexists refs, w', _. split; [exact Hrun|]. split; [exact Hat|]. split.
  - intros k s held Hk.
    apply list_lookup_imap_Some in Hk as (g & Hg & Heq).
    injection Heq as -> ->. split; [reflexivity|].
    exists (fst (fst g)), (map fst (snd g)). split; [reflexivity|].
    unfold sectionOfGroup, titleOrSection. cbn [ConversationSection.title].
    by rewrite Nat.add_1_r.
  - intros first rest ->.
    pose proof (detectedGroups_messages (first :: rest) options w) as Hcat.
    destruct (detectedGroups (first :: rest) options w) as [|g more]; [done|].
    cbn [map concat] in Hcat. unfold groupMessages at 1, groupItems in Hcat.
    cbn [map app] in Hcat. injection Hcat as Hfirst _.
    exists (sectionOfGroup (length (arrays w)) 0 g), (map fst (snd g)),
      (imap (snapshotOfGroup (length (arrays w)) ∘ S) more).
    split; [|split].
    + cbn [imap]. unfold snapshotOfGroup at 1, groupMessages, groupItems.
      cbn [map]. by rewrite Hfirst.
    + reflexivity.
    + intros Hnone. unfold sectionOfGroup, titleOrSection.
      cbn [ConversationSection.title]. by rewrite Hfirst, Hnone.
Qed.

(** C10. A message whose timestamp is falsy gets the reading of the wall
    clock made when the loop reaches it: that reading is the start time of
    its section when the message opens the section, and its end time when
    the message is the last of the section. *)
Theorem detectSections_falsy_timestamp (messages : list Message.t)
    (options : DetectOptions) (w : World) (i : nat) (message : Message.t) :
  messages !! i = Some message →
  timestampTruthy (Message.timestamp message) = false →
  ∃ (refs : list ref) (w' : World) (snapshots : list Snapshot)
    (k : nat) (s : ConversationSection.t) (held : list Message.t) (j : nat),
    detectSections messages options w = Some (refs, w')
    ∧ sectionsAt w' refs = Some snapshots
    ∧ snapshots !! k = Some (s, held)
    ∧ offsetOf snapshots k + j = i
    ∧ held !! j = Some message
    ∧ let now :=
        newDate (TsNumber (Date_now (clockReads w + clockReadsOf (take i messages)))) in
      (j = 0 → ConversationSection.startTime s = now)
      ∧ (S j = length held → ConversationSection.endTime s = now).
Proof.
  intros Hi Hfalsy.
  destruct (detectSections_snapshots messages options w) as (refs & w' & Hrun & Hat).
  set (gs := detectedGroups messages options w) in *.
  assert (concat (map groupItems gs) !! i
          = Some (message,
                  newDate (TsNumber (Date_now (clockReads w
                                               + clockReadsOf (take i messages))))))
    as Hitem.
  { unfold gs, detectedGroups. rewrite groupsOf_items.
    apply lookup_zip_Some. split; [exact Hi|].
    rewrite (messageDates_lookup _ _ _ _ Hi). unfold dateOf.
    by rewrite Hfalsy. }
  apply concat_lookup_Some in Hitem as (k & items & j & Hk & Hj & Hlen).
  apply list_lookup_fmap_Some in Hk as (g & -> & Hg).
  exists refs, w', (imap (snapshotOfGroup (length (arrays w))) gs),
    k, (sectionOfGroup (length (arrays w)) k g), (groupMessages g), j.
  split; [exact Hrun|]. split; [exact Hat|].
  split; [by rewrite list_lookup_imap, Hg|].
  split.
  { rewrite offsetOf_snapshots, <- firstn_map. exact Hlen. }
  split.
  { unfold groupMessages. change (map fst (groupItems g)) with (fst <$> groupItems g).
    by rewrite list_lookup_fmap, Hj. }
  cbn zeta. unfold sectionOfGroup.
  cbn [ConversationSection.startTime ConversationSection.endTime]. split.
  - intros ->. unfold groupItems in Hj. cbn in Hj. injection Hj as Hfirst.
    by rewrite Hfirst.
  - intros Hlast. unfold groupMessages in Hlast. rewrite length_map in Hlast.
    destruct (groupItems_last g) as (before & Hsplit).
    rewrite Hsplit in Hj, Hlast. rewrite length_app in Hlast. cbn in Hlast.
    rewrite lookup_app_r in Hj by lia.
    replace (j - length before) with 0 in Hj by lia.
    cbn in Hj. injection Hj as Hg'. by rewrite Hg'.
Qed.

(** ** Where the sections begin *)

Section Boundaries.

Variable gap : Q.
Variable markers : list string.
Variable changes : bool.

(** The groups closed so far stay, and the open group only grows. *)
Lemma groupsFrom_shape (rest : list Stamped) :
  ∀ (closed : list Group) (current : Group),
    ∃ (tail : list Stamped) (more : list Group),
      groupsFrom gap markers changes closed current rest
      = closed ++ (fst current, snd current ++ tail) :: more.
Proof.
  induction rest as [|next rest IH]; intros closed current; cbn [groupsFrom].
  - exists [], []. rewrite app_nil_r. by destruct current.
  - destruct (startsSection _ _ _ _ _).
    + destruct (IH (closed ++ [current]) (next, [])) as (tail & more & ->).
      exists [], ((next, tail) :: more).
      rewrite app_nil_r, <- app_assoc. by destruct current.
    + destruct (IH closed (fst current, snd current ++ [next]))
        as (tail & more & ->).
      exists (next :: tail), more. cbn [fst snd]. by rewrite <- app_assoc.
Qed.

(** For two neighbours [prev] and [next] of the input, [next] the [j]-th
    message still to come: when a trigger fires between them a group
    begins with [next], and otherwise one group holds both, side by side. *)
Lemma groupsFrom_neighbours (rest : list Stamped) :
  ∀ (closed : list Group) (current : Group) (j : nat) (prev next : Stamped),
    (groupLast current :: rest) !! j = Some prev →
    rest !! j = Some next →
    let gs := groupsFrom gap markers changes closed current rest in
    let position :=
      length (concat (map groupItems closed)) + length (groupItems current) + j in
    if startsSection gap markers changes prev next
    then ∃ k others,
           gs !! k = Some (next, others)
           ∧ length (concat (map groupItems (take k gs))) = position
    else ∃ k g before after,
           gs !! k = Some g
           ∧ groupItems g = before ++ prev :: next :: after
           ∧ length (concat (map groupItems (take k gs))) + length before + 1
             = position.
Proof.
  induction rest as [|x rest IH]; intros closed current j prev next Hprev Hnext;
    [done|].
  destruct j as [|j].
  - cbn in Hprev, Hnext. injection Hprev as <-. injection Hnext as <-.
    cbn zeta. cbn [groupsFrom]. rewrite Nat.add_0_r.
    destruct (startsSection gap markers changes (groupLast current) x).
    + destruct (groupsFrom_shape rest (closed ++ [current]) (x, []))
        as (tail & more & ->).
      exists (S (length closed)), tail. cbn [fst snd app]. split.
      * rewrite <- app_assoc. cbn [app].
        rewrite lookup_app_r by lia.
        by replace (S (length closed) - length closed) with 1 by lia.
      * rewrite take_app_length'
          by (rewrite length_app; cbn [length]; lia).
        rewrite map_app, concat_app, length_app. cbn [map concat].
        by rewrite app_nil_r.
    + destruct (groupsFrom_shape rest closed (fst current, snd current ++ [x]))
        as (tail & more & ->).
      destruct (groupItems_last current) as (before & Hsplit).
      exists (length closed), (fst current, (snd current ++ [x]) ++ tail),
        before, tail.
      cbn [fst snd]. split_and!.
      * by rewrite list_lookup_middle.
      * unfold groupItems in *. cbn [fst snd] in *.
        rewrite <- app_assoc, app_comm_cons, Hsplit, <- app_assoc. reflexivity.
      * rewrite take_app_length. rewrite Hsplit, length_app. cbn [length]. lia.
  - cbn [lookup list_lookup] in Hprev, Hnext.
    cbn zeta. cbn [groupsFrom].
    destruct (startsSection gap markers changes (groupLast current) x).
    + pose proof (IH (closed ++ [current]) (x, []) j prev next Hprev Hnext) as H.
      cbn zeta in H.
      replace (length (concat (map groupItems (closed ++ [current])))
               + length (groupItems (x, [])) + j)
        with (length (concat (map groupItems closed))
              + length (groupItems current) + S j) in H; [exact H|].
      rewrite map_app, concat_app, length_app. cbn [map concat].
      rewrite app_nil_r. unfold groupItems. cbn [fst snd length]. lia.
    + pose proof (IH closed (fst current, snd current ++ [x]) j prev next) as H.
      rewrite groupLast_extend in H. specialize (H Hprev Hnext).
      cbn zeta in H.
      replace (length (concat (map groupItems closed))
               + length (groupItems (fst current, snd current ++ [x])) + j)
        with (length (concat (map groupItems closed))
              + length (groupItems current) + S j) in H; [exact H|].
      unfold groupItems. cbn [fst snd length]. rewrite length_app.
      cbn [length]. lia.
Qed.

Lemma groupsOf_neighbours (stamped : list Stamped) (i : nat) (prev next : Stamped) :
  stamped !! i = Some prev →
  stamped !! S i = Some next →
  let gs := groupsOf gap markers changes stamped in
  if startsSection gap markers changes prev next
  then ∃ k others,
         gs !! k = Some (next, others)
         ∧ length (concat (map groupItems (take k gs))) = S i
  else ∃ k g before after,
         gs !! k = Some g
         ∧ groupItems g = before ++ prev :: next :: after
         ∧ length (concat (map groupItems (take k gs))) + length before = i.
Proof.
  intros Hprev Hnext. destruct stamped as [|first rest]; [done|].
  pose proof (groupsFrom_neighbours rest [] (first, []) i prev next Hprev Hnext)
    as H.
  cbn zeta in H |- *. cbn [groupsOf].
  destruct (startsSection gap markers changes prev next).
  - destruct H as (k & others & Hk & Hlen). exists k, others.
    split; [exact Hk|]. rewrite Hlen. reflexivity.
  - destruct H as (k & g & before & after & Hk & Hg & Hlen).
    exists k, g, before, after. split_and!; [exact Hk|exact Hg|].
    cbn in Hlen. lia.
Qed.

End Boundaries.

(** ** The time gap

    The rounding of the difference and of the quotient of [isTimedOut]. *)

Lemma roundHalfEven_integer (x : Q) (n : Z) :
  x == inject_Z n → Number.roundHalfEven x = n.
Proof.
  intros Hx. unfold Number.roundHalfEven.
  rewrite (Qfloor_comp _ _ Hx), Qfloor_Z.
  assert ((x - inject_Z n ?= 1 # 2)%Q = Lt) as ->; [|done].
  apply Qlt_alt. rewrite Hx.
  assert (inject_Z n - inject_Z n == 0) as -> by ring. reflexivity.
Qed.

(** An integer of at most 53 bits is a Number. *)
Lemma nearest_integer (z : Z) :
  (Z.abs z <= 2 ^ 53)%Z → Number.nearest (inject_Z z) = inject_Z z.
Proof.
  intros Hz. destruct (Z.eq_dec z 0%Z) as [->|Hne]; [reflexivity|].
  assert (Z.abs z = 2 ^ 53 ∨ Z.abs z < 2 ^ 53)%Z as [Hmax|Hlt] by lia.
  { assert (z = 2 ^ 53 ∨ z = - 2 ^ 53)%Z as [->| ->] by lia; by vm_compute. }
  unfold Number.nearest.
  assert (Qeq_bool (inject_Z z) 0 = false) as ->.
  { apply not_true_is_false. intros Heq%Qeq_bool_eq.
    unfold Qeq in Heq. cbn in Heq. lia. }
  change (Qabs (inject_Z z)) with (inject_Z (Z.abs z)).
  set (e := Z.log2 (Z.abs z)).
  assert (0 < Z.abs z)%Z as Hpos by lia.
  pose proof (Z.log2_spec _ Hpos) as [Hlow Hhigh]. fold e in Hlow, Hhigh.
  assert (0 <= e)%Z as He0 by apply Z.log2_nonneg.
  assert (e < 53)%Z as He.
  { apply (Z.pow_lt_mono_r_iff 2); lia. }
  assert (Number.exponent (inject_Z (Z.abs z)) = e) as ->.
  { unfold Number.exponent. cbn [Qnum Qden inject_Z].
    change (Z.log2 1) with 0%Z. rewrite Z.sub_0_r. fold e.
    assert (Qle_bool (2 ^ e) (inject_Z (Z.abs z)) = true) as ->; [|done].
    apply Qle_bool_iff. change 2%Q with (inject_Z 2).
    rewrite <- Zpower_Qpower by done. by rewrite <- Zle_Qle. }
  rewrite Z.max_l by lia.
  set (k := (52 - e)%Z).
  assert ((2 ^ (e - 52))%Q == / inject_Z (2 ^ k)) as Hulp.
  { replace (e - 52)%Z with (- k)%Z by lia.
    rewrite Qpower_opp. change 2%Q with (inject_Z 2).
    by rewrite <- Zpower_Qpower by lia. }
  assert (¬ inject_Z (2 ^ k) == 0) as Hnz.
  { unfold Qeq. cbn. assert (0 < 2 ^ k)%Z by (apply Z.pow_pos_nonneg; lia). lia. }
  rewrite (roundHalfEven_integer _ (Z.abs z * 2 ^ k)).
  2: { rewrite Hulp, inject_Z_mult. by field. }
  destruct (Qle_bool 0 (inject_Z z)) eqn:Hsign;
    rewrite <- (inject_Z_Qred z); apply Qred_complete.
  - apply Qle_bool_iff in Hsign. change 0%Q with (inject_Z 0) in Hsign.
    rewrite <- Zle_Qle in Hsign.
    rewrite Hulp, inject_Z_mult, Z.abs_eq by done. by field.
  - assert (z < 0)%Z as Hneg.
    { destruct (Z.lt_ge_cases z 0%Z) as [?|Hge]; [done|].
      rewrite Zle_Qle in Hge. apply Qle_bool_iff in Hge.
      change (inject_Z 0) with 0%Q in Hge. congruence. }
    rewrite Hulp, inject_Z_mult, Z.abs_neq, inject_Z_opp by lia. by field.
Qed.

Lemma roundHalfEven_comp (x y : Q) :
  x == y → Number.roundHalfEven x = Number.roundHalfEven y.
Proof.
  intros Hxy. unfold Number.roundHalfEven.
  rewrite (Qfloor_comp _ _ Hxy).
  assert ((x - inject_Z (Qfloor y) ?= 1 # 2) = (y - inject_Z (Qfloor y) ?= 1 # 2))%Q
    as ->; [|done].
  by rewrite Hxy.
Qed.

Lemma roundHalfEven_floor (x : Q) :
  (Qfloor x <= Number.roundHalfEven x <= Qfloor x + 1)%Z.
Proof.
  unfold Number.roundHalfEven.
  destruct (_ ?= _)%Q; [destruct (Z.even _)|..]; lia.
Qed.

Lemma roundHalfEven_le (x : Q) (n : Z) :
  (x <= inject_Z n)%Q → (Number.roundHalfEven x <= n)%Z.
Proof.
  intros Hx. pose proof (Qfloor_resp_le _ _ Hx) as Hf. rewrite Qfloor_Z in Hf.
  destruct (Z.eq_dec (Qfloor x) n) as [Heq|Hne].
  - unfold Number.roundHalfEven. rewrite Heq.
    assert ((x - inject_Z n ?= 1 # 2)%Q = Lt) as ->; [|lia].
    apply (proj1 (Qlt_alt _ _)). lra.
  - pose proof (roundHalfEven_floor x). lia.
Qed.

Lemma roundHalfEven_gt (x : Q) (n : Z) :
  (inject_Z n + (1 # 2) < x)%Q → (n < Number.roundHalfEven x)%Z.
Proof.
  intros Hx.
  assert (n <= Qfloor x)%Z as Hf.
  { rewrite <- (Qfloor_Z n). apply Qfloor_resp_le. lra. }
  destruct (Z.eq_dec (Qfloor x) n) as [Heq|Hne].
  - unfold Number.roundHalfEven. rewrite Heq.
    assert ((x - inject_Z n ?= 1 # 2)%Q = Gt) as ->; [|lia].
    apply (proj1 (Qgt_alt _ _)). lra.
  - pose proof (roundHalfEven_floor x). lia.
Qed.

Lemma Qdiv_le_pos (a c : Z) (b d : positive) :
  (a * Zpos d <= c * Zpos b)%Z →
  (inject_Z a / inject_Z (Zpos b) <= inject_Z c / inject_Z (Zpos d))%Q.
Proof.
  intros H. unfold Qle, Qdiv, Qmult, Qinv. cbn. rewrite !Z.mul_1_r. lia.
Qed.

Lemma Qdiv_lt_pos (a c : Z) (b d : positive) :
  (a * Zpos d < c * Zpos b)%Z →
  (inject_Z a / inject_Z (Zpos b) < inject_Z c / inject_Z (Zpos d))%Q.
Proof.
  intros H. unfold Qlt, Qdiv, Qmult, Qinv. cbn. rewrite !Z.mul_1_r. lia.
Qed.

Lemma Qpower_2_sub (p q : Z) :
  (0 <= p)%Z → (0 <= q)%Z →
  (2 ^ (p - q) == inject_Z (2 ^ p) / inject_Z (2 ^ q))%Q.
Proof.
  intros Hp Hq. rewrite Qpower_minus by done.
  change 2%Q with (inject_Z 2). by rewrite <- !Zpower_Qpower.
Qed.

(** [exponent a] is the exponent of [a]. *)
Lemma exponent_spec (a : Q) :
  (0 < a)%Q →
  (2 ^ Number.exponent a <= a)%Q ∧ (a < 2 ^ (Number.exponent a + 1))%Q.
Proof.
  intros Ha. unfold Number.exponent.
  destruct a as [n dn]. cbn [Qnum Qden].
  assert (0 < n)%Z as Hn. { unfold Qlt in Ha. cbn in Ha. lia. }
  set (p := Z.log2 n). set (q := Z.log2 (Z.pos dn)).
  pose proof (Z.log2_spec n Hn) as [Hn1 Hn2]. fold p in Hn1, Hn2.
  pose proof (Z.log2_spec (Z.pos dn) eq_refl) as [Hd1 Hd2]. fold q in Hd1, Hd2.
  assert (0 <= p)%Z as Hp by apply Z.log2_nonneg.
  assert (0 <= q)%Z as Hq by apply Z.log2_nonneg.
  assert (0 < 2 ^ p)%Z as Hpp by (apply Z.pow_pos_nonneg; lia).
  assert (0 < 2 ^ q)%Z as Hqq by (apply Z.pow_pos_nonneg; lia).
  assert (n # dn == inject_Z n / inject_Z (Z.pos dn)) as Hfrac by apply Qmake_Qdiv.
  destruct (Qle_bool (2 ^ (p - q)) (n # dn)) eqn:Htest.
  - apply Qle_bool_iff in Htest. split; [exact Htest|].
    replace (p - q + 1)%Z with (Z.succ p - q)%Z by lia.
    rewrite Qpower_2_sub, Hfrac by lia.
    rewrite <- (Z2Pos.id (2 ^ q)) by done.
    apply Qdiv_lt_pos. rewrite Z2Pos.id by done. nia.
  - assert (n # dn < 2 ^ (p - q))%Q as Hlt.
    { apply Qnot_le_lt. intros H%Qle_bool_iff. congruence. }
    replace (p - q - 1 + 1)%Z with (p - q)%Z by lia.
    split; [|exact Hlt].
    replace (p - q - 1)%Z with (p - Z.succ q)%Z by lia.
    rewrite Qpower_2_sub, Hfrac by lia.
    assert (0 < 2 ^ Z.succ q)%Z as Hsq by (apply Z.pow_pos_nonneg; lia).
    rewrite <- (Z2Pos.id (2 ^ Z.succ q)) by done.
    apply Qdiv_le_pos. rewrite Z2Pos.id by done. nia.
Qed.

(** The Number nearest to a positive rational. *)
Lemma nearest_positive (q : Q) :
  (0 < q)%Q →
  let ulp := (2 ^ Z.max (Number.exponent (Qabs q) - 52) (-1074))%Q in
  (2 ^ Number.exponent (Qabs q) <= q)%Q
  ∧ (q < 2 ^ (Number.exponent (Qabs q) + 1))%Q
  ∧ Number.nearest q == inject_Z (Number.roundHalfEven (q / ulp)) * ulp.
Proof.
  intros Hq ulp.
  assert (Qabs q == q) as Habs by (apply Qabs_pos; lra).
  assert (0 < Qabs q)%Q as Hpos by lra.
  destruct (exponent_spec _ Hpos) as [Hlow Hhigh].
  split; [lra|]. split; [lra|].
  unfold Number.nearest.
  assert (Qeq_bool q 0 = false) as ->.
  { apply not_true_is_false. intros Heq%Qeq_bool_eq. lra. }
  assert (Qle_bool 0 q = true) as ->.
  { apply Qle_bool_iff. lra. }
  rewrite Qred_correct. fold ulp.
  rewrite (roundHalfEven_comp (Qabs q / ulp) (q / ulp)); [done|].
  by rewrite Habs.
Qed.

(** The Number nearest to a rational that is not positive is not
    positive. *)
Lemma nearest_nonpositive (q : Q) : (q <= 0)%Q → (Number.nearest q <= 0)%Q.
Proof.
  intros Hq. unfold Number.nearest.
  destruct (Qeq_bool q 0) eqn:Hzero; [done|].
  assert (q < 0)%Q as Hneg.
  { apply Qle_lteq in Hq as [?|Heq]; [done|].
    apply Qeq_bool_iff in Heq. congruence. }
  assert (Qle_bool 0 q = false) as ->.
  { apply not_true_is_false. intros H%Qle_bool_iff. lra. }
  rewrite Qred_correct.
  set (ulp := (2 ^ _)%Q).
  assert (0 < ulp)%Q as Hulp by (by apply Qpower_0_lt).
  assert (0 <= Qabs q / ulp)%Q as Hquot.
  { apply Qle_shift_div_l; [done|]. pose proof (Qabs_nonneg q). lra. }
  assert (0 <= Number.roundHalfEven (Qabs q / ulp))%Z as Hm.
  { pose proof (roundHalfEven_floor (Qabs q / ulp)).
    pose proof (Qfloor_resp_le _ _ Hquot) as Hf.
    change (Qfloor 0) with 0%Z in Hf. lia. }
  rewrite Zle_Qle in Hm. change (inject_Z 0) with 0%Q in Hm.
  assert (0 <= inject_Z (Number.roundHalfEven (Qabs q / ulp)) * ulp)%Q; [|lra].
  apply Qmult_le_0_compat; lra.
Qed.

Lemma Qpower_2_opp (k : Z) :
  (0 <= k)%Z → (2 ^ (- k) == / inject_Z (2 ^ k))%Q.
Proof.
  intros Hk. rewrite Qpower_opp. change 2%Q with (inject_Z 2).
  by rewrite <- Zpower_Qpower.
Qed.

(** The minutes between two dates at most 53 bits apart, as the quotient
    of the milliseconds rounds them, exceed a whole number of minutes
    exactly when the milliseconds exceed as many minutes. *)
Lemma minutes_whole (d g : Z) :
  (Z.abs d <= 2 ^ 53)%Z → (0 <= g)%Z →
  (inject_Z g < Number.nearest (inject_Z d / (1000 * 60)))%Q
  ↔ (g * 60000 < d)%Z.
Proof.
  intros Hd Hg.
  set (x := (inject_Z d / (1000 * 60))%Q).
  assert (x == d # 60000) as Hx.
  { rewrite Qmake_Qdiv. reflexivity. }
  assert (0 <= inject_Z g)%Q as Hg'.
  { change 0%Q with (inject_Z 0). by rewrite <- Zle_Qle. }
  destruct (Z.le_gt_cases d 0) as [Hneg|Hpos].
  { assert (x <= 0)%Q as Hx0. { rewrite Hx. unfold Qle. cbn [Qnum Qden]. lia. }
    pose proof (nearest_nonpositive x Hx0). split; [lra|lia]. }
  assert (0 < x)%Q as Hx0. { rewrite Hx. unfold Qlt. cbn [Qnum Qden]. lia. }
  destruct (nearest_positive x Hx0) as (Hlow & Hhigh & Hn). cbn zeta in Hn.
  set (e := Number.exponent (Qabs x)) in *. clearbody e.
  assert (e < 38)%Z as He1.
  { apply (Qpower_lt_compat_l_inv 2); [|done].
    eapply Qle_lt_trans; [exact Hlow|]. rewrite Hx.
    assert ((2 ^ 38)%Q = inject_Z (2 ^ 38)) as -> by (by vm_compute).
    unfold Qlt. cbn [Qnum Qden inject_Z]. lia. }
  assert (-17 < e)%Z as He2.
  { assert (-16 < e + 1)%Z; [|lia].
    apply (Qpower_lt_compat_l_inv 2); [|done].
    eapply Qlt_trans; [|exact Hhigh]. rewrite Hx.
    assert ((2 ^ (-16))%Q = 1 # 65536) as -> by (by vm_compute).
    unfold Qlt. cbn [Qnum Qden inject_Z]. lia. }
  rewrite Z.max_l in Hn by lia.
  set (k := (52 - e)%Z).
  assert ((2 ^ (e - 52))%Q == / inject_Z (2 ^ k)) as Hulp.
  { replace (e - 52)%Z with (- k)%Z by lia. apply Qpower_2_opp. lia. }
  assert (2 ^ 15 <= 2 ^ k)%Z as Hk by (apply Z.pow_le_mono_r; lia).
  set (P := (2 ^ k)%Z) in *. clearbody P.
  assert (32768 <= inject_Z P)%Q as HP.
  { change 32768%Q with (inject_Z (2 ^ 15)). by rewrite <- Zle_Qle. }
  assert (x / 2 ^ (e - 52) == inject_Z d * inject_Z P * (1 # 60000))%Q as Hy.
  { rewrite Hulp. unfold x. field. lra. }
  set (m := Number.roundHalfEven (x / 2 ^ (e - 52))) in *.
  assert ((inject_Z g < Number.nearest x)%Q ↔ (g * P < m)%Z) as ->.
  { rewrite Hn, Hulp, Zlt_Qlt, inject_Z_mult.
    rewrite <- (Qmult_lt_r (inject_Z g) _ (inject_Z P)) by lra.
    assert (inject_Z m * / inject_Z P * inject_Z P == inject_Z m) as ->; [|done].
    field. lra. }
  split.
  - intros Hlt. destruct (Z.lt_ge_cases (g * 60000) d) as [|Hle]; [done|].
    assert (m <= g * P)%Z; [|lia].
    apply roundHalfEven_le. rewrite Hy, inject_Z_mult.
    rewrite Zle_Qle, inject_Z_mult in Hle.
    change (inject_Z 60000) with 60000%Q in Hle.
    assert (0 <= (inject_Z g * 60000 - inject_Z d) * inject_Z P)%Q
      by (apply Qmult_le_0_compat; lra).
    lra.
  - intros Hlt. apply roundHalfEven_gt. rewrite Hy, inject_Z_mult.
    assert (g * 60000 + 1 <= d)%Z as Hle by lia.
    rewrite Zle_Qle, inject_Z_plus, inject_Z_mult in Hle.
    change (inject_Z 60000) with 60000%Q in Hle.
    change (inject_Z 1) with 1%Q in Hle.
    assert (0 <= (inject_Z d - inject_Z g * 60000 - 1) * inject_Z P)%Q
      by (apply Qmult_le_0_compat; lra).
    lra.
Qed.

Lemma roundHalfEven_mono (x y : Q) :
  (x <= y)%Q → (Number.roundHalfEven x <= Number.roundHalfEven y)%Z.
Proof.
  intros Hxy. pose proof (Qfloor_resp_le _ _ Hxy) as Hf.
  destruct (Z.eq_dec (Qfloor x) (Qfloor y)) as [Heq|Hne].
  - unfold Number.roundHalfEven. rewrite Heq.
    destruct (Qcompare_spec (x - inject_Z (Qfloor y)) (1 # 2));
      destruct (Qcompare_spec (y - inject_Z (Qfloor y)) (1 # 2));
      try (destruct (Z.even (Qfloor y))); try lia; lra.
  - pose proof (roundHalfEven_floor x). pose proof (roundHalfEven_floor y). lia.
Qed.

Lemma Qpower_2_pos (z : Z) : (0 < 2 ^ z)%Q.
Proof. by apply Qpower_0_lt. Qed.

Lemma Qpower_2_nat (z : Z) :
  (0 <= z)%Z → (2 ^ z == inject_Z (2 ^ z))%Q.
Proof.
  intros Hz. change 2%Q with (inject_Z 2). by rewrite <- Zpower_Qpower.
Qed.

(** Rounding to a Number does not pass a Number that is not negative. *)
Lemma nearest_le_number (x g : Q) :
  (x <= g)%Q → (0 <= g)%Q → Number.nearest g == g → (Number.nearest x <= g)%Q.
Proof.
  intros Hxg Hg Hnumber.
  destruct (Qlt_le_dec 0 x) as [Hx|Hx].
  2: { pose proof (nearest_nonpositive x Hx). lra. }
  assert (0 < g)%Q as Hg0 by lra.
  destruct (nearest_positive x Hx) as (Hx1 & Hx2 & Hnx).
  destruct (nearest_positive g Hg0) as (Hg1 & Hg2 & Hng).
  cbn zeta in Hnx, Hng. rewrite Hnumber in Hng.
  set (ex := Number.exponent (Qabs x)) in *.
  set (eg := Number.exponent (Qabs g)) in *. clearbody ex eg.
  assert (ex <= eg)%Z as Hexp.
  { assert (ex < eg + 1)%Z; [|lia].
    apply (Qpower_lt_compat_l_inv 2); [|done]. lra. }
  set (a := Z.max (ex - 52) (-1074)) in *.
  set (b := Z.max (eg - 52) (-1074)) in *.
  pose proof (Qpower_2_pos a) as Ha. pose proof (Qpower_2_pos b) as Hb.
  rewrite Hnx.
  destruct (Z.eq_dec a b) as [Hab|Hab].
  - apply Qle_trans
      with (inject_Z (Number.roundHalfEven (g / 2 ^ b)) * 2 ^ b)%Q;
      [|rewrite <- Hng; apply Qle_refl].
    rewrite Hab. apply Qmult_le_compat_r; [|lra].
    rewrite <- Zle_Qle. apply roundHalfEven_mono.
    apply Qmult_le_compat_r; [exact Hxg|].
    apply Qlt_le_weak, Qinv_lt_0_compat, Hb.
  - assert (a < b)%Z as Hlt by lia.
    assert (b = eg - 52)%Z as Hb' by lia.
    set (c := Z.max (ex + 1) a).
    assert (c <= eg)%Z as Hc by lia.
    assert (0 <= c - a)%Z as Hca by lia.
    assert (2 ^ c == inject_Z (2 ^ (c - a)) * 2 ^ a)%Q as Hpow.
    { rewrite <- Qpower_2_nat by done. rewrite <- Qpower_plus by done.
      by replace (c - a + a)%Z with c by lia. }
    apply Qle_trans with (2 ^ c)%Q.
    + rewrite Hpow. apply Qmult_le_compat_r; [|lra].
      rewrite <- Zle_Qle. apply roundHalfEven_le.
      apply Qle_shift_div_r; [exact Ha|]. rewrite <- Hpow.
      apply Qle_trans with (2 ^ (ex + 1))%Q; [lra|].
      apply Qpower_le_compat_l; [lia|done].
    + apply Qle_trans with (2 ^ eg)%Q; [|exact Hg1].
      apply Qpower_le_compat_l; [lia|done].
Qed.

Lemma isTimedOut_valid (t1 t2 : Z) (gap : Q) :
  isTimedOut (Some t1) (Some t2) gap = true
  ↔ (gap < Number.nearest (Number.nearest (inject_Z (t2 - t1)) / (1000 * 60)))%Q.
Proof.
  unfold isTimedOut. cbn zeta. rewrite negb_true_iff. split.
  - intros Hle. apply Qnot_le_lt. intros H%Qle_bool_iff. congruence.
  - intros Hlt. apply not_true_is_false. intros H%Qle_bool_iff.
    by apply (Qlt_not_le _ _ Hlt).
Qed.

(** Against a whole number of minutes the rounding of the quotient is
    without effect. *)
Lemma isTimedOut_whole (l c g : Z) (gap : Q) :
  (Z.abs (c - l) <= 2 ^ 53)%Z → (0 <= g)%Z → gap == inject_Z g →
  isTimedOut (Some l) (Some c) gap = true ↔ (g * 60000 < c - l)%Z.
Proof.
  intros Hbits Hg Hgap.
  rewrite isTimedOut_valid, nearest_integer by done.
  rewrite Hgap. by apply minutes_whole.
Qed.

(** Within the gap, as exact minutes have it, the rounded quotient does
    not exceed a gap that is a Number and not negative. *)
Lemma isTimedOut_within (l c : Z) (gap : Q) :
  (Z.abs (c - l) <= 2 ^ 53)%Z → (0 <= gap)%Q → Number.nearest gap == gap →
  (inject_Z (c - l) / (1000 * 60) <= gap)%Q →
  (Number.nearest (Number.nearest (inject_Z (c - l)) / (1000 * 60)) <= gap)%Q.
Proof.
  intros Hbits Hgap Hnumber Hle. rewrite nearest_integer by done.
  by apply nearest_le_number.
Qed.

(** C7. Of two consecutive messages with valid dates, the minutes apart
    are what the code computes: the milliseconds between them divided by
    60000, the quotient rounded to a Number. When these exceed [timeGap], a
    section begins with the second message; when they do not, and the
    second holds no section marker and brings no topic change, the two lie
    side by side in one section. For dates at most 53 bits apart the
    rounding is of this effect. Against a [timeGap] that is a Number and
    not negative, two messages within the gap, their exact minutes apart
    at most [timeGap], are within it as the code computes. Against a
    [timeGap] that is a whole number of minutes and not negative, as the
    default of 30 is, the rounding is without effect: the minutes apart
    exceed [timeGap] exactly when the milliseconds between the two exceed
    60000 times [timeGap]. *)
Theorem detectSections_time_gap (messages : list Message.t)
    (options : DetectOptions) (w : World) (i : nat) (m1 m2 : Message.t)
    (t1 t2 : Z) :
  messages !! i = Some m1 →
  messages !! S i = Some m2 →
  messageDates (clockReads w) messages !! i = Some (Some t1) →
  messageDates (clockReads w) messages !! S i = Some (Some t2) →
  let gap := default 30%Q (timeGap options) in
  let markers := default defaultSectionMarkers (sectionMarkers options) in
  let minutesApart :=
    Number.nearest (Number.nearest (inject_Z (t2 - t1)) / (1000 * 60)) in
  ∃ (refs : list ref) (w' : World) (snapshots : list Snapshot),
    detectSections messages options w = Some (refs, w')
    ∧ sectionsAt w' refs = Some snapshots
    ∧ ((gap < minutesApart)%Q →
       ∃ k s others,
         snapshots !! k = Some (s, m2 :: others)
         ∧ offsetOf snapshots k = S i)
    ∧ ((minutesApart <= gap)%Q →
       hasSectionMarker (Message.content m2) markers = false →
       hasTopicChange m1 m2 = false →
       ∃ k s before after,
         snapshots !! k = Some (s, before ++ m1 :: m2 :: after)
         ∧ offsetOf snapshots k + length before = i)
    ∧ (Number.nearest gap == gap → (0 <= gap)%Q →
       (Z.abs (t2 - t1) <= 2 ^ 53)%Z →
       (inject_Z (t2 - t1) / (1000 * 60) <= gap)%Q →
       (minutesApart <= gap)%Q)
    ∧ (∀ g : Z,
         gap == inject_Z g → (0 <= g)%Z → (Z.abs (t2 - t1) <= 2 ^ 53)%Z →
         (gap < minutesApart)%Q ↔ (g * 60000 < t2 - t1)%Z).
Proof.
  intros H1 H2 Hd1 Hd2 gap markers minutesApart.
  destruct (detectSections_snapshots messages options w) as (refs & w' & Hrun & Hat).
  eexists refs, w', _. split; [exact Hrun|]. split; [exact Hat|].
  pose proof (groupsOf_neighbours gap markers
                (default true (detectTopicChanges options))
                (zip messages (messageDates (clockReads w) messages))
                i (m1, Some t1) (m2, Some t2)) as Hcut.
  rewrite !lookup_zip_Some in Hcut. specialize (Hcut (conj H1 Hd1) (conj H2 Hd2)).
  cbn zeta in Hcut.
  change (groupsOf gap markers (default true (detectTopicChanges options))
            (zip messages (messageDates (clockReads w) messages)))
    with (detectedGroups messages options w) in Hcut.
  set (gs := detectedGroups messages options w) in *.
  unfold startsSection in Hcut. cbn [fst snd] in Hcut.
  pose proof (isTimedOut_valid t1 t2 gap) as Hvalid.
  fold minutesApart in Hvalid.
  split_and!.
  - intros Hlt. apply Hvalid in Hlt. rewrite Hlt in Hcut. cbn [orb] in Hcut.
    destruct Hcut as (k & others & Hk & Hlen).
    exists k, (sectionOfGroup (length (arrays w)) k ((m2, Some t2), others)),
      (map fst others).
    split; [by rewrite list_lookup_imap, Hk|].
    by rewrite offsetOf_snapshots.
  - intros Hle Hmarker Htopic.
    assert (isTimedOut (Some t1) (Some t2) gap = false) as Htime.
    { apply not_true_is_false. intros Hlt%Hvalid.
      by apply (Qlt_not_le _ _ Hlt). }
    rewrite Htime, Hmarker, Htopic, andb_false_r in Hcut. cbn [orb] in Hcut.
    destruct Hcut as (k & g & before & after & Hk & Hg & Hlen).
    exists k, (sectionOfGroup (length (arrays w)) k g),
      (map fst before), (map fst after).
    split.
    + rewrite list_lookup_imap, Hk. cbn. unfold snapshotOfGroup, groupMessages.
      by rewrite Hg, map_app.
    + by rewrite offsetOf_snapshots, length_map.
  - intros Hnumber Hgap Hbits Hle. by apply isTimedOut_within.
  - intros g Hgap Hg Hbits. rewrite <- Hvalid.
    by apply isTimedOut_whole.
Qed.

(** ** Start and end times *)

Lemma sorted_head_le_last (t0 tl : Z) (times : list Z) :
  StronglySorted Z.le (t0 :: times) → last (t0 :: times) = Some tl →
  (t0 <= tl)%Z.
Proof.
  intros [_ Hall]%StronglySorted_inv Hlast%last_Some_elem_of.
  apply elem_of_cons in Hlast as [->|Hin]; [lia|].
  rewrite Forall_forall in Hall. by apply Hall.
Qed.

Lemma last_groupItems (g : Group) : last (groupItems g) = Some (groupLast g).
Proof. destruct (groupItems_last g) as (before & ->). apply last_snoc. Qed.

(** In a group cut from messages whose dates are valid and never
    decrease, the date of the last message is not before that of the
    first. *)
Lemma group_dates_ordered (gs : list Group) (g : Group) (times : list Z) :
  map snd (concat (map groupItems gs)) = map Some times →
  StronglySorted Z.le times →
  g ∈ gs →
  dateGe (snd (groupLast g)) (snd (fst g)) = true.
Proof.
  intros Hdates Hsorted (before & after & ->)%list_elem_of_split.
  rewrite map_app, concat_app in Hdates. cbn [map concat] in Hdates.
  rewrite !map_app in Hdates. symmetry in Hdates.
  apply fmap_app_inv in Hdates as (tb & tr & _ & Hr & ->).
  symmetry in Hr. apply fmap_app_inv in Hr as (tg & ta & Hg & _ & ->).
  apply StronglySorted_app_1_r, StronglySorted_app_1_l in Hsorted.
  pose proof (f_equal last Hg) as Hlast.
  change (map snd (groupItems g)) with (snd <$> groupItems g) in Hlast.
  rewrite !fmap_last, last_groupItems in Hlast.
  unfold groupItems in Hg. cbn [map] in Hg.
  destruct tg as [|t0 tg]; [done|]. injection Hg as Hfirst _.
  destruct (last (t0 :: tg)) as [tl|] eqn:Htl; [|done].
  injection Hlast as Hlast.
  rewrite Hfirst, Hlast. cbn [dateGe].
  apply Z.leb_le. by eapply sorted_head_le_last.
Qed.

(** C2, as the code has it. When the dates of the messages are valid and
    never decrease along the input, every section returned has an end time
    that is not before its start time. *)
Theorem detectSections_endTime_ordered (messages : list Message.t)
    (options : DetectOptions) (w : World) (times : list Z) :
  messageDates (clockReads w) messages = map Some times →
  Sorted Z.le times →
  ∃ (refs : list ref) (w' : World) (snapshots : list Snapshot),
    detectSections messages options w = Some (refs, w')
    ∧ sectionsAt w' refs = Some snapshots
    ∧ ∀ (s : ConversationSection.t) (held : list Message.t),
        (s, held) ∈ snapshots →
        dateGe (ConversationSection.endTime s) (ConversationSection.startTime s)
        = true.
Proof.
  intros Hdates Hsorted.
  apply (Sorted_StronglySorted _) in Hsorted.
  destruct (detectSections_snapshots messages options w) as (refs & w' & Hrun & Hat).
  eexists refs, w', _. split; [exact Hrun|]. split; [exact Hat|].
  intros s held (k & g & Heq & Hg)%elem_of_lookup_imap_1.
  injection Heq as -> ->.
  unfold sectionOfGroup.
  cbn [ConversationSection.endTime ConversationSection.startTime].
  apply (group_dates_ordered (detectedGroups messages options w) g times).
  - unfold detectedGroups. rewrite groupsOf_items.
    change (map snd (zip messages (messageDates (clockReads w) messages)))
      with ((zip messages (messageDates (clockReads w) messages)).*2).
    rewrite snd_zip by (by rewrite length_messageDates). exact Hdates.
  - exact Hsorted.
  - by eapply list_elem_of_lookup_2.
Qed.

(** ** The raw-text parser *)

Section ParserLoop.

Variable pattern : RegExp.t.
Variable preserve : bool.

Lemma parseLoop_parsedFrom (rest : list string) :
  ∀ (messages : list Message.t) (index : nat) (os : list ConversationSection.t)
    (ars : list (list Message.t)) (k : nat),
    forallb (hasGroup1 pattern) rest = true →
    parseLoop pattern preserve messages index rest (mkWorld os ars k)
    = Some (messages ++ parsedFrom pattern preserve k index rest,
            mkWorld os ars (k + length rest)).
Proof.
  induction rest as [|segment rest IH]; intros messages index os ars k Hgroups.
  - cbn. unfold ret. by rewrite app_nil_r, Nat.add_0_r.
  - cbn [forallb] in Hgroups. apply andb_true_iff in Hgroups as [Hgroup Hgroups].
    cbn [parseLoop parsedFrom length].
    assert (parseSegment pattern preserve messages index segment (mkWorld os ars k)
            = Some (messages ++
                    (if truthy (Some (cleanedContent pattern segment))
                     then [messageOfSegment pattern preserve (Date_now k) index segment]
                     else []),
                    mkWorld os ars (S k))) as Hstep.
    { unfold parseSegment, bind, readClock, hasGroup1, messageOfSegment,
        cleanedContent, authorOf in *.
      cbn [sectionObjs arrays clockReads Message.content].
      destruct (pattern segment) as [m|].
      - destruct (RegExp.group1 m) as [name|]; [|done].
        cbn [default]. unfold ret.
        destruct (truthy _); [reflexivity|by rewrite app_nil_r].
      - unfold ret. destruct (truthy _); [reflexivity|by rewrite app_nil_r]. }
    rewrite (bind_run _ _ _ _ _ Hstep), (IH _ _ _ _ _ Hgroups).
    by rewrite <- app_assoc, Nat.add_succ_r.
Qed.

Lemma parsedFrom_ids (rest : list string) :
  ∀ (reads index : nat),
    map Message.id (parsedFrom pattern preserve reads index rest)
    = map (fun i => Some (Z.of_nat i)) (keptFrom pattern index rest).
Proof.
  induction rest as [|segment rest IH]; intros reads index; [reflexivity|].
  cbn [parsedFrom keptFrom]. rewrite !map_app, IH.
  by destruct (truthy _).
Qed.

Lemma parsedFrom_content (rest : list string) :
  ∀ (reads index : nat),
    Forall (fun message => truthy (Message.content message) = true)
           (parsedFrom pattern preserve reads index rest).
Proof.
  induction rest as [|segment rest IH]; intros reads index; [constructor|].
  cbn [parsedFrom]. apply Forall_app. split; [|apply IH].
  destruct (truthy (Some (cleanedContent pattern segment))) eqn:Hkept;
    [|constructor].
  by repeat constructor.
Qed.

End ParserLoop.

(** C4, as the code has it. A segment whose cleaned content is empty
    yields no message, yet it is counted: the ids of the messages returned
    are, in order, the indices that the segments with a cleaned content
    have among all the segments of the text, the dropped ones included. *)
Theorem parseRawConversation_ids (text : string) (options : ParseOptions)
    (w : World) :
  let pattern := default RegExp.defaultAuthorPattern (authorPattern options) in
  let segments := segmentsOf (default "

" (delimiter options)) text in
  forallb (hasGroup1 pattern) segments = true →
  ∃ (messages : list Message.t) (w' : World),
    parseRawConversation text options w = Some (messages, w')
    ∧ map Message.id messages
      = map (fun i => Some (Z.of_nat i)) (keptFrom pattern 0 segments)
    ∧ Forall (fun message => truthy (Message.content message) = true) messages.
Proof.
  intros pattern segments Hgroups. unfold parseRawConversation.
  destruct (truthy (Some text)) eqn:Htext; cbn [negb].
  - destruct w as [os ars k]. fold pattern. fold segments.
    rewrite (parseLoop_parsedFrom _ _ _ _ _ _ _ _ Hgroups). cbn [app].
    eexists _, _. split; [reflexivity|]. split.
    + apply parsedFrom_ids.
    + apply parsedFrom_content.
  - destruct text as [|c text]; [|done].
    assert (segments = []) as ->.
    { unfold segments, segmentsOf, split.
      by destruct (String.eqb _ ""). }
    exists [], w. by repeat split.
Qed.

(** * Further properties of the helpers *)

(** ** Strings *)

Lemma string_app_cons (c : ascii) (s t : string) :
  String c s +:+ t = String c (s +:+ t).
Proof. reflexivity. Qed.

Lemma string_app_nil_r (s : string) : s +:+ "" = s.
Proof.
  induction s as [|c s IH]; [reflexivity|]. by rewrite string_app_cons, IH.
Qed.

Lemma string_app_assoc (s1 s2 s3 : string) :
  (s1 +:+ s2) +:+ s3 = s1 +:+ (s2 +:+ s3).
Proof.
  induction s1 as [|c s1 IH]; [reflexivity|]. by rewrite !string_app_cons, IH.
Qed.

Lemma prefix_occurs (k s : string) :
  String.prefix k s = true ↔ ∃ after, s = k +:+ after.
Proof.
  revert s. induction k as [|c k IH]; intros s.
  - destruct s; split; eauto.
  - destruct s as [|d s]; cbn [String.prefix]; [split; [done|by intros [? ?]]|].
    destruct (ascii_dec c d) as [<-|Hne].
    + rewrite IH. split; intros [after H]; exists after;
        rewrite ?string_app_cons in *; congruence.
    + split; [done|]. intros [after H]. rewrite string_app_cons in H. congruence.
Qed.

(** [includes] is the occurrence of the second string inside the first. *)
Lemma includes_occurs (s k : string) :
  includes s k = true ↔ ∃ before after, s = before +:+ k +:+ after.
Proof.
  induction s as [|c s IH]; cbn [includes]; rewrite orb_true_iff, prefix_occurs.
  - split.
    + intros [[after H]|?]; [|done]. by exists "", after.
    + intros (before & after & H). left. exists after.
      destruct before; [exact H|discriminate].
  - rewrite IH. split.
    + intros [[after H]|(before & after & H)].
      * by exists "", after.
      * exists (String c before), after. by rewrite string_app_cons, H.
    + intros (before & after & H). destruct before as [|d before].
      * left. by exists after.
      * right. rewrite string_app_cons in H. injection H as _ H.
        by exists before, after.
Qed.

Lemma lowerChar_idempotent (c : ascii) : lowerChar (lowerChar c) = lowerChar c.
Proof. by destruct c as [[] [] [] [] [] [] [] []]. Qed.

Lemma toLowerCase_idempotent (s : string) :
  toLowerCase (toLowerCase s) = toLowerCase s.
Proof.
  induction s as [|c s IH]; [reflexivity|].
  cbn. by rewrite lowerChar_idempotent, IH.
Qed.

Lemma truthy_toLowerCase (s : string) :
  truthy (Some (toLowerCase s)) = truthy (Some s).
Proof. by destruct s. Qed.

Lemma trimEnd_keeps_head (c : ascii) (s : string) :
  isWhiteSpace c = false → trimEnd (String c s) = String c (trimEnd s).
Proof. intros Hc. cbn [trimEnd]. rewrite Hc. by destruct (trimEnd s). Qed.

Lemma trimEnd_idempotent (s : string) : trimEnd (trimEnd s) = trimEnd s.
Proof.
  induction s as [|c s IH]; [reflexivity|].
  cbn [trimEnd]. destruct (trimEnd s) as [|d t] eqn:Ht.
  - destruct (isWhiteSpace c) eqn:Hc; [reflexivity|].
    cbn [trimEnd]. by rewrite Hc.
  - cbn [trimEnd]. cbn [trimEnd] in IH. rewrite IH. reflexivity.
Qed.

Lemma trimStart_head (s : string) :
  match trimStart s with
  | EmptyString => True
  | String c _ => isWhiteSpace c = false
  end.
Proof.
  induction s as [|c s IH]; [done|].
  cbn [trimStart]. by destruct (isWhiteSpace c) eqn:Hc.
Qed.

(** What [trim] returns has no white space left at either end. *)
Lemma trim_idempotent (s : string) : trim (trim s) = trim s.
Proof.
  unfold trim. pose proof (trimStart_head s) as Hhead.
  destruct (trimStart s) as [|c t]; [reflexivity|].
  rewrite (trimEnd_keeps_head c t Hhead). cbn [trimStart]. rewrite Hhead.
  rewrite (trimEnd_keeps_head c _ Hhead). by rewrite trimEnd_idempotent.
Qed.

(** ** The classifier *)

(** The score the code computes is the number of the keywords that occur
    in the content. *)
Lemma keywordScore_occurrences (s : string) (keywords : list string) :
  occurrences s keywords (keywordScore s keywords).
Proof.
  unfold keywordScore. induction keywords as [|k keywords IH]; cbn [List.filter].
  - constructor.
  - destruct (includes s k) eqn:Hk; cbn [length].
    + apply occurrences_hit; [by apply includes_occurs|exact IH].
    + apply occurrences_miss; [|exact IH].
      intros Hin%includes_occurs. congruence.
Qed.

Lemma occurrences_unique (s : string) (keywords : list string) (n m : nat) :
  occurrences s keywords n → occurrences s keywords m → n = m.
Proof.
  intros Hn. revert m.
  induction Hn as [|k ks n Hk Hn IH|k ks n Hk Hn IH]; intros m Hm;
    inversion Hm; subst; try done.
  - f_equal. by apply IH.
  - by apply IH.
Qed.

(** The scores of a table are those the code computes. *)
Lemma occurrences_scores (s : string) (table : list (string * list string))
    (scores : list nat) :
  Forall2 (fun entry score => occurrences s (snd entry) score) table scores →
  scores = map (fun entry => keywordScore s (snd entry)) table.
Proof.
  induction 1 as [|entry score table scores Hscore _ IH]; [reflexivity|].
  cbn [map]. f_equal; [|exact IH].
  eapply occurrences_unique; [exact Hscore|apply keywordScore_occurrences].
Qed.

Lemma find_zip_scores {A} (names : A → string) (score : A → nat) (best : nat)
    (table : list A) :
  List.find (fun named => snd named =? best)
            (zip (map names table) (map score table))
  = (fun entry => (names entry, score entry))
      <$> List.find (fun entry => score entry =? best) table.
Proof.
  induction table as [|entry table IH]; [reflexivity|].
  cbn [map zip zip_with List.find snd].
  destruct (score entry =? best); [reflexivity|exact IH].
Qed.

(** C5. For every content, [detectTopic] scores each of the five topics by
    the number of its keywords that occur as substrings of the lower-cased
    content, each keyword counted once; it answers the first topic of the
    enumeration technical, question, discussion, planning, feedback that
    reaches the highest score, and it answers "general" when that score is
    0 or the content is empty or absent. *)
Theorem detectTopic_first_best (content : option string) :
  map fst topics = ["technical"; "question"; "discussion"; "planning"; "feedback"]
  ∧ (truthy content = false → detectTopic content = "general")
  ∧ (truthy content = true →
     ∃ scores : list nat,
       Forall2 (fun entry score =>
                  occurrences (toLowerCase (default "" content)) (snd entry) score)
               topics scores
       ∧ detectTopic content = firstBest (map fst topics) scores).
Proof.
  split; [reflexivity|]. split.
  - intros Hfalsy. unfold detectTopic, detectTopicIn. by rewrite Hfalsy.
  - intros Htruthy.
    set (lower := toLowerCase (default "" content)).
    exists (map (fun entry => keywordScore lower (snd entry)) topics). split.
    + apply Forall2_fmap_r, Forall_Forall2_diag, Forall_forall.
      intros entry _. apply keywordScore_occurrences.
    + unfold detectTopic, detectTopicIn, firstBest. rewrite Htruthy.
      cbn [negb]. fold lower. rewrite topic_fold_first_best.
      fold (bestScore lower topics). rewrite find_zip_scores.
      destruct (Nat.leb_spec (bestScore lower topics) 0) as [H0|Hpos].
      * replace (bestScore lower topics) with 0 by lia. reflexivity.
      * destruct (Nat.eqb_spec (bestScore lower topics) 0); [lia|].
        cbn [snd]. by destruct (List.find _ topics).
Qed.

Lemma keywordScore_zero (lowerContent : string) (keywords : list string) :
  keywordScore lowerContent keywords = 0
  ↔ ∀ keyword, keyword ∈ keywords → includes lowerContent keyword = false.
Proof.
  unfold keywordScore. induction keywords as [|k keywords IH]; cbn [List.filter].
  - split; [|done]. intros _ keyword Hin. by apply elem_of_nil in Hin.
  - destruct (includes lowerContent k) eqn:Hk; cbn [length].
    + split; [done|]. intros H. specialize (H k (list_elem_of_here _ _)). congruence.
    + rewrite IH. split.
      * intros H keyword [->|Hin]%elem_of_cons; [exact Hk|by apply H].
      * intros H keyword Hin. apply H. by apply list_elem_of_further.
Qed.

Lemma bestScore_zero (lowerContent : string) (table : list (string * list string)) :
  bestScore lowerContent table = 0
  ↔ ∀ entry, entry ∈ table → keywordScore lowerContent (snd entry) = 0.
Proof.
  unfold bestScore. induction table as [|e table IH]; cbn [map foldr].
  - split; [|done]. intros _ entry Hin. by apply elem_of_nil in Hin.
  - split.
    + intros H entry [->|Hin]%elem_of_cons; [lia|]. apply IH; [lia|exact Hin].
    + intros H. pose proof (H e (list_elem_of_here _ _)).
      assert (foldr Nat.max 0
                (map (fun entry => keywordScore lowerContent (snd entry)) table) = 0)
        as Hrest.
      { apply IH. intros entry Hin. apply H. by apply list_elem_of_further. }
      lia.
Qed.

(** The label of a content that is not empty: "general" when no keyword
    scores, and otherwise the name of an entry of the table. *)
Lemma detectTopic_truthy (content : option string) :
  truthy content = true →
  let lowerContent := toLowerCase (default "" content) in
  (bestScore lowerContent topics = 0 ∧ detectTopic content = "general")
  ∨ (0 < bestScore lowerContent topics
     ∧ ∃ entry, entry ∈ topics ∧ detectTopic content = fst entry).
Proof.
  intros Htruthy lowerContent. unfold detectTopic, detectTopicIn.
  rewrite Htruthy. cbn [negb]. fold lowerContent.
  rewrite topic_fold_first_best.
  destruct (Nat.leb_spec (bestScore lowerContent topics) 0) as [Hzero|Hpos].
  - left. split; [lia|reflexivity].
  - right. split; [exact Hpos|].
    destruct (find_best_is_Some lowerContent topics Hpos) as [entry Hfind].
    rewrite Hfind. exists entry. split; [|reflexivity].
    apply find_some in Hfind as [Hin _]. by apply list_elem_of_In.
Qed.

(** X2. [detectTopic] answers one of the six labels, and it answers
    "general" exactly when the content is empty or absent or no keyword of
    the table occurs in the lower-cased content. *)
Theorem detectTopic_labels (content : option string) :
  detectTopic content
    ∈ ["general"; "technical"; "question"; "discussion"; "planning"; "feedback"]
  ∧ (detectTopic content = "general"
     ↔ truthy content = false
       ∨ ∀ entry keyword, entry ∈ topics → keyword ∈ snd entry →
           includes (toLowerCase (default "" content)) keyword = false).
Proof.
  destruct (truthy content) eqn:Htruthy.
  - destruct (detectTopic_truthy content Htruthy)
      as [[Hzero ->]|(Hpos & entry & Hin & ->)].
    + split; [by left|]. split; [|done]. intros _. right.
      intros entry keyword Hentry Hkeyword.
      rewrite bestScore_zero in Hzero.
      by apply (keywordScore_zero _ (snd entry)); [apply Hzero|].
    + assert (fst entry ∈ ["technical"; "question"; "discussion"; "planning";
                           "feedback"]) as Hname.
      { change (fst entry ∈ map fst topics). by apply list_elem_of_fmap_2. }
      split; [by apply list_elem_of_further|]. split.
      * intros Heq. rewrite Heq in Hname.
        by repeat (apply elem_of_cons in Hname as [?|Hname]; [done|]);
          apply elem_of_nil in Hname.
      * intros [?|Hnone]; [done|]. exfalso.
        assert (bestScore (toLowerCase (default "" content)) topics = 0); [|lia].
        apply bestScore_zero. intros e He. apply keywordScore_zero.
        intros keyword Hk. by apply (Hnone e).
  - assert (detectTopic content = "general") as ->.
    { unfold detectTopic, detectTopicIn. by rewrite Htruthy. }
    split; [by left|]. split; [by left|done].
Qed.

(** X3. Letter case is ignored: a content and its lower-casing get the same
    topic, and a content has a marker of a list exactly when its
    lower-casing has one of the lower-cased list. *)
Theorem letter_case_ignored (s : string) (markers : list string) :
  detectTopic (Some (toLowerCase s)) = detectTopic (Some s)
  ∧ hasSectionMarker (Some (toLowerCase s)) (map toLowerCase markers)
    = hasSectionMarker (Some s) markers.
Proof.
  split.
  - unfold detectTopic, detectTopicIn.
    rewrite truthy_toLowerCase. cbn [default from_option id].
    by rewrite toLowerCase_idempotent.
  - unfold hasSectionMarker.
    rewrite truthy_toLowerCase. cbn [default from_option id].
    rewrite toLowerCase_idempotent.
    destruct (negb (truthy (Some s))); [reflexivity|].
    induction markers as [|marker markers IH]; [reflexivity|].
    cbn [map existsb]. by rewrite toLowerCase_idempotent, IH.
Qed.

(** X4. A marker fires exactly on a content that is not empty and in
    whose lower-casing the lower-casing of some marker of the list occurs;
    so the empty marker fires on every content that is not empty. *)
Theorem hasSectionMarker_occurs (content : option string) (markers : list string) :
  (hasSectionMarker content markers = true
   ↔ truthy content = true
     ∧ ∃ marker before after,
         marker ∈ markers
         ∧ toLowerCase (default "" content)
           = before +:+ toLowerCase marker +:+ after)
  ∧ ("" ∈ markers → hasSectionMarker content markers = truthy content).
Proof.
  assert (hasSectionMarker content markers = true
          ↔ truthy content = true
            ∧ ∃ marker before after,
                marker ∈ markers
                ∧ toLowerCase (default "" content)
                  = before +:+ toLowerCase marker +:+ after) as Hspec.
  { unfold hasSectionMarker. destruct (truthy content); cbn [negb].
    - rewrite existsb_exists. split.
      + intros (marker & Hin%list_elem_of_In & (before & after & H)%includes_occurs).
        split; [done|]. by exists marker, before, after.
      + intros (_ & marker & before & after & Hin & H).
        exists marker. split; [by apply list_elem_of_In|].
        apply includes_occurs. by exists before, after.
    - split; [done|]. by intros [? _]. }
  split; [exact Hspec|].
  intros Hempty. destruct (truthy content) eqn:Htruthy.
  - apply Hspec. split; [done|].
    exists "", "", (toLowerCase (default "" content)). by split.
  - unfold hasSectionMarker. by rewrite Htruthy.
Qed.

Lemma detectTopic_truthy_label (content : option string) :
  truthy (Some (detectTopic content)) = true.
Proof.
  destruct (truthy content) eqn:Htruthy.
  - destruct (detectTopic_truthy content Htruthy)
      as [[_ ->]|(_ & entry & Hin & ->)]; [reflexivity|].
    by repeat (apply elem_of_cons in Hin as [->|Hin]; [reflexivity|]);
      apply elem_of_nil in Hin.
  - unfold detectTopic, detectTopicIn. by rewrite Htruthy.
Qed.

Lemma detectTopic_contentOrEmpty (content : option string) :
  detectTopic (contentOrEmpty content) = detectTopic content.
Proof.
  unfold contentOrEmpty. destruct (truthy content) eqn:Htruthy; [reflexivity|].
  unfold detectTopic, detectTopicIn. by rewrite Htruthy.
Qed.

(** X5. Two messages differ in topic, for [hasTopicChange], exactly when
    [detectTopic] gives their contents different labels, a missing content
    counting as "general": the test on the two labels being truthy never
    decides. *)
Theorem hasTopicChange_labels (prevMessage currentMessage : Message.t) :
  hasTopicChange prevMessage currentMessage = true
  ↔ detectTopic (Message.content prevMessage)
    ≠ detectTopic (Message.content currentMessage).
Proof.
  unfold hasTopicChange.
  rewrite !detectTopic_truthy_label, !andb_true_r, !detectTopic_contentOrEmpty.
  by rewrite negb_true_iff, String.eqb_neq.
Qed.

End Parser.

(** * Properties of the merger *)

(** ** The set of participants *)

Lemma uniqueInOrder_fold (xs : list string) :
  ∀ seen : list string,
    NoDup seen →
    let result :=
      fold_left (fun seen x => if bool_decide (x ∈ seen) then seen else seen ++ [x])
                xs seen in
    NoDup result ∧ ∀ x, x ∈ result ↔ x ∈ seen ∨ x ∈ xs.
Proof.
  induction xs as [|y xs IH]; intros seen Hseen; cbn zeta; cbn [fold_left].
  - split; [exact Hseen|]. intros x. rewrite elem_of_nil. tauto.
  - destruct (bool_decide_reflect (y ∈ seen)) as [Hin|Hout].
    + destruct (IH seen Hseen) as [Hnd Hmem]. split; [exact Hnd|].
      intros x. rewrite Hmem, elem_of_cons. split; [tauto|].
      intros [?|[->|?]]; tauto.
    + destruct (IH (seen ++ [y])) as [Hnd Hmem].
      { apply NoDup_app. split_and!; [exact Hseen| |apply NoDup_singleton].
        intros x Hx ->%list_elem_of_singleton. contradiction. }
      split; [exact Hnd|].
      intros x. rewrite Hmem, elem_of_app, list_elem_of_singleton, elem_of_cons.
      tauto.
Qed.

Lemma uniqueInOrder_NoDup (xs : list string) : NoDup (uniqueInOrder xs).
Proof. apply (uniqueInOrder_fold xs []). constructor. Qed.

Lemma elem_of_uniqueInOrder (xs : list string) (x : string) :
  x ∈ uniqueInOrder xs ↔ x ∈ xs.
Proof.
  destruct (uniqueInOrder_fold xs [] (NoDup_nil_2)) as [_ Hmem].
  unfold uniqueInOrder. rewrite Hmem, elem_of_nil. tauto.
Qed.

(** ** One turn of the loop of the merger *)

Lemma readSection_run (w : World) (r : ref) (s : ConversationSection.t) :
  sectionObjs w !! r = Some s → readSection r w = Some (s, w).
Proof. unfold readSection. by intros ->. Qed.

Lemma readArray_run (w : World) (r : ref) (held : list Message.t) :
  arrays w !! r = Some held → readArray r w = Some (held, w).
Proof. unfold readArray. by intros ->. Qed.

Lemma writeSection_run (w : World) (r : ref) (s s' : ConversationSection.t) :
  sectionObjs w !! r = Some s →
  writeSection r s' w
  = Some (tt, mkWorld (<[r:=s']> (sectionObjs w)) (arrays w) (clockReads w)).
Proof.
  intros Hr%lookup_lt_Some. unfold writeSection.
  by destruct (Nat.ltb_spec r (length (sectionObjs w))); [|lia].
Qed.

Lemma writeArray_run (w : World) (r : ref) (held held' : list Message.t) :
  arrays w !! r = Some held →
  writeArray r held' w
  = Some (tt, mkWorld (sectionObjs w) (<[r:=held']> (arrays w)) (clockReads w)).
Proof.
  intros Hr%lookup_lt_Some. unfold writeArray.
  by destruct (Nat.ltb_spec r (length (arrays w))); [|lia].
Qed.

(** A turn whose similarity is below the threshold appends the section
    and leaves the store as it is. *)
Lemma mergeStep_append (threshold : Q) (merged : list ref) (lastRef current : ref)
    (w : World) (lastSection currentSection : ConversationSection.t) :
  last merged = Some lastRef →
  sectionObjs w !! lastRef = Some lastSection →
  sectionObjs w !! current = Some currentSection →
  Qle_bool threshold (similarityOf lastSection currentSection) = false →
  mergeStep threshold merged current w = Some (merged ++ [current], w).
Proof.
  intros Hlast HL HC Hsim. unfold mergeStep. rewrite Hlast.
  rewrite (bind_run _ _ _ _ _ (readSection_run _ _ _ HL)).
  rewrite (bind_run _ _ _ _ _ (readSection_run _ _ _ HC)).
  fold (similarityOf lastSection currentSection). by rewrite Hsim.
Qed.

(** A turn whose similarity reaches the threshold fuses the section into
    the last one, whatever references or arrays the two share. *)
Lemma mergeStep_fuse (threshold : Q) (merged : list ref) (lastRef current : ref)
    (w : World) (lastSection currentSection : ConversationSection.t)
    (kept pushed : list Message.t) :
  last merged = Some lastRef →
  sectionObjs w !! lastRef = Some lastSection →
  sectionObjs w !! current = Some currentSection →
  arrays w !! ConversationSection.messages lastSection = Some kept →
  arrays w !! ConversationSection.messages currentSection = Some pushed →
  Qle_bool threshold (similarityOf lastSection currentSection) = true →
  mergeStep threshold merged current w
  = Some (merged, fusedWorld w lastRef lastSection currentSection kept pushed).
Proof.
  intros Hlast HL HC Hkept Hpushed Hsim. unfold mergeStep. rewrite Hlast.
  rewrite (bind_run _ _ _ _ _ (readSection_run _ _ _ HL)).
  rewrite (bind_run _ _ _ _ _ (readSection_run _ _ _ HC)).
  fold (similarityOf lastSection currentSection). rewrite Hsim.
  rewrite (bind_run _ _ _ _ _ (readSection_run _ _ _ HC)).
  rewrite (bind_run _ _ _ _ _ (readArray_run _ _ _ Hpushed)).
  rewrite (bind_run _ _ _ _ _ (readSection_run _ _ _ HL)).
  rewrite (bind_run _ _ _ _ _ (readArray_run _ _ _ Hkept)).
  rewrite (bind_run _ _ _ _ _ (writeArray_run _ _ _ _ Hkept)).
  set (w1 := mkWorld (sectionObjs w) _ (clockReads w)).
  rewrite (bind_run _ _ _ _ _ (readSection_run w1 _ _ HC)).
  rewrite (bind_run _ _ _ _ _ (readSection_run w1 _ _ HL)).
  rewrite (bind_run _ _ _ _ _ (writeSection_run w1 _ _ _ HL)).
  set (L1 := ConversationSection.setEndTime
               (ConversationSection.endTime currentSection) lastSection).
  set (w2 := mkWorld (<[lastRef:=L1]> (sectionObjs w1)) (arrays w1) (clockReads w1)).
  assert (sectionObjs w2 !! lastRef = Some L1) as HL1.
  { cbn. apply list_lookup_insert_eq. by eapply lookup_lt_Some. }
  assert (∃ C1, sectionObjs w2 !! current = Some C1
                ∧ ConversationSection.participants C1
                  = ConversationSection.participants currentSection)
    as (C1 & HC1 & Hparts).
  { destruct (decide (lastRef = current)) as [<-|Hne].
    - exists L1. split; [exact HL1|]. cbn. congruence.
    - exists currentSection. split; [|reflexivity].
      cbn. by rewrite list_lookup_insert_ne. }
  rewrite (bind_run _ _ _ _ _ (readSection_run w2 _ _ HL1)).
  rewrite (bind_run _ _ _ _ _ (readSection_run w2 _ _ HC1)).
  rewrite (bind_run _ _ _ _ _ (writeSection_run w2 _ _ _ HL1)).
  unfold ret, fusedWorld, fusedSection. cbn [sectionObjs arrays clockReads w2 w1].
  rewrite list_insert_insert_eq, Hparts. reflexivity.
Qed.

Lemma similarityOf_equal (lastSection currentSection : ConversationSection.t)
    (threshold : Q) :
  ConversationSection.topic lastSection = ConversationSection.topic currentSection →
  (threshold <= 1)%Q →
  Qle_bool threshold (similarityOf lastSection currentSection) = true.
Proof.
  intros Htopic Hle. unfold similarityOf.
  apply String.eqb_eq in Htopic. rewrite Htopic. by apply Qle_bool_iff.
Qed.

Lemma similarityOf_different (lastSection currentSection : ConversationSection.t)
    (threshold : Q) :
  ConversationSection.topic lastSection ≠ ConversationSection.topic currentSection →
  (0 < threshold)%Q →
  Qle_bool threshold (similarityOf lastSection currentSection) = false.
Proof.
  intros Htopic Hlt. unfold similarityOf.
  apply String.eqb_neq in Htopic. rewrite Htopic.
  apply not_true_is_false. intros H%Qle_bool_iff. by apply (Qlt_not_le _ _ Hlt).
Qed.

(** What a caller reads at [lastRef] after a fusion. *)
Lemma fusedWorld_sectionAt (w : World) (lastRef : ref)
    (lastSection currentSection : ConversationSection.t)
    (kept pushed : list Message.t) :
  sectionObjs w !! lastRef = Some lastSection →
  arrays w !! ConversationSection.messages lastSection = Some kept →
  sectionAt (fusedWorld w lastRef lastSection currentSection kept pushed) lastRef
  = Some (fusedSection lastSection currentSection, kept ++ pushed).
Proof.
  intros HL%lookup_lt_Some Hkept%lookup_lt_Some.
  unfold sectionAt, fusedWorld. cbn [sectionObjs arrays].
  rewrite list_lookup_insert_eq by exact HL.
  unfold fusedSection at 1. cbn [ConversationSection.messages
    ConversationSection.setParticipants ConversationSection.setEndTime].
  by rewrite list_lookup_insert_eq by exact Hkept.
Qed.

Lemma fusedSection_fusedFrom (lastSection currentSection : ConversationSection.t) :
  fusedFrom (fusedSection lastSection currentSection) lastSection currentSection.
Proof.
  unfold fusedFrom, fusedSection. cbn. split_and!; try reflexivity.
  - apply uniqueInOrder_NoDup.
  - intros x. by rewrite elem_of_uniqueInOrder, elem_of_app.
Qed.

(** C6. A turn of the loop on two sections of equal topic, at a threshold
    of at most 1, fuses: the surviving section then holds the messages of
    both in order, has the end time of the absorbed one and the participants
    of both without repetition, and keeps its id, title, topic and start
    time. So three sections of topics A, A and B, merged at the default
    threshold, come out as two, the first two fused and the third as it
    was. *)
Theorem mergeSimilarSections_fuses :
  (∀ (threshold : Q) (merged : list ref) (lastRef current : ref) (w : World)
     (lastSection currentSection : ConversationSection.t)
     (kept pushed : list Message.t),
     last merged = Some lastRef →
     sectionAt w lastRef = Some (lastSection, kept) →
     sectionAt w current = Some (currentSection, pushed) →
     ConversationSection.topic lastSection
     = ConversationSection.topic currentSection →
     (threshold <= 1)%Q →
     ∃ (w' : World) (fused : ConversationSection.t),
       mergeStep threshold merged current w = Some (merged, w')
       ∧ sectionAt w' lastRef = Some (fused, kept ++ pushed)
       ∧ fusedFrom fused lastSection currentSection)
  ∧ (∀ (a b c : ref) (w : World) (sa sb sc : ConversationSection.t)
       (keptA keptB : list Message.t),
       sectionAt w a = Some (sa, keptA) →
       sectionAt w b = Some (sb, keptB) →
       sectionObjs w !! c = Some sc →
       ConversationSection.topic sa = ConversationSection.topic sb →
       ConversationSection.topic sb ≠ ConversationSection.topic sc →
       ∃ (w' : World) (fused : ConversationSection.t),
         mergeSimilarSections [a; b; c] None w = Some ([a; c], w')
         ∧ sectionAt w' a = Some (fused, keptA ++ keptB)
         ∧ fusedFrom fused sa sb
         ∧ sectionObjs w' !! c = Some sc).
Proof.
  assert (∀ w r s held, sectionAt w r = Some (s, held) →
            sectionObjs w !! r = Some s
            ∧ arrays w !! ConversationSection.messages s = Some held) as Hat.
  { intros w r s held. unfold sectionAt.
    destruct (sectionObjs w !! r) as [s'|]; [|done].
    destruct (arrays w !! ConversationSection.messages s') as [held'|] eqn:Ha; [|done].
    intros [= -> ->]. by split. }
  split.
  - intros threshold merged lastRef current w L C kept pushed Hlast
      [HL Hkept]%Hat [HC Hpushed]%Hat Htopic Hle.
    eexists _, _. split_and!.
    + apply (mergeStep_fuse threshold merged lastRef current w L C kept pushed);
        try assumption.
      by apply similarityOf_equal.
    + by apply fusedWorld_sectionAt.
    + apply fusedSection_fusedFrom.
  - intros a b c w sa sb sc keptA keptB [Ha HkA]%Hat [Hb HkB]%Hat Hc Hab Hbc.
    assert (c ≠ a) as Hca by (intros ->; congruence).
    unfold mergeSimilarSections. cbn [default mergeLoop].
    rewrite (bind_run _ _ _ _ _
               (mergeStep_fuse 0.7 [a] a b w sa sb keptA keptB
                  eq_refl Ha Hb HkA HkB
                  (similarityOf_equal sa sb 0.7 Hab ltac:(done)))).
    set (w1 := fusedWorld w a sa sb keptA keptB).
    assert (sectionObjs w1 !! a = Some (fusedSection sa sb)) as Ha1.
    { cbn. apply list_lookup_insert_eq. by eapply lookup_lt_Some. }
    assert (sectionObjs w1 !! c = Some sc) as Hc1.
    { cbn. by rewrite list_lookup_insert_ne. }
    assert (ConversationSection.topic (fusedSection sa sb)
            ≠ ConversationSection.topic sc) as Hfc.
    { unfold fusedSection. cbn. congruence. }
    rewrite (bind_run _ _ _ _ _
               (mergeStep_append 0.7 [a] a c w1 (fusedSection sa sb) sc
                  eq_refl Ha1 Hc1
                  (similarityOf_different _ _ 0.7 Hfc ltac:(done)))).
    unfold ret. eexists _, _. split_and!.
    + reflexivity.
    + by apply fusedWorld_sectionAt.
    + apply fusedSection_fusedFrom.
    + exact Hc1.
Qed.

(** ** Merging what needs no merging *)

Lemma adjacentTopicsDiffer_cons (w : World) (r1 r2 : ref) (rest : list ref) :
  adjacentTopicsDiffer w (r1 :: r2 :: rest) = true
  ↔ ∃ s1 s2,
      sectionObjs w !! r1 = Some s1 ∧ sectionObjs w !! r2 = Some s2
      ∧ ConversationSection.topic s1 ≠ ConversationSection.topic s2
      ∧ adjacentTopicsDiffer w (r2 :: rest) = true.
Proof.
  change (adjacentTopicsDiffer w (r1 :: r2 :: rest))
    with (match sectionObjs w !! r1, sectionObjs w !! r2 with
          | Some s1, Some s2 =>
              negb (String.eqb (ConversationSection.topic s1)
                               (ConversationSection.topic s2))
              && adjacentTopicsDiffer w (r2 :: rest)
          | _, _ => false
          end).
  destruct (sectionObjs w !! r1) as [s1|], (sectionObjs w !! r2) as [s2|];
    try (split; [done|by intros (? & ? & ? & ? & _)]).
  rewrite andb_true_iff, negb_true_iff, String.eqb_neq. split.
  - intros [? ?]. by exists s1, s2.
  - by intros (? & ? & [= <-] & [= <-] & ? & ?).
Qed.

Lemma mergeLoop_fixed (threshold : Q) (w : World) (rest : list ref) :
  ∀ (merged : list ref) (lastRef : ref),
    (0 < threshold)%Q →
    last merged = Some lastRef →
    adjacentTopicsDiffer w (lastRef :: rest) = true →
    mergeLoop threshold merged rest w = Some (merged ++ rest, w).
Proof.
  induction rest as [|current rest IH]; intros merged lastRef Hpos Hlast Hdiffer.
  - cbn. unfold ret. by rewrite app_nil_r.
  - apply adjacentTopicsDiffer_cons in Hdiffer
      as (L & C & HL & HC & Htopic & Hdiffer).
    cbn [mergeLoop].
    rewrite (bind_run _ _ _ _ _
               (mergeStep_append threshold merged lastRef current w L C
                  Hlast HL HC (similarityOf_different L C threshold Htopic Hpos))).
    rewrite (IH (merged ++ [current]) current Hpos (last_snoc _ _) Hdiffer).
    by rewrite <- app_assoc.
Qed.

(** C8. On a list of sections no two neighbours of which have the same
    topic, the shape of a merged list, [mergeSimilarSections] at the
    default threshold returns the list as it is and leaves the store as it
    is. *)
Theorem mergeSimilarSections_fixed (refs : list ref) (w : World) :
  adjacentTopicsDiffer w refs = true →
  mergeSimilarSections refs None w = Some (refs, w).
Proof.
  intros Hdiffer. unfold mergeSimilarSections.
  destruct refs as [|first [|second rest]]; [reflexivity|reflexivity|].
  apply (mergeLoop_fixed 0.7 w (second :: rest) [first] first); done.
Qed.

(** ** What the merger changes *)

Lemma mergeStep_inv (threshold : Q) (merged merged' : list ref) (current : ref)
    (w w' : World) :
  mergeStep threshold merged current w = Some (merged', w') →
  ∃ lastRef lastSection currentSection,
    last merged = Some lastRef
    ∧ sectionObjs w !! lastRef = Some lastSection
    ∧ sectionObjs w !! current = Some currentSection
    ∧ ((Qle_bool threshold (similarityOf lastSection currentSection) = false
        ∧ merged' = merged ++ [current] ∧ w' = w)
       ∨ (Qle_bool threshold (similarityOf lastSection currentSection) = true
          ∧ ∃ kept pushed,
              arrays w !! ConversationSection.messages lastSection = Some kept
              ∧ arrays w !! ConversationSection.messages currentSection = Some pushed
              ∧ merged' = merged
              ∧ w' = fusedWorld w lastRef lastSection currentSection kept pushed)).
Proof.
  intros Hrun.
  destruct (last merged) as [lastRef|] eqn:Hlast; [|by unfold mergeStep in Hrun; rewrite Hlast in Hrun].
  destruct (sectionObjs w !! lastRef) as [L|] eqn:HL.
  2:{ unfold mergeStep, bind, readSection in Hrun. by rewrite Hlast, HL in Hrun. }
  destruct (sectionObjs w !! current) as [C|] eqn:HC.
  2:{ unfold mergeStep, bind, readSection in Hrun.
      by rewrite Hlast, HL, HC in Hrun. }
  exists lastRef, L, C. split_and!; try done.
  destruct (Qle_bool threshold (similarityOf L C)) eqn:Hsim.
  - right.
    destruct (arrays w !! ConversationSection.messages C) as [pushed|] eqn:Hpushed.
    2:{ unfold mergeStep in Hrun. rewrite Hlast in Hrun.
        rewrite (bind_run _ _ _ _ _ (readSection_run _ _ _ HL)) in Hrun.
        rewrite (bind_run _ _ _ _ _ (readSection_run _ _ _ HC)) in Hrun.
        fold (similarityOf L C) in Hrun. rewrite Hsim in Hrun.
        rewrite (bind_run _ _ _ _ _ (readSection_run _ _ _ HC)) in Hrun.
        unfold bind at 1, readArray in Hrun. by rewrite Hpushed in Hrun. }
    destruct (arrays w !! ConversationSection.messages L) as [kept|] eqn:Hkept.
    2:{ unfold mergeStep in Hrun. rewrite Hlast in Hrun.
        rewrite (bind_run _ _ _ _ _ (readSection_run _ _ _ HL)) in Hrun.
        rewrite (bind_run _ _ _ _ _ (readSection_run _ _ _ HC)) in Hrun.
        fold (similarityOf L C) in Hrun. rewrite Hsim in Hrun.
        rewrite (bind_run _ _ _ _ _ (readSection_run _ _ _ HC)) in Hrun.
        rewrite (bind_run _ _ _ _ _ (readArray_run _ _ _ Hpushed)) in Hrun.
        rewrite (bind_run _ _ _ _ _ (readSection_run _ _ _ HL)) in Hrun.
        unfold bind at 1, readArray in Hrun. by rewrite Hkept in Hrun. }
    rewrite (mergeStep_fuse threshold merged lastRef current w L C kept pushed
               Hlast HL HC Hkept Hpushed Hsim) in Hrun.
    injection Hrun as <- <-. split; [done|]. by exists kept, pushed.
  - left.
    rewrite (mergeStep_append threshold merged lastRef current w L C
               Hlast HL HC Hsim) in Hrun.
    by injection Hrun as <- <-.
Qed.

Lemma mergeFrame_refl (w : World) (touched : list ref) : mergeFrame w w touched.
Proof.
  unfold mergeFrame. split_and!; try reflexivity.
  - intros r s Hr. exists s. by repeat split.
  - intros a held Ha. exists held. by repeat split.
Qed.

Lemma mergeFrame_mono (w w' : World) (touched touched' : list ref) :
  touched ⊆ touched' → mergeFrame w w' touched → mergeFrame w w' touched'.
Proof.
  intros Hsub (Hos & Hars & Hk & Hobj & Harr).
  unfold mergeFrame. split_and!; try done.
  - intros r s Hr. destruct (Hobj r s Hr) as (s' & Hr' & Hid & Hsame).
    exists s'. split; [done|]. split; [done|]. intros Hout. apply Hsame.
    intros Hr0. by apply Hout, Hsub.
  - intros a held Ha. destruct (Harr a held Ha) as (held' & Ha' & Hpre & Hsame).
    exists held'. split; [done|]. split; [done|]. intros Hfree. apply Hsame.
    intros r s Hin. by apply Hfree, Hsub.
Qed.

Lemma mergeFrame_fuse (w0 w : World) (touched : list ref) (lastRef : ref)
    (lastSection currentSection : ConversationSection.t)
    (kept pushed : list Message.t) :
  mergeFrame w0 w touched →
  lastRef ∈ touched →
  sectionObjs w !! lastRef = Some lastSection →
  arrays w !! ConversationSection.messages lastSection = Some kept →
  mergeFrame w0 (fusedWorld w lastRef lastSection currentSection kept pushed)
    touched.
Proof.
  intros (Hos & Hars & Hk & Hobj & Harr) Hin HL Hkept.
  unfold mergeFrame, fusedWorld. cbn [sectionObjs arrays clockReads].
  rewrite !length_insert. split_and!; try done.
  - intros r s Hr. destruct (Hobj r s Hr) as (s' & Hr' & Hid & Hsame).
    destruct (decide (r = lastRef)) as [Heq|Hne]; [subst r|].
    + exists (fusedSection lastSection currentSection).
      split; [|split].
      * apply list_lookup_insert_eq. by eapply lookup_lt_Some.
      * rewrite HL in Hr'. injection Hr' as <-. exact Hid.
      * done.
    + exists s'. by rewrite list_lookup_insert_ne.
  - intros a held Ha. destruct (Harr a held Ha) as (held' & Ha' & Hpre & Hsame).
    destruct (decide (a = ConversationSection.messages lastSection))
      as [Heq|Hne]; [subst a|].
    + exists (kept ++ pushed). split; [|split].
      * apply list_lookup_insert_eq. by eapply lookup_lt_Some.
      * rewrite Hkept in Ha'. injection Ha' as <-.
        etransitivity; [exact Hpre|]. by apply prefix_app_r.
      * intros Hfree. exfalso.
        assert (is_Some (sectionObjs w0 !! lastRef)) as [s0 Hs0].
        { apply lookup_lt_is_Some. rewrite <- Hos. by eapply lookup_lt_Some. }
        destruct (Hobj lastRef s0 Hs0) as (s' & Hs' & (_ & _ & Hmsgs & _) & _).
        rewrite HL in Hs'. injection Hs' as <-.
        by apply (Hfree lastRef s0 Hin Hs0).
    + exists held'. by rewrite list_lookup_insert_ne.
Qed.

Lemma mergeLoop_frame (threshold : Q) (w0 : World) (rest : list ref) :
  ∀ (merged out : list ref) (w w' : World),
    mergeLoop threshold merged rest w = Some (out, w') →
    mergeFrame w0 w merged →
    mergeFrame w0 w' out.
Proof.
  induction rest as [|current rest IH]; intros merged out w w' Hrun Hframe.
  - cbn in Hrun. unfold ret in Hrun. by injection Hrun as <- <-.
  - cbn [mergeLoop] in Hrun. unfold bind at 1 in Hrun.
    destruct (mergeStep threshold merged current w) as [[merged1 w1]|] eqn:Hstep;
      [|done].
    apply mergeStep_inv in Hstep
      as (lastRef & L & C & Hlast & HL & HC
          & [(Hsim & -> & ->)|(Hsim & kept & pushed & Hkept & Hpushed & -> & ->)]).
    + apply (IH _ _ _ _ Hrun). eapply mergeFrame_mono; [|exact Hframe].
      intros r Hr. apply elem_of_app. by left.
    + apply (IH _ _ _ _ Hrun). apply mergeFrame_fuse; try done.
      by apply last_Some_elem_of.
Qed.

Lemma mergeSimilarSections_frame (refs out : list ref) (threshold : option Q)
    (w w' : World) :
  mergeSimilarSections refs threshold w = Some (out, w') →
  mergeFrame w w' out.
Proof.
  unfold mergeSimilarSections.
  destruct refs as [|first [|second rest]].
  - intros [= <- <-]. apply mergeFrame_refl.
  - intros [= <- <-]. apply mergeFrame_refl.
  - intros Hrun. eapply mergeLoop_frame; [exact Hrun|apply mergeFrame_refl].
Qed.

(** ** The merger returns *)

Lemma fusedWorld_valid (w : World) (lastRef r : ref)
    (lastSection currentSection : ConversationSection.t)
    (kept pushed : list Message.t) :
  sectionObjs w !! lastRef = Some lastSection →
  is_Some (sectionAt w r) →
  is_Some (sectionAt (fusedWorld w lastRef lastSection currentSection kept pushed) r).
Proof.
  intros HL [[s held] Hat]. unfold sectionAt in *.
  destruct (sectionObjs w !! r) as [s'|] eqn:Hr; [|done].
  destruct (arrays w !! ConversationSection.messages s') as [held'|] eqn:Ha; [|done].
  unfold fusedWorld. cbn [sectionObjs arrays].
  assert (∀ a, is_Some (arrays w !! a) →
               is_Some (<[ConversationSection.messages lastSection := kept ++ pushed]>
                          (arrays w) !! a)) as Hkeep.
  { intros a. by rewrite list_lookup_insert_is_Some. }
  destruct (decide (r = lastRef)) as [Heq|Hne]; [subst r|].
  - rewrite list_lookup_insert_eq by (by eapply lookup_lt_Some).
    rewrite HL in Hr. injection Hr as <-.
    unfold fusedSection. cbn [ConversationSection.messages
      ConversationSection.setParticipants ConversationSection.setEndTime].
    destruct (Hkeep _ (mk_is_Some _ _ Ha)) as [x ->]. done.
  - rewrite list_lookup_insert_ne by done. rewrite Hr.
    destruct (Hkeep _ (mk_is_Some _ _ Ha)) as [x ->]. done.
Qed.

Lemma sectionAt_Some (w : World) (r : ref) (s : ConversationSection.t)
    (held : list Message.t) :
  sectionAt w r = Some (s, held)
  ↔ sectionObjs w !! r = Some s
    ∧ arrays w !! ConversationSection.messages s = Some held.
Proof.
  unfold sectionAt. split.
  - destruct (sectionObjs w !! r) as [s'|]; [|done].
    destruct (arrays w !! ConversationSection.messages s') as [held'|] eqn:Ha;
      [|done].
    intros [= -> ->]. by split.
  - intros [-> ->]. reflexivity.
Qed.

Lemma mergeLoop_total (threshold : Q) (rest : list ref) :
  ∀ (merged : list ref) (lastRef : ref) (w : World),
    last merged = Some lastRef →
    is_Some (sectionAt w lastRef) →
    Forall (fun r => is_Some (sectionAt w r)) rest →
    ∃ out w', mergeLoop threshold merged rest w = Some (out, w').
Proof.
  induction rest as [|current rest IH]; intros merged lastRef w Hlast Hvalid Hrest.
  - by eexists _, _.
  - apply Forall_cons in Hrest as [Hcurrent Hrest].
    destruct Hvalid as [[L kept] [HL Hkept]%sectionAt_Some].
    pose proof Hcurrent as [[C pushed] [HC Hpushed]%sectionAt_Some].
    cbn [mergeLoop].
    destruct (Qle_bool threshold (similarityOf L C)) eqn:Hsim.
    + rewrite (bind_run _ _ _ _ _
                 (mergeStep_fuse threshold merged lastRef current w L C kept pushed
                    Hlast HL HC Hkept Hpushed Hsim)).
      apply (IH merged lastRef); [exact Hlast| |].
      * apply fusedWorld_valid; [exact HL|].
        exists (L, kept). by apply sectionAt_Some.
      * eapply Forall_impl; [exact Hrest|]. intros r.
        by apply fusedWorld_valid.
    + rewrite (bind_run _ _ _ _ _
                 (mergeStep_append threshold merged lastRef current w L C
                    Hlast HL HC Hsim)).
      apply (IH (merged ++ [current]) current);
        [apply last_snoc|exact Hcurrent|exact Hrest].
Qed.

Lemma mergeSimilarSections_total (refs : list ref) (threshold : option Q)
    (w : World) :
  validSections w refs = true →
  ∃ out w', mergeSimilarSections refs threshold w = Some (out, w').
Proof.
  intros Hvalid. unfold mergeSimilarSections.
  destruct refs as [|first [|second rest]]; [by eexists _, _|by eexists _, _|].
  unfold validSections in Hvalid. cbn [forallb] in Hvalid.
  apply andb_true_iff in Hvalid as [Hfirst Hrest].
  apply bool_decide_eq_true in Hfirst.
  apply (mergeLoop_total _ (second :: rest) [first] first); [done|exact Hfirst|].
  apply Forall_forall. intros r Hr%list_elem_of_In.
  change (forallb (fun r => bool_decide (is_Some (sectionAt w r)))
                  (second :: rest) = true) in Hrest.
  rewrite forallb_forall in Hrest.
  specialize (Hrest r Hr). by apply bool_decide_eq_true in Hrest.
Qed.

(** ** A merged list needs no merging *)

Lemma adjacentTopicsDiffer_frame (w w' : World) (touched refs : list ref) :
  mergeFrame w w' touched →
  adjacentTopicsDiffer w' refs = adjacentTopicsDiffer w refs.
Proof.
  intros (Hos & _ & _ & Hobj & _).
  assert (∀ r, ConversationSection.topic <$> sectionObjs w' !! r
               = ConversationSection.topic <$> sectionObjs w !! r) as Htopic.
  { intros r. destruct (sectionObjs w !! r) as [s|] eqn:Hr.
    - destruct (Hobj r s Hr) as (s' & -> & (_ & _ & _ & _ & Heq) & _).
      cbn. by rewrite Heq.
    - apply lookup_ge_None in Hr. rewrite <- Hos in Hr.
      apply lookup_ge_None in Hr. by rewrite Hr. }
  induction refs as [|r1 [|r2 rest] IH]; [reflexivity|reflexivity|].
  change (adjacentTopicsDiffer w' (r1 :: r2 :: rest))
    with (match sectionObjs w' !! r1, sectionObjs w' !! r2 with
          | Some s1, Some s2 =>
              negb (String.eqb (ConversationSection.topic s1)
                               (ConversationSection.topic s2))
              && adjacentTopicsDiffer w' (r2 :: rest)
          | _, _ => false
          end).
  change (adjacentTopicsDiffer w (r1 :: r2 :: rest))
    with (match sectionObjs w !! r1, sectionObjs w !! r2 with
          | Some s1, Some s2 =>
              negb (String.eqb (ConversationSection.topic s1)
                               (ConversationSection.topic s2))
              && adjacentTopicsDiffer w (r2 :: rest)
          | _, _ => false
          end).
  rewrite IH. pose proof (Htopic r1) as H1. pose proof (Htopic r2) as H2.
  destruct (sectionObjs w' !! r1), (sectionObjs w !! r1),
    (sectionObjs w' !! r2), (sectionObjs w !! r2);
    cbn in H1, H2; try done.
  injection H1 as ->. injection H2 as ->. reflexivity.
Qed.

Lemma adjacentTopicsDiffer_snoc (w : World) (current lastRef : ref)
    (lastSection currentSection : ConversationSection.t) (merged : list ref) :
  last merged = Some lastRef →
  sectionObjs w !! lastRef = Some lastSection →
  sectionObjs w !! current = Some currentSection →
  ConversationSection.topic lastSection ≠ ConversationSection.topic currentSection →
  adjacentTopicsDiffer w merged = true →
  adjacentTopicsDiffer w (merged ++ [current]) = true.
Proof.
  intros Hlast HL HC Htopic.
  induction merged as [|r1 [|r2 rest] IH]; [done| |].
  - injection Hlast as ->. intros _. apply adjacentTopicsDiffer_cons.
    by exists lastSection, currentSection.
  - intros (s1 & s2 & H1 & H2 & Hne & Hrest)%adjacentTopicsDiffer_cons.
    change ((r1 :: r2 :: rest) ++ [current]) with (r1 :: r2 :: (rest ++ [current])).
    apply adjacentTopicsDiffer_cons. exists s1, s2. split_and!; try done.
    by apply IH.
Qed.

Lemma mergeLoop_differs (threshold : Q) (rest : list ref) :
  (threshold <= 1)%Q →
  ∀ (merged out : list ref) (w w' : World),
    mergeLoop threshold merged rest w = Some (out, w') →
    adjacentTopicsDiffer w merged = true →
    adjacentTopicsDiffer w' out = true.
Proof.
  intros Hle.
  induction rest as [|current rest IH]; intros merged out w w' Hrun Hdiffer.
  - cbn in Hrun. unfold ret in Hrun. by injection Hrun as <- <-.
  - cbn [mergeLoop] in Hrun. unfold bind at 1 in Hrun.
    destruct (mergeStep threshold merged current w) as [[merged1 w1]|] eqn:Hstep;
      [|done].
    apply mergeStep_inv in Hstep
      as (lastRef & L & C & Hlast & HL & HC
          & [(Hsim & -> & ->)|(Hsim & kept & pushed & Hkept & Hpushed & -> & ->)]).
    + apply (IH _ _ _ _ Hrun).
      apply (adjacentTopicsDiffer_snoc w current lastRef L C); try done.
      intros Heq. by rewrite (similarityOf_equal L C threshold Heq Hle) in Hsim.
    + apply (IH _ _ _ _ Hrun).
      rewrite (adjacentTopicsDiffer_frame w _ merged merged); [exact Hdiffer|].
      apply mergeFrame_fuse; [apply mergeFrame_refl| |exact HL|exact Hkept].
      by apply last_Some_elem_of.
Qed.

(** X1. Idempotence. On sections of the store, [mergeSimilarSections] at the
    default threshold returns a list no two neighbours of which have the
    same topic; merging that list again returns it as it is and leaves the
    store as it is. *)
Theorem mergeSimilarSections_idempotent (refs : list ref) (w : World) :
  validSections w refs = true →
  ∃ (out : list ref) (w' : World),
    mergeSimilarSections refs None w = Some (out, w')
    ∧ adjacentTopicsDiffer w' out = true
    ∧ mergeSimilarSections out None w' = Some (out, w').
Proof.
  intros Hvalid.
  destruct (mergeSimilarSections_total refs None w Hvalid) as (out & w' & Hrun).
  exists out, w'. split; [exact Hrun|].
  assert (adjacentTopicsDiffer w' out = true) as Hdiffer.
  { unfold mergeSimilarSections in Hrun.
    destruct refs as [|first [|second rest]];
      [by injection Hrun as <- <-|by injection Hrun as <- <-|].
    by apply (mergeLoop_differs 0.7 (second :: rest) ltac:(done) [first] out w w'). }
  split; [exact Hdiffer|].
  unfold mergeSimilarSections.
  destruct out as [|first [|second rest]]; [reflexivity|reflexivity|].
  apply (mergeLoop_fixed 0.7 w' (second :: rest) [first] first); done.
Qed.

Lemma mergeLoop_subset (threshold : Q) (rest : list ref) :
  ∀ (merged out : list ref) (w w' : World),
    mergeLoop threshold merged rest w = Some (out, w') →
    out ⊆ merged ++ rest.
Proof.
  induction rest as [|current rest IH]; intros merged out w w' Hrun.
  - cbn in Hrun. unfold ret in Hrun. injection Hrun as <- _.
    by rewrite app_nil_r.
  - cbn [mergeLoop] in Hrun. unfold bind at 1 in Hrun.
    destruct (mergeStep threshold merged current w) as [[merged1 w1]|] eqn:Hstep;
      [|done].
    apply mergeStep_inv in Hstep
      as (lastRef & L & C & Hlast & HL & HC
          & [(Hsim & -> & ->)|(Hsim & kept & pushed & Hkept & Hpushed & -> & ->)]).
    + apply IH in Hrun. by rewrite <- app_assoc in Hrun.
    + apply IH in Hrun. intros r Hr%Hrun.
      rewrite elem_of_app, elem_of_cons. rewrite elem_of_app in Hr. tauto.
Qed.

(** * Further properties *)

(** ** Participants and titles *)

Lemma uniqueInOrder_fold_prefix (xs : list string) :
  ∀ seen : list string,
    seen `prefix_of`
      fold_left (fun seen x => if bool_decide (x ∈ seen) then seen else seen ++ [x])
                xs seen.
Proof.
  induction xs as [|x xs IH]; intros seen; cbn [fold_left]; [done|].
  destruct (bool_decide (x ∈ seen)); [apply IH|].
  etransitivity; [|apply IH]. by apply prefix_app_r.
Qed.

Lemma uniqueInOrder_app_prefix (xs ys : list string) :
  uniqueInOrder xs `prefix_of` uniqueInOrder (xs ++ ys).
Proof.
  unfold uniqueInOrder. rewrite fold_left_app. apply uniqueInOrder_fold_prefix.
Qed.

Lemma elem_of_participantsOf (msg : Message.t) (x : string) :
  x ∈ participantsOf msg
  ↔ x ≠ "" ∧ (Message.author msg = Some x ∨ Message.user msg = Some x).
Proof.
  unfold participantsOf, truthy.
  destruct (Message.author msg) as [a|], (Message.user msg) as [u|];
    cbn [default from_option id];
    repeat match goal with
      | |- context [String.eqb ?s ""] =>
          destruct (String.eqb_spec s ""); cbn [negb app]
      end;
    rewrite ?elem_of_cons, ?elem_of_nil; split;
    try (intros [Hne [[= ->]|[= ->]]]); try (intros [Hne [?|?]]);
    try (intros [->|[->|?]]); try (intros [->|?]); try tauto; try done;
    try (by split; [|tauto]); try (by split; [|left]); by (split; [|right]).
Qed.

(** X6. The participants of a list of messages are the authors and users
    of its messages that are not empty, each once; and appending messages
    only extends the list, what it held staying in place at its head. *)
Theorem extractParticipants_members (messages more : list Message.t) :
  NoDup (extractParticipants messages)
  ∧ (∀ x, x ∈ extractParticipants messages
          ↔ x ≠ ""
            ∧ ∃ msg, msg ∈ messages
                     ∧ (Message.author msg = Some x ∨ Message.user msg = Some x))
  ∧ extractParticipants messages `prefix_of` extractParticipants (messages ++ more).
Proof.
  unfold extractParticipants. split_and!.
  - apply uniqueInOrder_NoDup.
  - intros x. rewrite elem_of_uniqueInOrder.
    rewrite list_elem_of_In, in_flat_map. split.
    + intros (msg & Hin%list_elem_of_In & [Hne H]%list_elem_of_In%elem_of_participantsOf).
      split; [done|]. by exists msg.
    + intros (Hne & msg & Hin & H). exists msg.
      split; [by apply list_elem_of_In|].
      by apply list_elem_of_In, elem_of_participantsOf.
  - rewrite flat_map_app. apply uniqueInOrder_app_prefix.
Qed.

(** X7. A title extracted from a content has no white space at either
    end, and when neither a heading nor a marker line is found in the content
    it is shorter than 100 characters. *)
Theorem extractTitle_trimmed (content : option string) (title : string) :
  extractTitle content = Some title →
  trim title = title
  ∧ (RegExp.matchHeader (default "" content) = None →
     RegExp.matchMarker (default "" content) = None →
     String.length title < 100).
Proof.
  unfold extractTitle. destruct (negb (truthy content)); [done|].
  destruct (RegExp.matchHeader _) as [header|].
  { intros [= <-]. split; [apply trim_idempotent|done]. }
  destruct (RegExp.matchMarker _) as [marker|].
  { intros [= <-]. split; [apply trim_idempotent|done]. }
  destruct (Nat.ltb_spec (String.length (trim (firstLineOf (default "" content)))) 100);
    [|done].
  intros [= <-]. split; [apply trim_idempotent|done].
Qed.

(** ** More on the sections of [detectSections] *)

Section SegmenterFacts.

Variable Date_now : nat → Z.
Variable Date_parse : string → Date.

Lemma concat_lookup_offset {A} (ls : list (list A)) :
  ∀ (k j : nat) (l : list A) (x : A),
    ls !! k = Some l → l !! j = Some x →
    concat ls !! (length (concat (take k ls)) + j) = Some x.
Proof.
  induction ls as [|l0 ls IH]; intros k j l x Hk Hj; [done|].
  destruct k as [|k].
  - injection Hk as ->. cbn. by apply lookup_app_l_Some.
  - cbn [take concat]. rewrite length_app, <- Nat.add_assoc.
    rewrite lookup_app_r by lia.
    replace (length l0 + (length (concat (take k ls)) + j) - length l0)
      with (length (concat (take k ls)) + j) by lia.
    by apply (IH k j l).
Qed.

(** The message and the date at a place of a group are those of the input
    at the place of the group plus the offset of the group. *)
Lemma detectedGroups_lookup (messages : list Message.t) (options : DetectOptions)
    (w : World) (k j : nat) (g : Group) (message : Message.t) (date : Date) :
  detectedGroups Date_now Date_parse messages options w !! k = Some g →
  groupItems g !! j = Some (message, date) →
  let offset :=
    length (concat (map groupItems
                      (take k (detectedGroups Date_now Date_parse messages options w)))) in
  messages !! (offset + j) = Some message
  ∧ messageDates Date_now Date_parse (clockReads w) messages !! (offset + j) = Some date.
Proof.
  intros Hk Hj offset. apply lookup_zip_Some.
  pose proof (concat_lookup_offset
                (map groupItems (detectedGroups Date_now Date_parse messages options w))
                k j (groupItems g) (message, date)) as H.
  rewrite list_lookup_fmap, Hk in H. specialize (H eq_refl Hj).
  rewrite firstn_map in H. fold offset in H.
  unfold detectedGroups in H at 1. by rewrite groupsOf_items in H.
Qed.

Lemma titleOrSection_nonempty (content : option string) (sectionId : nat) :
  titleOrSection content sectionId ≠ "".
Proof.
  unfold titleOrSection. destruct (extractTitle content) as [[|c t]|]; done.
Qed.

(** X8. Every section [detectSections] returns holds at least one message;
    its topic is that of its first message and its participants are those
    of all its messages; its title is not empty; and its start and end times
    are the dates the loop gave its first and its last message. *)
Theorem detectSections_sections (messages : list Message.t)
    (options : DetectOptions) (w : World) :
  ∃ (refs : list ref) (w' : World) (snapshots : list Snapshot),
    detectSections Date_now Date_parse messages options w = Some (refs, w')
    ∧ sectionsAt w' refs = Some snapshots
    ∧ ∀ (k : nat) (s : ConversationSection.t) (held : list Message.t),
        snapshots !! k = Some (s, held) →
        ∃ first others,
          held = first :: others
          ∧ ConversationSection.topic s = detectTopic (Message.content first)
          ∧ ConversationSection.participants s = extractParticipants held
          ∧ ConversationSection.title s ≠ ""
          ∧ messageDates Date_now Date_parse (clockReads w) messages !! offsetOf snapshots k
            = Some (ConversationSection.startTime s)
          ∧ messageDates Date_now Date_parse (clockReads w) messages
              !! (offsetOf snapshots k + length others)
            = Some (ConversationSection.endTime s).
Proof.
  destruct (detectSections_snapshots Date_now Date_parse messages options w)
    as (refs & w' & Hrun & Hat).
  eexists refs, w', _. split; [exact Hrun|]. split; [exact Hat|].
  intros k s held Hk. rewrite offsetOf_snapshots.
  apply list_lookup_imap_Some in Hk as (g & Hg & Heq).
  injection Heq as -> ->.
  exists (fst (fst g)), (map fst (snd g)). split; [reflexivity|].
  unfold sectionOfGroup.
  cbn [ConversationSection.topic ConversationSection.participants
       ConversationSection.title ConversationSection.startTime
       ConversationSection.endTime].
  split; [reflexivity|]. split; [reflexivity|].
  split; [apply titleOrSection_nonempty|]. split.
  - rewrite <- (Nat.add_0_r (length _)).
    apply (detectedGroups_lookup messages options w k 0 g (fst (fst g))); [done|].
    unfold groupItems. cbn. by destruct (fst g).
  - rewrite length_map.
    apply (detectedGroups_lookup messages options w k (length (snd g)) g
             (fst (groupLast g))); [done|].
    destruct (groupItems_last g) as (before & Hsplit).
    assert (length (snd g) = length before) as ->.
    { apply (f_equal length) in Hsplit. unfold groupItems in Hsplit.
      rewrite length_app in Hsplit. cbn in Hsplit. lia. }
    rewrite Hsplit, list_lookup_middle by done. by destruct (groupLast g).
Qed.

(** X9. Between two consecutive messages a section is opened exactly when
    a trigger fires: the time gap is exceeded, the second message holds a
    marker, or topic changes are watched and the topic changes. Then a
    section begins with the second message; otherwise the two lie side by
    side in one section. *)
Theorem detectSections_triggers (messages : list Message.t)
    (options : DetectOptions) (w : World) (i : nat) (m1 m2 : Message.t)
    (d1 d2 : Date) :
  messages !! i = Some m1 →
  messages !! S i = Some m2 →
  messageDates Date_now Date_parse (clockReads w) messages !! i = Some d1 →
  messageDates Date_now Date_parse (clockReads w) messages !! S i = Some d2 →
  ∃ (refs : list ref) (w' : World) (snapshots : list Snapshot),
    detectSections Date_now Date_parse messages options w = Some (refs, w')
    ∧ sectionsAt w' refs = Some snapshots
    ∧ if isTimedOut d1 d2 (default 30%Q (timeGap options))
         || hasSectionMarker (Message.content m2)
              (default defaultSectionMarkers (sectionMarkers options))
         || (default true (detectTopicChanges options) && hasTopicChange m1 m2)
      then ∃ k s others,
             snapshots !! k = Some (s, m2 :: others)
             ∧ offsetOf snapshots k = S i
      else ∃ k s before after,
             snapshots !! k = Some (s, before ++ m1 :: m2 :: after)
             ∧ offsetOf snapshots k + length before = i.
Proof.
  intros H1 H2 Hd1 Hd2.
  destruct (detectSections_snapshots Date_now Date_parse messages options w)
    as (refs & w' & Hrun & Hat).
  eexists refs, w', _. split; [exact Hrun|]. split; [exact Hat|].
  pose proof (groupsOf_neighbours
                (default 30%Q (timeGap options))
                (default defaultSectionMarkers (sectionMarkers options))
                (default true (detectTopicChanges options))
                (zip messages (messageDates Date_now Date_parse (clockReads w) messages))
                i (m1, d1) (m2, d2)) as Hcut.
  rewrite !lookup_zip_Some in Hcut. specialize (Hcut (conj H1 Hd1) (conj H2 Hd2)).
  cbn zeta in Hcut.
  change (groupsOf _ _ _ (zip messages _))
    with (detectedGroups Date_now Date_parse messages options w) in Hcut.
  unfold startsSection in Hcut. cbn [fst snd] in Hcut.
  destruct (_ || _ || _).
  - destruct Hcut as (k & others & Hk & Hlen).
    exists k, (sectionOfGroup (length (arrays w)) k ((m2, d2), others)),
      (map fst others).
    split; [by rewrite list_lookup_imap, Hk|]. by rewrite offsetOf_snapshots.
  - destruct Hcut as (k & g & before & after & Hk & Hg & Hlen).
    exists k, (sectionOfGroup (length (arrays w)) k g),
      (map fst before), (map fst after).
    split.
    + rewrite list_lookup_imap, Hk. cbn. unfold snapshotOfGroup, groupMessages.
      by rewrite Hg, map_app.
    + by rewrite offsetOf_snapshots, length_map.
Qed.

Lemma offset_mono {A} (ls : list (list A)) (k k' : nat) (l : list A) :
  ls !! k = Some l → k < k' →
  length (concat (take k ls)) + length l ≤ length (concat (take k' ls)).
Proof.
  intros Hk Hlt. replace k' with (S k + (k' - S k)) by lia.
  rewrite <- take_take_drop, concat_app, length_app.
  rewrite (take_S_r _ _ l Hk), concat_app, length_app. cbn [concat].
  rewrite app_nil_r. lia.
Qed.

Lemma sorted_lookup_le (times : list Z) :
  StronglySorted Z.le times →
  ∀ (i j : nat) (a b : Z),
    times !! i = Some a → times !! j = Some b → i ≤ j → (a <= b)%Z.
Proof.
  induction 1 as [|t times Hsorted IH Hall]; intros i j a b Hi Hj Hle; [done|].
  destruct i as [|i], j as [|j]; try lia.
  - injection Hi as ->. injection Hj as ->. lia.
  - injection Hi as ->. rewrite Forall_forall in Hall. apply Hall.
    by eapply list_elem_of_lookup_2.
  - apply (IH i j); [done|done|lia].
Qed.

(** Of two groups cut from messages whose dates are valid and never
    decrease, the later one starts no earlier than the earlier one ends. *)
Lemma detectedGroups_spans (messages : list Message.t) (options : DetectOptions)
    (w : World) (times : list Z) (k k' : nat) (g g' : Group) :
  messageDates Date_now Date_parse (clockReads w) messages = map Some times →
  StronglySorted Z.le times →
  k < k' →
  detectedGroups Date_now Date_parse messages options w !! k = Some g →
  detectedGroups Date_now Date_parse messages options w !! k' = Some g' →
  dateGe (snd (fst g')) (snd (groupLast g)) = true.
Proof.
  intros Hdates Hsorted Hlt Hg Hg'.
  destruct (groupItems_last g) as (before & Hsplit).
  pose proof (detectedGroups_lookup messages options w k (length before) g
                (fst (groupLast g)) (snd (groupLast g)) Hg) as [_ Hend].
  { rewrite Hsplit, list_lookup_middle by done. by destruct (groupLast g). }
  pose proof (detectedGroups_lookup messages options w k' 0 g'
                (fst (fst g')) (snd (fst g')) Hg') as [_ Hstart].
  { unfold groupItems. cbn. by destruct (fst g'). }
  cbn zeta in Hend, Hstart. rewrite Hdates in Hend, Hstart.
  apply list_lookup_fmap_Some in Hend as (tEnd & -> & HtEnd).
  apply list_lookup_fmap_Some in Hstart as (tStart & -> & HtStart).
  cbn [dateGe]. apply Z.leb_le.
  apply (sorted_lookup_le times Hsorted _ _ _ _ HtEnd HtStart).
  pose proof (offset_mono
                (map groupItems (detectedGroups Date_now Date_parse messages options w))
                k k' (groupItems g)) as Hmono.
  rewrite list_lookup_fmap, Hg in Hmono. specialize (Hmono eq_refl Hlt).
  rewrite !firstn_map in Hmono. rewrite Hsplit, length_app in Hmono.
  cbn in Hmono. lia.
Qed.

(** X10. When the dates of the messages are valid and never decrease along
    the input, the sections follow one another in time: a section starts no
    earlier than any section before it ends. *)
Theorem detectSections_spans_ordered (messages : list Message.t)
    (options : DetectOptions) (w : World) (times : list Z) :
  messageDates Date_now Date_parse (clockReads w) messages = map Some times →
  Sorted Z.le times →
  ∃ (refs : list ref) (w' : World) (snapshots : list Snapshot),
    detectSections Date_now Date_parse messages options w = Some (refs, w')
    ∧ sectionsAt w' refs = Some snapshots
    ∧ ∀ (k k' : nat) (s s' : ConversationSection.t) (held held' : list Message.t),
        k < k' →
        snapshots !! k = Some (s, held) →
        snapshots !! k' = Some (s', held') →
        dateGe (ConversationSection.startTime s') (ConversationSection.endTime s)
        = true.
Proof.
  intros Hdates Hsorted.
  apply (Sorted_StronglySorted _) in Hsorted.
  destruct (detectSections_snapshots Date_now Date_parse messages options w)
    as (refs & w' & Hrun & Hat).
  eexists refs, w', _. split; [exact Hrun|]. split; [exact Hat|].
  intros k k' s s' held held' Hlt Hk Hk'.
  apply list_lookup_imap_Some in Hk as (g & Hg & Heq). injection Heq as -> ->.
  apply list_lookup_imap_Some in Hk' as (g' & Hg' & Heq). injection Heq as -> ->.
  unfold sectionOfGroup.
  cbn [ConversationSection.startTime ConversationSection.endTime].
  by apply (detectedGroups_spans messages options w times k k').
Qed.

Lemma clockReadsOf_filter (messages : list Message.t) :
  clockReadsOf messages
  = length (List.filter
              (fun message => negb (timestampTruthy (Message.timestamp message)))
              messages).
Proof.
  induction messages as [|message rest IH]; [done|].
  cbn [clockReadsOf List.filter]. rewrite IH. unfold readsOf.
  by destruct (timestampTruthy _).
Qed.

Lemma length_concat_groupItems (gs : list Group) :
  length gs ≤ length (concat (map groupItems gs)).
Proof.
  induction gs as [|g gs IH]; [done|].
  cbn [map concat]. rewrite length_app. unfold groupItems at 1. cbn. lia.
Qed.

Lemma snapshots_arrays (firstArray : ref) (gs : list Group) :
  map (fun snapshot => ConversationSection.messages (fst snapshot))
      (imap (snapshotOfGroup firstArray) gs)
  = seq firstArray (length gs).
Proof.
  apply list_eq. intros k. rewrite list_lookup_fmap, list_lookup_imap.
  destruct (gs !! k) as [g|] eqn:Hg; cbn.
  - apply lookup_lt_Some in Hg as Hlt. by rewrite lookup_seq_lt.
  - apply lookup_ge_None in Hg. symmetry. apply lookup_ge_None.
    by rewrite length_seq.
Qed.

(** X11. What a call of [detectSections] does to the store: it allocates
    one section object and one array per section it returns, the section
    objects at consecutive fresh references returned in that order, each
    with a fresh array of its own; it reads the clock once for every
    message whose timestamp is falsy and for no other; it returns at most
    as many sections as there are messages, and none only for no message. *)
Theorem detectSections_allocates (messages : list Message.t)
    (options : DetectOptions) (w : World) :
  ∃ (refs : list ref) (w' : World) (snapshots : list Snapshot),
    detectSections Date_now Date_parse messages options w = Some (refs, w')
    ∧ sectionsAt w' refs = Some snapshots
    ∧ refs = seq (length (sectionObjs w)) (length refs)
    ∧ length (sectionObjs w') = length (sectionObjs w) + length refs
    ∧ length (arrays w') = length (arrays w) + length refs
    ∧ map (fun snapshot => ConversationSection.messages (fst snapshot)) snapshots
      = seq (length (arrays w)) (length refs)
    ∧ clockReads w'
      = clockReads w
        + length (List.filter
                    (fun message =>
                       negb (timestampTruthy (Message.timestamp message)))
                    messages)
    ∧ length refs ≤ length messages
    ∧ (refs = [] ↔ messages = []).
Proof.
  pose proof (detectSections_groups Date_now Date_parse messages options w) as Hrun.
  destruct (detectSections_snapshots Date_now Date_parse messages options w)
    as (refs & w' & Hrun' & Hat).
  rewrite Hrun in Hrun'. injection Hrun' as <- <-.
  set (gs := detectedGroups Date_now Date_parse messages options w) in *.
  assert (length gs ≤ length messages) as Hlen.
  { etransitivity; [apply length_concat_groupItems|].
    unfold gs, detectedGroups. rewrite groupsOf_items, length_zip.
    rewrite length_messageDates. lia. }
  eexists _, _, _. split; [exact Hrun|]. split; [exact Hat|].
  rewrite length_seq. unfold worldWith. cbn [sectionObjs arrays clockReads].
  rewrite !length_app, length_imap, length_map, clockReadsOf_filter.
  repeat split; try done.
  - apply snapshots_arrays.
  - intros Hnil. apply (f_equal length) in Hnil. rewrite length_seq in Hnil.
    destruct messages as [|message rest]; [done|]. exfalso.
    pose proof (groupsOf_items (default 30%Q (timeGap options))
                  (default defaultSectionMarkers (sectionMarkers options))
                  (default true (detectTopicChanges options))
                  (zip (message :: rest)
                       (messageDates Date_now Date_parse (clockReads w)
                          (message :: rest)))) as Hitems.
    fold (detectedGroups Date_now Date_parse (message :: rest) options w) in Hitems.
    fold gs in Hitems. destruct gs; [done|done].
  - intros ->. done.
Qed.

End SegmenterFacts.

(** ** More on the raw-text parser *)

Section ParserFacts.

Variable Date_now : nat → Z.

Lemma parseSegment_run (pattern : RegExp.t) (preserve : bool)
    (messages : list Message.t) (index : nat) (segment : string) (w : World) :
  hasGroup1 pattern segment = true →
  parseSegment Date_now pattern preserve messages index segment w
  = Some (messages ++
          (if truthy (Some (cleanedContent pattern segment))
           then [messageOfSegment pattern preserve (Date_now (clockReads w))
                   index segment]
           else []),
          mkWorld (sectionObjs w) (arrays w) (S (clockReads w))).
Proof.
  intros Hgroup.
  unfold parseSegment, bind, readClock, hasGroup1, messageOfSegment,
    cleanedContent, authorOf in *.
  cbn [sectionObjs arrays clockReads Message.content].
  destruct (pattern segment) as [m|].
  - destruct (RegExp.group1 m) as [name|]; [|done].
    cbn [default]. unfold ret.
    destruct (truthy _); [reflexivity|by rewrite app_nil_r].
  - unfold ret. destruct (truthy _); [reflexivity|by rewrite app_nil_r].
Qed.

Lemma parseSegment_throws (pattern : RegExp.t) (preserve : bool)
    (messages : list Message.t) (index : nat) (segment : string) (w : World) :
  hasGroup1 pattern segment = false →
  parseSegment Date_now pattern preserve messages index segment w = None.
Proof.
  unfold parseSegment, bind, readClock, hasGroup1.
  destruct (pattern segment) as [m|]; [|done].
  by destruct (RegExp.group1 m).
Qed.

Lemma parseLoop_throws (pattern : RegExp.t) (preserve : bool) (rest : list string) :
  ∀ (messages : list Message.t) (index : nat) (w : World),
    parseLoop Date_now pattern preserve messages index rest w = None
    ↔ ∃ segment, segment ∈ rest ∧ hasGroup1 pattern segment = false.
Proof.
  induction rest as [|segment rest IH]; intros messages index w; cbn [parseLoop].
  - split; [done|]. by intros (segment & Hin%elem_of_nil & _).
  - destruct (hasGroup1 pattern segment) eqn:Hgroup.
    + rewrite (bind_run _ _ _ _ _ (parseSegment_run _ preserve messages index _ w Hgroup)).
      rewrite IH. split.
      * intros (bad & Hin & Hbad). exists bad. split; [by right|done].
      * intros (bad & Hin & Hbad). exists bad. split; [|done].
        apply elem_of_cons in Hin as [->|Hin]; [congruence|done].
    + unfold bind. rewrite (parseSegment_throws _ _ _ _ _ _ Hgroup).
      split; [|done]. intros _. exists segment. split; [by left|done].
Qed.

Lemma authorFrom_group1 (s : string) :
  ∀ (atLineStart : bool) (skipped : string) (m : RegExp.Match),
    RegExp.authorFrom atLineStart skipped s = Some m →
    is_Some (RegExp.group1 m).
Proof.
  induction s as [|c s IH]; intros atLineStart skipped m; cbn [RegExp.authorFrom].
  - destruct atLineStart; cbn; done.
  - destruct (if atLineStart then RegExp.authorHere (String c s) else None)
      as [[name rest]|].
    + intros [= <-]. by eexists.
    + apply IH.
Qed.

Lemma defaultAuthorPattern_hasGroup1 (segment : string) :
  hasGroup1 RegExp.defaultAuthorPattern segment = true.
Proof.
  unfold hasGroup1.
  destruct (RegExp.defaultAuthorPattern segment) as [m|] eqn:Hm; [|done].
  apply bool_decide_eq_true. by eapply authorFrom_group1.
Qed.

Lemma forallb_false_elem {A} (f : A → bool) (l : list A) :
  forallb f l = false ↔ ∃ x, x ∈ l ∧ f x = false.
Proof.
  induction l as [|a l IH]; cbn [forallb].
  - split; [done|]. by intros (x & Hin%elem_of_nil & _).
  - rewrite andb_false_iff, IH. split.
    + intros [Ha|(x & Hin & Hx)]; [exists a|exists x]; split; try done;
        [by left|by right].
    + intros (x & [->|Hin]%elem_of_cons & Hx); [by left|right; by exists x].
Qed.

(** The message of a segment, as [parseRawConversation] builds it. *)
Lemma parsedFrom_shape (pattern : RegExp.t) (preserve : bool) (rest : list string) :
  ∀ (reads index : nat),
    Forall (fun message =>
              ∃ (j : nat) (segment content author : string),
                rest !! j = Some segment
                ∧ Message.id message = Some (Z.of_nat (index + j))
                ∧ Message.timestamp message = TsDate (Some (Date_now (reads + j)))
                ∧ Message.content message = Some content
                ∧ content ≠ ""
                ∧ trim content = content
                ∧ Message.author message = Some author
                ∧ trim author = author
                ∧ (pattern segment = None → author = "Unknown")
                ∧ Message.user message = None
                ∧ Message.originalContent message
                  = (if preserve then Some segment else None))
           (parsedFrom Date_now pattern preserve reads index rest).
Proof.
  induction rest as [|segment rest IH]; intros reads index; [constructor|].
  cbn [parsedFrom]. apply Forall_app. split.
  - destruct (truthy (Some (cleanedContent pattern segment))) eqn:Hkept;
      [|constructor].
    repeat constructor.
    exists 0, segment, (cleanedContent pattern segment), (authorOf pattern segment).
    rewrite !Nat.add_0_r. unfold messageOfSegment. cbn.
    split_and!; try done.
    + intros Hempty. rewrite Hempty in Hkept. done.
    + unfold cleanedContent. destruct (pattern segment); apply trim_idempotent.
    + unfold authorOf. destruct (pattern segment); [apply trim_idempotent|done].
    + unfold authorOf. by intros ->.
  - eapply Forall_impl; [apply (IH (S reads) (S index))|].
    intros message (j & seg & content & author & Hj & Hid & Hts & Hrest).
    exists (S j), seg, content, author.
    rewrite <- !Nat.add_succ_comm.
    destruct Hrest as (? & ? & ? & ? & ? & ? & ? & ?). by split_and!.
Qed.

(** X12. Where the author pattern has a capture group 1 on every segment
    it matches, [parseRawConversation] returns, leaves the sections and the
    arrays of the store as they are, and reads the clock once for every
    segment, the dropped ones included. Each message it returns comes from
    one segment: its id is the index of the segment and its timestamp the
    reading of the clock taken for that segment; its content is trimmed and
    not empty; its author is trimmed, and is [Unknown] where the pattern
    does not match; it has no field [user]; and it keeps the segment as
    [originalContent] exactly when formatting is preserved. *)
Theorem parseRawConversation_messages (text : string) (options : ParseOptions)
    (w : World) :
  let pattern := default RegExp.defaultAuthorPattern (authorPattern options) in
  let segments := segmentsOf (default "

" (delimiter options)) text in
  forallb (hasGroup1 pattern) segments = true →
  ∃ (messages : list Message.t) (w' : World),
    parseRawConversation Date_now text options w = Some (messages, w')
    ∧ sectionObjs w' = sectionObjs w
    ∧ arrays w' = arrays w
    ∧ clockReads w' = clockReads w + length segments
    ∧ Forall (fun message =>
                ∃ (j : nat) (segment content author : string),
                  segments !! j = Some segment
                  ∧ Message.id message = Some (Z.of_nat j)
                  ∧ Message.timestamp message
                    = TsDate (Some (Date_now (clockReads w + j)))
                  ∧ Message.content message = Some content
                  ∧ content ≠ ""
                  ∧ trim content = content
                  ∧ Message.author message = Some author
                  ∧ trim author = author
                  ∧ (pattern segment = None → author = "Unknown")
                  ∧ Message.user message = None
                  ∧ Message.originalContent message
                    = (if default true (preserveFormatting options)
                       then Some segment else None))
             messages.
Proof.
  intros pattern segments Hgroups. unfold parseRawConversation.
  destruct (truthy (Some text)) eqn:Htext; cbn [negb].
  - destruct w as [os ars k]. fold pattern. fold segments.
    rewrite (parseLoop_parsedFrom _ _ _ _ _ _ _ _ _ Hgroups). cbn [app].
    eexists _, _. split; [reflexivity|]. cbn [sectionObjs arrays clockReads].
    split_and!; try done.
    apply (parsedFrom_shape pattern _ segments k 0).
  - destruct text as [|c text]; [|done].
    assert (segments = []) as ->.
    { unfold segments, segmentsOf, split.
      by destruct (String.eqb _ ""). }
    exists [], w. cbn [length]. rewrite Nat.add_0_r. by repeat split.
Qed.

(** X13. [parseRawConversation] throws exactly when the author pattern
    matches some segment without setting capture group 1, of which the
    author is read; with the default pattern it never throws. *)
Theorem parseRawConversation_throws (text : string) (options : ParseOptions)
    (w : World) :
  let pattern := default RegExp.defaultAuthorPattern (authorPattern options) in
  let segments := segmentsOf (default "

" (delimiter options)) text in
  (parseRawConversation Date_now text options w = None
   ↔ ∃ segment, segment ∈ segments ∧ hasGroup1 pattern segment = false)
  ∧ (authorPattern options = None →
     is_Some (parseRawConversation Date_now text options w)).
Proof.
  intros pattern segments.
  assert (parseRawConversation Date_now text options w = None
          ↔ ∃ segment, segment ∈ segments ∧ hasGroup1 pattern segment = false)
    as Hthrows.
  { unfold parseRawConversation.
    destruct (truthy (Some text)) eqn:Htext; cbn [negb].
    - apply parseLoop_throws.
    - destruct text as [|c text]; [|done].
      assert (segments = []) as ->.
      { unfold segments, segmentsOf, split.
        by destruct (String.eqb _ ""). }
      split; [done|]. by intros (segment & Hin%elem_of_nil & _). }
  split; [exact Hthrows|].
  intros Hdefault.
  apply not_eq_None_Some. intros Hrun.
  apply Hthrows in Hrun as (segment & _ & Hbad).
  unfold pattern in Hbad. rewrite Hdefault in Hbad. cbn [default] in Hbad.
  by rewrite defaultAuthorPattern_hasGroup1 in Hbad.
Qed.

End ParserFacts.

(** ** Sets of participants *)

Lemma uniqueInOrder_snoc (xs : list string) (x : string) :
  uniqueInOrder (xs ++ [x])
  = if bool_decide (x ∈ uniqueInOrder xs)
    then uniqueInOrder xs else uniqueInOrder xs ++ [x].
Proof. unfold uniqueInOrder. by rewrite fold_left_app. Qed.

Lemma setAdd_fold_elem (xs : list string) :
  ∀ (seen : list string) (x : string),
    x ∈ fold_left
          (fun seen x => if bool_decide (x ∈ seen) then seen else seen ++ [x])
          xs seen
    ↔ x ∈ seen ∨ x ∈ xs.
Proof.
  induction xs as [|y xs IH]; intros seen x; cbn [fold_left].
  - rewrite elem_of_nil. tauto.
  - rewrite IH, elem_of_cons. destruct (bool_decide (y ∈ seen)) eqn:Hy.
    + apply bool_decide_eq_true in Hy. split; [tauto|].
      intros [?|[->|?]]; tauto.
    + rewrite elem_of_app, list_elem_of_singleton. tauto.
Qed.

(** Adding a list to a set, or the list without its repetitions: the same
    set, in the same order. *)
Lemma setAdd_fold_unique (xs : list string) :
  ∀ seen : list string,
    fold_left (fun seen x => if bool_decide (x ∈ seen) then seen else seen ++ [x])
              (uniqueInOrder xs) seen
    = fold_left (fun seen x => if bool_decide (x ∈ seen) then seen else seen ++ [x])
                xs seen.
Proof.
  induction xs as [|x xs IH] using rev_ind; intros seen; [done|].
  rewrite uniqueInOrder_snoc, (fold_left_app _ xs).
  cbn [fold_left]. destruct (bool_decide (x ∈ uniqueInOrder xs)) eqn:Hx.
  - apply bool_decide_eq_true in Hx. rewrite elem_of_uniqueInOrder in Hx.
    rewrite IH. rewrite bool_decide_eq_true_2; [done|].
    apply setAdd_fold_elem. by right.
  - by rewrite fold_left_app, IH.
Qed.

Lemma setAdd_fold_concat (lists : list (list string)) :
  ∀ seen : list string,
    fold_left (fun seen x => if bool_decide (x ∈ seen) then seen else seen ++ [x])
              (concat (map uniqueInOrder lists)) seen
    = fold_left (fun seen x => if bool_decide (x ∈ seen) then seen else seen ++ [x])
                (concat lists) seen.
Proof.
  induction lists as [|xs lists IH]; intros seen; [done|].
  cbn [map concat]. by rewrite !fold_left_app, setAdd_fold_unique, IH.
Qed.

Lemma uniqueInOrder_concat (lists : list (list string)) :
  uniqueInOrder (concat (map uniqueInOrder lists)) = uniqueInOrder (concat lists).
Proof. apply setAdd_fold_concat. Qed.

(** ** More on the section merger *)







Lemma fusedWorld_sectionAt_other (w : World) (lastRef r : ref)
    (lastSection currentSection s : ConversationSection.t)
    (kept pushed held : list Message.t) :
  r ≠ lastRef →
  ConversationSection.messages s ≠ ConversationSection.messages lastSection →
  sectionAt w r = Some (s, held) →
  sectionAt (fusedWorld w lastRef lastSection currentSection kept pushed) r
  = Some (s, held).
Proof.
  intros Hr Hs [Hobj Harr]%sectionAt_Some. apply sectionAt_Some.
  unfold fusedWorld. cbn [sectionObjs arrays].
  by rewrite !list_lookup_insert_ne.
Qed.

Lemma fusedWorld_others (w : World) (lastRef : ref)
    (lastSection currentSection : ConversationSection.t)
    (kept pushed : list Message.t) (refs : list ref) (snapshots : list Snapshot) :
  Forall2 (fun r x => sectionAt w r = Some x) refs snapshots →
  lastRef ∉ refs →
  ConversationSection.messages lastSection
    ∉ map (fun x => ConversationSection.messages (fst x)) snapshots →
  Forall2 (fun r x =>
             sectionAt (fusedWorld w lastRef lastSection currentSection kept pushed) r
             = Some x)
          refs snapshots.
Proof.
  induction 1 as [|r [s held] refs snapshots Hr Hrest IH]; intros Href Harr;
    [constructor|].
  apply not_elem_of_cons in Href as [Hne Href].
  cbn [map fst] in Harr. apply not_elem_of_cons in Harr as [Hne' Harr].
  constructor; [|by apply IH].
  by apply fusedWorld_sectionAt_other.
Qed.

Lemma NoDup_without_second {A} (a b : list A) (x y : A) :
  NoDup (a ++ x :: y :: b) →
  NoDup (a ++ x :: b) ∧ (x ∉ a) ∧ (x ∉ b).
Proof.
  rewrite !NoDup_app, !NoDup_cons. intros (Ha & Hab & Hx & Hy & Hb).
  rewrite not_elem_of_cons in Hx. destruct Hx as [Hxy Hxb].
  split_and!; try done.
  - intros z Hz. specialize (Hab z Hz). rewrite !not_elem_of_cons in *. tauto.
  - intros Hxa. specialize (Hab x Hxa). apply Hab. by left.
Qed.

Lemma sameTotals_fuse (before after : list Snapshot)
    (lastSection currentSection : ConversationSection.t)
    (kept pushed : list Message.t) :
  sameTotals
    (before ++ (fusedSection lastSection currentSection, kept ++ pushed) :: after)
    (before ++ (lastSection, kept) :: (currentSection, pushed) :: after).
Proof.
  unfold sameTotals. split_and!.
  - rewrite !map_app, !concat_app. cbn [map concat snd].
    by rewrite <- !app_assoc.
  - rewrite !length_app. cbn [length]. lia.
  - unfold uniqueInOrder. rewrite !map_app, !concat_app, !fold_left_app.
    cbn [map concat fst]. rewrite !fold_left_app. f_equal.
    unfold fusedSection, ConversationSection.setParticipants.
    cbn [ConversationSection.participants].
    by rewrite setAdd_fold_unique, fold_left_app.
  - by destruct before.
  - rewrite !last_app, !last_cons. by destruct (last after).
Qed.

Lemma sameTotals_trans (a b c : list Snapshot) :
  sameTotals a b → sameTotals b c → sameTotals a c.
Proof.
  unfold sameTotals.
  intros (Ha1 & Ha2 & Ha3 & Ha4 & Ha5) (Hb1 & Hb2 & Hb3 & Hb4 & Hb5).
  split_and!; [congruence|lia|congruence|congruence|congruence].
Qed.

(** The loop of the merger moves messages from one held array to another
    and never drops or repeats one, when the sections are distinct objects
    with distinct arrays. *)
Lemma mergeLoop_keeps (threshold : Q) (rest : list ref) :
  ∀ (merged : list ref) (lastRef : ref) (w : World) (snapshots : list Snapshot),
    Forall2 (fun r x => sectionAt w r = Some x) (merged ++ lastRef :: rest)
            snapshots →
    NoDup (merged ++ lastRef :: rest) →
    NoDup (map (fun x => ConversationSection.messages (fst x)) snapshots) →
    ∃ (out : list ref) (w' : World) (fused : list Snapshot),
      mergeLoop threshold (merged ++ [lastRef]) rest w = Some (out, w')
      ∧ Forall2 (fun r x => sectionAt w' r = Some x) out fused
      ∧ sameTotals fused snapshots.
Proof.
  induction rest as [|current rest IH];
    intros merged lastRef w snapshots Hat Hrefs Harrays.
  - exists (merged ++ [lastRef]), w, snapshots.
    split; [done|]. split; [done|]. unfold sameTotals. by split_and!.
  - pose proof Hat as Hat0.
    apply Forall2_app_inv_l in Hat as (sm & tail & Hm & Htail & ->).
    apply Forall2_cons_inv_l in Htail as ([lastSection kept] & tail' & Hl & Htail & ->).
    apply Forall2_cons_inv_l in Htail as ([currentSection pushed] & sr & Hc & Hr & ->).
    pose proof Hl as [Hlobj Hlarr]%sectionAt_Some.
    pose proof Hc as [Hcobj Hcarr]%sectionAt_Some.
    cbn [mergeLoop].
    destruct (Qle_bool threshold (similarityOf lastSection currentSection))
      eqn:Hsim.
    + rewrite (bind_run _ _ _ _ _
                 (mergeStep_fuse threshold (merged ++ [lastRef]) lastRef current w
                    lastSection currentSection kept pushed (last_snoc _ _)
                    Hlobj Hcobj Hlarr Hcarr Hsim)).
      apply NoDup_without_second in Hrefs as (Hrefs & Hlm & Hlr).
      rewrite map_app in Harrays. cbn [map fst] in Harrays.
      apply NoDup_without_second in Harrays as (Harrays & Ham & Har).
      destruct (IH merged lastRef
                  (fusedWorld w lastRef lastSection currentSection kept pushed)
                  (sm ++ (fusedSection lastSection currentSection, kept ++ pushed)
                      :: sr))
        as (out & w' & fused & Hrun & Hfused & Hsame).
      * apply Forall2_app; [by apply fusedWorld_others|].
        constructor; [by apply fusedWorld_sectionAt|].
        by apply fusedWorld_others.
      * exact Hrefs.
      * rewrite map_app. exact Harrays.
      * exists out, w', fused. split; [exact Hrun|]. split; [exact Hfused|].
        eapply sameTotals_trans; [exact Hsame|apply sameTotals_fuse].
    + rewrite (bind_run _ _ _ _ _
                 (mergeStep_append threshold (merged ++ [lastRef]) lastRef current w
                    lastSection currentSection (last_snoc _ _) Hlobj Hcobj Hsim)).
      apply (IH (merged ++ [lastRef]) current w); [|by rewrite <- app_assoc|done].
      by rewrite <- app_assoc.
Qed.

Lemma mergeSimilarSections_totals (refs : list ref) (threshold : option Q)
    (w : World) (snapshots : list Snapshot) :
  sectionsAt w refs = Some snapshots →
  NoDup refs →
  NoDup (map (fun x => ConversationSection.messages (fst x)) snapshots) →
  ∃ (out : list ref) (w' : World) (fused : list Snapshot),
    mergeSimilarSections refs threshold w = Some (out, w')
    ∧ sectionsAt w' out = Some fused
    ∧ sameTotals fused snapshots.
Proof.
  unfold sectionsAt. rewrite mapM_Some. intros Hat Hrefs Harrays.
  unfold mergeSimilarSections.
  assert (sameTotals snapshots snapshots) as Hrefl.
  { unfold sameTotals. by split_and!. }
  destruct refs as [|first [|second rest]].
  - exists [], w, snapshots. by rewrite mapM_Some.
  - exists [first], w, snapshots. by rewrite mapM_Some.
  - destruct (mergeLoop_keeps (default 0.7%Q threshold) (second :: rest) [] first
                w snapshots Hat Hrefs Harrays)
      as (out & w' & fused & Hrun & Hfused & Hsame).
    exists out, w', fused. by rewrite mapM_Some.
Qed.

(** X15. Merging loses no message and repeats none: when the sections
    given are distinct objects, each with an array of messages of its own,
    the messages held by the sections returned, read in order, are the
    messages held by the sections given, read in order. *)
Theorem mergeSimilarSections_keeps_messages (refs : list ref)
    (threshold : option Q) (w : World) (snapshots : list Snapshot) :
  sectionsAt w refs = Some snapshots →
  NoDup refs →
  NoDup (map (fun x => ConversationSection.messages (fst x)) snapshots) →
  ∃ (out : list ref) (w' : World) (fused : list Snapshot),
    mergeSimilarSections refs threshold w = Some (out, w')
    ∧ sectionsAt w' out = Some fused
    ∧ concat (map snd fused) = concat (map snd snapshots).
Proof.
  unfold sectionsAt. rewrite mapM_Some. intros Hat Hrefs Harrays.
  unfold mergeSimilarSections.
  destruct refs as [|first [|second rest]].
  - exists [], w, snapshots. by rewrite mapM_Some.
  - exists [first], w, snapshots. by rewrite mapM_Some.
  - destruct (mergeLoop_keeps (default 0.7%Q threshold) (second :: rest) [] first
                w snapshots Hat Hrefs Harrays)
      as (out & w' & fused & Hrun & Hfused & Hconcat & _).
    exists out, w', fused. by rewrite mapM_Some.
Qed.

(** X16. The distinctness is needed: a section given twice is fused with
    itself, and then holds each of its messages twice. *)
Theorem mergeSimilarSections_same_section (r : ref) (threshold : option Q)
    (w : World) (s : ConversationSection.t) (held : list Message.t) :
  sectionAt w r = Some (s, held) →
  (default 0.7%Q threshold <= 1)%Q →
  ∃ (w' : World) (s' : ConversationSection.t),
    mergeSimilarSections [r; r] threshold w = Some ([r], w')
    ∧ sectionAt w' r = Some (s', held ++ held).
Proof.
  intros Hat Hth. pose proof Hat as [Hobj Harr]%sectionAt_Some.
  exists (fusedWorld w r s s held held), (fusedSection s s).
  split; [|by apply fusedWorld_sectionAt].
  unfold mergeSimilarSections. cbn [mergeLoop].
  rewrite (bind_run _ _ _ _ _
             (mergeStep_fuse (default 0.7%Q threshold) [r] r r w s s held held
                eq_refl Hobj Hobj Harr Harr
                (similarityOf_equal s s _ eq_refl Hth))).
  reflexivity.
Qed.

(** ** The functions composed *)

Section Pipelines.

Variable Date_now : nat → Z.
Variable Date_parse : string → Date.

(** X17. [detectSections] followed by [mergeSimilarSections]: the merger
    runs on the sections the segmenter returns, whatever the threshold; the
    sections it returns, their messages read in order, still hold the input
    list, every message once and in its place; and the cells the store had
    before the two calls are as they were. *)
Theorem detect_then_merge (messages : list Message.t) (options : DetectOptions)
    (threshold : option Q) (w : World) :
  ∃ (refs : list ref) (w1 : World) (out : list ref) (w2 : World)
    (fused : list Snapshot),
    detectSections Date_now Date_parse messages options w = Some (refs, w1)
    ∧ mergeSimilarSections refs threshold w1 = Some (out, w2)
    ∧ sectionsAt w2 out = Some fused
    ∧ concat (map snd fused) = messages
    ∧ (∀ r s, sectionObjs w !! r = Some s → sectionObjs w2 !! r = Some s)
    ∧ (∀ a held, arrays w !! a = Some held → arrays w2 !! a = Some held).
Proof.
  pose proof (detectSections_groups Date_now Date_parse messages options w) as Hrun.
  destruct (detectSections_snapshots Date_now Date_parse messages options w)
    as (refs & w1 & Hrun' & Hat).
  rewrite Hrun in Hrun'. injection Hrun' as <- <-.
  set (gs := detectedGroups Date_now Date_parse messages options w) in *.
  set (w1 := worldWith w gs (clockReadsOf messages)) in *.
  destruct (mergeSimilarSections_totals _ threshold w1 _ Hat) as
    (out & w2 & fused & Hmerge & Hfused & Hconcat & _).
  { apply NoDup_seq. }
  { rewrite snapshots_arrays. apply NoDup_seq. }
  exists (seq (length (sectionObjs w)) (length gs)), w1, out, w2, fused.
  split; [exact Hrun|]. split; [exact Hmerge|]. split; [exact Hfused|].
  split.
  { rewrite Hconcat, map_snd_snapshots. apply detectedGroups_messages. }
  assert (out ⊆ seq (length (sectionObjs w)) (length gs)) as Hsub.
  { unfold mergeSimilarSections in Hmerge.
    destruct (seq _ _) as [|first [|second rest]];
      [by injection Hmerge as <- _|by injection Hmerge as <- _|].
    by apply mergeLoop_subset in Hmerge. }
  destruct (mergeSimilarSections_frame _ _ _ _ _ Hmerge)
    as (_ & _ & _ & Hobjs & Harrs).
  split.
  - intros r s Hr.
    destruct (Hobjs r s) as (s' & Hs' & _ & Hsame).
    { unfold w1, worldWith. cbn [sectionObjs]. by apply lookup_app_l_Some. }
    rewrite Hs', Hsame; [done|].
    intros Hin%Hsub%elem_of_seq. apply lookup_lt_Some in Hr. lia.
  - intros a held Ha.
    destruct (Harrs a held) as (held' & Hheld' & _ & Hsame).
    { unfold w1, worldWith. cbn [arrays]. by apply lookup_app_l_Some. }
    rewrite Hheld', Hsame; [done|].
    intros r s Hin%Hsub%elem_of_seq Hs. apply lookup_lt_Some in Ha.
    unfold w1, worldWith in Hs. cbn [sectionObjs] in Hs.
    rewrite lookup_app_r in Hs by lia.
    apply list_lookup_imap_Some in Hs as (g & _ & ->).
    unfold sectionOfGroup. cbn [ConversationSection.messages]. lia.
Qed.

Lemma parsedFrom_dates (pattern : RegExp.t) (preserve : bool) (rest : list string) :
  (∀ i j, i ≤ j → (Date_now i <= Date_now j)%Z) →
  ∀ (reads index from : nat),
    ∃ times,
      messageDates Date_now Date_parse from
        (parsedFrom Date_now pattern preserve reads index rest)
      = map Some times
      ∧ Forall (fun t => (Date_now reads <= t)%Z) times
      ∧ StronglySorted Z.le times
      ∧ clockReadsOf (parsedFrom Date_now pattern preserve reads index rest) = 0.
Proof.
  intros Hclock.
  induction rest as [|segment rest IH]; intros reads index from.
  - exists []. by repeat constructor.
  - cbn [parsedFrom].
    destruct (IH (S reads) (S index) from) as (times & Hdates & Hafter & Hsorted & Hreads).
    assert (Forall (fun t => (Date_now reads <= t)%Z) times) as Hafter'.
    { eapply Forall_impl; [exact Hafter|]. intros t Ht. cbn beta in *.
      pose proof (Hclock reads (S reads)). lia. }
    destruct (truthy (Some (cleanedContent pattern segment))).
    + exists (Date_now reads :: times). cbn [app messageDates clockReadsOf map].
      unfold dateOf, readsOf, messageOfSegment. cbn.
      rewrite Nat.add_0_r, Hdates, Hreads. split_and!; try done.
      * constructor; [lia|done].
      * by constructor.
    + exists times. by split_and!.
Qed.

(** X18. [parseRawConversation] followed by [detectSections]: every
    message parsed carries a date of its own, so the segmenter reads the
    clock for none of them; its sections hold the parsed messages, every one
    once and in its place; and when the clock never runs backwards, every
    section ends no earlier than it starts and starts no earlier than the
    sections before it end. *)
Theorem parse_then_detect (text : string) (parseOptions : ParseOptions)
    (options : DetectOptions) (w : World) :
  let pattern := default RegExp.defaultAuthorPattern (authorPattern parseOptions) in
  let segments := segmentsOf (default "

" (delimiter parseOptions)) text in
  forallb (hasGroup1 pattern) segments = true →
  (∀ i j, i ≤ j → (Date_now i <= Date_now j)%Z) →
  ∃ (messages : list Message.t) (w1 : World) (refs : list ref) (w2 : World)
    (snapshots : list Snapshot),
    parseRawConversation Date_now text parseOptions w = Some (messages, w1)
    ∧ detectSections Date_now Date_parse messages options w1 = Some (refs, w2)
    ∧ sectionsAt w2 refs = Some snapshots
    ∧ concat (map snd snapshots) = messages
    ∧ clockReads w2 = clockReads w1
    ∧ (∀ (s : ConversationSection.t) (held : list Message.t),
         (s, held) ∈ snapshots →
         dateGe (ConversationSection.endTime s) (ConversationSection.startTime s)
         = true)
    ∧ (∀ (k k' : nat) (s s' : ConversationSection.t) (held held' : list Message.t),
         k < k' →
         snapshots !! k = Some (s, held) →
         snapshots !! k' = Some (s', held') →
         dateGe (ConversationSection.startTime s') (ConversationSection.endTime s)
         = true).
Proof.
  intros pattern segments Hgroups Hclock.
  assert (∃ reads rest,
            parseRawConversation Date_now text parseOptions w
            = Some (parsedFrom Date_now pattern
                      (default true (preserveFormatting parseOptions)) reads 0 rest,
                    mkWorld (sectionObjs w) (arrays w) (clockReads w + length rest)))
    as (reads & rest & Hparse).
  { unfold parseRawConversation.
    destruct (truthy (Some text)) eqn:Htext; cbn [negb].
    - destruct w as [os ars k]. fold pattern. fold segments.
      rewrite (parseLoop_parsedFrom _ _ _ _ _ _ _ _ _ Hgroups). cbn [app].
      by exists k, segments.
    - exists 0, []. cbn. unfold ret. rewrite Nat.add_0_r. by destruct w. }
  set (messages := parsedFrom _ _ _ _ _ _) in Hparse.
  set (w1 := mkWorld _ _ _) in Hparse.
  destruct (parsedFrom_dates pattern (default true (preserveFormatting parseOptions))
              rest Hclock reads 0 (clockReads w1))
    as (times & Hdates & _ & Hsorted & Hreads).
  fold messages in Hdates, Hreads.
  pose proof (detectSections_groups Date_now Date_parse messages options w1) as Hrun.
  destruct (detectSections_snapshots Date_now Date_parse messages options w1)
    as (refs & w2 & Hrun' & Hat).
  rewrite Hrun in Hrun'. injection Hrun' as <- <-.
  eexists messages, w1, _, _, _.
  split; [exact Hparse|]. split; [exact Hrun|]. split; [exact Hat|].
  split; [rewrite map_snd_snapshots; apply detectedGroups_messages|].
  split; [unfold worldWith; cbn [clockReads]; rewrite Hreads; lia|].
  split.
  - intros s held (k & g & Heq & Hg)%elem_of_lookup_imap_1.
    injection Heq as -> ->. unfold sectionOfGroup.
    cbn [ConversationSection.endTime ConversationSection.startTime].
    apply (group_dates_ordered
             (detectedGroups Date_now Date_parse messages options w1) g times).
    + unfold detectedGroups. rewrite groupsOf_items.
      change (map snd (zip messages
                         (messageDates Date_now Date_parse (clockReads w1) messages)))
        with ((zip messages
                 (messageDates Date_now Date_parse (clockReads w1) messages)).*2).
      rewrite snd_zip by (by rewrite length_messageDates). exact Hdates.
    + exact Hsorted.
    + by eapply list_elem_of_lookup_2.
  - intros k k' s s' held held' Hlt Hk Hk'.
    apply list_lookup_imap_Some in Hk as (g & Hg & Heq). injection Heq as -> ->.
    apply list_lookup_imap_Some in Hk' as (g' & Hg' & Heq). injection Heq as -> ->.
    unfold sectionOfGroup.
    cbn [ConversationSection.startTime ConversationSection.endTime].
    by apply (detectedGroups_spans Date_now Date_parse messages options w1 times k k').
Qed.

End Pipelines.

(** ** The summary of sections *)

Lemma summaryLoop_run (rest : list ref) (w : World) (snapshots : list Snapshot) :
  Forall2 (fun r x => sectionAt w r = Some x) rest snapshots →
  ∀ (totalMessages : nat) (allParticipants : list string)
    (topicCounts : option JsObject.t),
    summaryLoop (totalMessages, allParticipants, topicCounts) rest w
    = Some ((totalMessages + length (concat (map snd snapshots)),
             fold_left
               (fun seen x => if bool_decide (x ∈ seen) then seen else seen ++ [x])
               (concat (map (fun x => ConversationSection.participants (fst x))
                            snapshots))
               allParticipants,
             fold_left countTopic
               (map (fun x => ConversationSection.topic (fst x)) snapshots)
               topicCounts),
            w).
Proof.
  induction 1 as [|r [s held] rest snapshots [Hobj Harr]%sectionAt_Some _ IH];
    intros totalMessages allParticipants topicCounts.
  - cbn. unfold ret. by rewrite Nat.add_0_r.
  - cbn [summaryLoop summaryStep]. unfold bind at 1.
    unfold bind at 1. rewrite (readSection_run _ _ _ Hobj). cbv beta iota.
    unfold bind at 1. rewrite (readArray_run _ _ _ Harr). cbv beta iota.
    unfold ret at 1. rewrite IH. cbn [map concat fst snd].
    by rewrite length_app, Nat.add_assoc, fold_left_app.
Qed.

Lemma summaryLoop_inv (rest : list ref) :
  ∀ (state state' : nat * list string * option JsObject.t) (w w' : World),
    summaryLoop state rest w = Some (state', w') →
    Forall (fun r => is_Some (sectionAt w r)) rest.
Proof.
  induction rest as [|r rest IH]; intros [[n ps] tc] state' w w' Hrun;
    [constructor|].
  cbn [summaryLoop summaryStep] in Hrun. unfold bind at 1 in Hrun.
  unfold bind at 1, readSection at 1 in Hrun.
  destruct (sectionObjs w !! r) as [s|] eqn:Hobj; [|done]. cbv beta iota in Hrun.
  unfold bind at 1, readArray at 1 in Hrun.
  destruct (arrays w !! ConversationSection.messages s) as [held|] eqn:Harr;
    [|done].
  cbv beta iota in Hrun. unfold ret at 1 in Hrun.
  constructor; [|by eapply IH].
  exists (s, held). by apply sectionAt_Some.
Qed.

Lemma last_Forall2 {A B} (P : A → B → Prop) (l : list A) (k : list B) :
  Forall2 P l k →
  ∀ (a : A) (b : B), P a b → P (List.last l a) (List.last k b).
Proof.
  induction 1 as [|x y l k Hxy Hrest IH]; intros a b Hab; [done|].
  destruct Hrest as [|x' y' l k Hxy' Hrest]; [done|].
  change (P (List.last (x' :: l) a) (List.last (y' :: k) b)). by apply IH.
Qed.

(** The summary the code builds from the store is that of the snapshots
    of the sections, and the store is as it was. *)
Lemma generateSectionSummary_summaryOf (refs : list ref) (w : World)
    (snapshots : list Snapshot) :
  sectionsAt w refs = Some snapshots →
  generateSectionSummary refs w = Some (summaryOf snapshots, w).
Proof.
  unfold sectionsAt. rewrite mapM_Some. intros Hat.
  destruct Hat as [|firstRef first refs snapshots Hfirst Hrest]; [done|].
  assert (Forall2 (fun r x => sectionAt w r = Some x)
            (firstRef :: refs) (first :: snapshots)) as Hat by (by constructor).
  unfold generateSectionSummary.
  rewrite (bind_run _ _ _ _ _ (summaryLoop_run _ _ _ Hat 0 [] (Some []))).
  pose proof Hfirst as Hobj. destruct first as [firstSection firstHeld].
  apply sectionAt_Some in Hobj as [Hobj _].
  unfold bind at 1. rewrite (readSection_run _ _ _ Hobj). cbv beta iota.
  assert (sectionObjs w !! List.last (firstRef :: refs) firstRef
          = Some (fst (List.last ((firstSection, firstHeld) :: snapshots)
                         (firstSection, firstHeld)))) as Hlast.
  { apply (last_Forall2 (fun r x => sectionObjs w !! r = Some (fst x)));
      [|exact Hobj].
    eapply Forall2_impl; [exact Hat|]. intros r [s held] Hr.
    by apply sectionAt_Some in Hr as [? _]. }
  unfold bind at 1. rewrite (readSection_run _ _ _ Hlast). cbv beta iota.
  unfold ret, summaryOf, topicHistogram, uniqueInOrder.
  by rewrite !length_cons, (Forall2_length _ _ _ Hrest).
Qed.

(** *** The stable sort *)

Section StableSort.

Context {A : Type}.
Variable precedes : A → A → bool.

Lemma insertSorted_Permutation (e : A) (l : list A) :
  insertSorted precedes e l ≡ₚ e :: l.
Proof.
  induction l as [|x l IH]; cbn [insertSorted]; [done|].
  destruct (precedes x e); [|done].
  rewrite IH. apply Permutation_swap.
Qed.

Lemma stableSort_Permutation (l : list A) : stableSort precedes l ≡ₚ l.
Proof.
  induction l as [|e l IH]; [done|].
  unfold stableSort in *. cbn [foldr].
  by rewrite insertSorted_Permutation, IH.
Qed.

(** What is sorted: no element strictly precedes an earlier one. *)
Lemma stableSort_sorted (l : list A) :
  (∀ a b, precedes a b = true → precedes b a = false) →
  (∀ a b c, precedes b a = false → precedes c b = false → precedes c a = false) →
  StronglySorted (fun a b => precedes b a = false) (stableSort precedes l).
Proof.
  intros Hasym Htrans.
  induction l as [|e l IH]; [constructor|].
  unfold stableSort in *. cbn [foldr].
  induction IH as [|x sorted Hsorted IH' Hall]; cbn [insertSorted].
  - by repeat constructor.
  - destruct (precedes x e) eqn:Hxe.
    + constructor; [exact IH'|].
      rewrite insertSorted_Permutation. constructor; [by apply Hasym|done].
    + constructor; [by constructor|]. constructor; [done|].
      eapply Forall_impl; [exact Hall|]. intros y Hy. by apply (Htrans e x y).
Qed.

(** Elements none of which precedes another keep their order. *)
Lemma stableSort_stable (keep : A → bool) (l : list A) :
  (∀ a b, keep a = true → keep b = true → precedes a b = false) →
  List.filter keep (stableSort precedes l) = List.filter keep l.
Proof.
  intros Hkeep.
  assert (∀ e sorted,
            List.filter keep (insertSorted precedes e sorted)
            = List.filter keep (e :: sorted)) as Hinsert.
  { intros e sorted. induction sorted as [|x sorted IH]; [done|].
    cbn [insertSorted]. destruct (precedes x e) eqn:Hxe; [|done].
    cbn [List.filter] in *. rewrite IH.
    destruct (keep e) eqn:He, (keep x) eqn:Hx; try done.
    by rewrite (Hkeep x e Hx He) in Hxe. }
  induction l as [|e l IH]; [done|].
  unfold stableSort in *. cbn [foldr]. rewrite Hinsert.
  cbn [List.filter]. by rewrite IH.
Qed.

End StableSort.

(** *** The table of counts *)

Lemma getOwn_map (key : string) (count : string → nat) (keys : list string) :
  JsObject.getOwn key (map (fun k => (k, count k)) keys)
  = if bool_decide (key ∈ keys) then Some (count key) else None.
Proof.
  unfold JsObject.getOwn.
  induction keys as [|k keys IH]; [done|].
  cbn [map List.find fst]. destruct (String.eqb k key) eqn:Heq.
  - apply String.eqb_eq in Heq as ->.
    rewrite bool_decide_eq_true_2 by (by left). done.
  - apply String.eqb_neq in Heq. rewrite IH.
    destruct (bool_decide (key ∈ keys)) eqn:Hin.
    + apply bool_decide_eq_true in Hin.
      by rewrite bool_decide_eq_true_2 by (by right).
    + apply bool_decide_eq_false in Hin.
      rewrite bool_decide_eq_false_2; [done|].
      intros [->|?]%elem_of_cons; done.
Qed.

Lemma set_map_new (key : string) (value : nat) (count : string → nat)
    (keys : list string) :
  key ∉ keys →
  JsObject.set key value (map (fun k => (k, count k)) keys)
  = map (fun k => (k, count k)) keys ++ [(key, value)].
Proof.
  induction keys as [|k keys IH]; intros Hin; [done|].
  apply not_elem_of_cons in Hin as [Hne Hin].
  cbn [map JsObject.set app].
  destruct (String.eqb k key) eqn:Heq; [by apply String.eqb_eq in Heq|].
  by rewrite IH.
Qed.

Lemma set_map_own (key : string) (value : nat) (count : string → nat)
    (keys : list string) :
  NoDup keys →
  key ∈ keys →
  JsObject.set key value (map (fun k => (k, count k)) keys)
  = map (fun k => (k, if String.eqb k key then value else count k)) keys.
Proof.
  induction keys as [|k keys IH]; intros Hnodup Hin;
    [by apply elem_of_nil in Hin|].
  apply NoDup_cons in Hnodup as [Hk Hnodup].
  cbn [map JsObject.set].
  destruct (String.eqb k key) eqn:Heq.
  - apply String.eqb_eq in Heq as ->. f_equal.
    apply map_ext_in. intros k' Hk'%list_elem_of_In.
    destruct (String.eqb k' key) eqn:Heq'; [|done].
    apply String.eqb_eq in Heq' as ->. done.
  - apply String.eqb_neq in Heq.
    apply elem_of_cons in Hin as [->|Hin]; [done|].
    by rewrite IH.
Qed.

Lemma countOf_snoc (key topic : string) (sectionTopics : list string) :
  length (List.filter (String.eqb key) (sectionTopics ++ [topic]))
  = length (List.filter (String.eqb key) sectionTopics)
    + (if String.eqb key topic then 1 else 0).
Proof.
  rewrite List.filter_app, length_app. cbn [List.filter].
  by destruct (String.eqb key topic).
Qed.

Lemma countOf_absent (topic : string) (sectionTopics : list string) :
  topic ∉ sectionTopics →
  List.filter (String.eqb topic) sectionTopics = [].
Proof.
  induction sectionTopics as [|t ts IH]; intros Hin; [done|].
  apply not_elem_of_cons in Hin as [Hne Hin]. cbn [List.filter].
  destruct (String.eqb topic t) eqn:Heq; [by apply String.eqb_eq in Heq|].
  by apply IH.
Qed.

Lemma inherited_not_proto (topic : string) :
  topic ∉ JsObject.prototypeKeys → String.eqb topic "__proto__" = false.
Proof.
  intros Hkey. apply String.eqb_neq. intros ->. apply Hkey.
  apply (bool_decide_unpack _). by vm_compute.
Qed.

(** The table after the loop: one entry for every topic, in the order in
    which the topics first appear, with the number of its sections. *)
Lemma countTopic_fold (sectionTopics : list string) :
  Forall (fun topic => topic ∉ JsObject.prototypeKeys) sectionTopics →
  fold_left countTopic sectionTopics (Some [])
  = Some (map (fun topic =>
                 (topic, length (List.filter (String.eqb topic) sectionTopics)))
              (uniqueInOrder sectionTopics)).
Proof.
  induction sectionTopics as [|topic sectionTopics IH] using rev_ind;
    intros Hkeys; [done|].
  apply Forall_app in Hkeys as [Hkeys [Hkey _]%Forall_cons].
  rewrite fold_left_app, (IH Hkeys). cbn [fold_left countTopic].
  rewrite (inherited_not_proto _ Hkey).
  rewrite bool_decide_eq_false_2 by done. f_equal.
  rewrite getOwn_map, uniqueInOrder_snoc.
  destruct (bool_decide (topic ∈ uniqueInOrder sectionTopics)) eqn:Hin.
  - apply bool_decide_eq_true in Hin. cbn [default from_option id].
    rewrite set_map_own by (done || apply uniqueInOrder_NoDup).
    apply map_ext_in. intros k _. rewrite countOf_snoc.
    destruct (String.eqb k topic) eqn:Heq.
    + by apply String.eqb_eq in Heq as ->.
    + by rewrite Nat.add_0_r.
  - apply bool_decide_eq_false in Hin. cbn [default from_option id].
    rewrite set_map_new by done. rewrite map_app. cbn [map]. f_equal.
    + apply map_ext_in. intros k Hk%list_elem_of_In. rewrite countOf_snoc.
      destruct (String.eqb k topic) eqn:Heq; [|by rewrite Nat.add_0_r].
      apply String.eqb_eq in Heq as ->. done.
    + rewrite countOf_snoc, String.eqb_refl.
      rewrite elem_of_uniqueInOrder in Hin.
      by rewrite (countOf_absent _ _ Hin).
Qed.

Lemma countTopic_fold_None (sectionTopics : list string) :
  fold_left countTopic sectionTopics None = None.
Proof. induction sectionTopics as [|t ts IH]; [done|]. exact IH. Qed.

Lemma countTopic_fold_inherited (sectionTopics : list string) :
  ∀ counts : option JsObject.t,
    Exists (fun topic => topic ∈ JsObject.prototypeKeys ∧ topic ≠ "__proto__")
           sectionTopics →
    fold_left countTopic sectionTopics counts = None.
Proof.
  induction sectionTopics as [|t ts IH]; intros counts Hex;
    [by apply Exists_nil in Hex|].
  cbn [fold_left]. apply Exists_cons in Hex as [[Hin Hne]|Hex]; [|by apply IH].
  unfold countTopic at 2. destruct counts as [counts|].
  - apply String.eqb_neq in Hne. rewrite Hne.
    rewrite bool_decide_eq_true_2 by done. apply countTopic_fold_None.
  - apply countTopic_fold_None.
Qed.

(** A section of the topic [__proto__] is not counted. *)
Lemma countTopic_fold_proto (sectionTopics : list string) :
  ∀ counts : option JsObject.t,
    fold_left countTopic sectionTopics counts
    = fold_left countTopic
        (List.filter (fun topic => negb (String.eqb topic "__proto__"))
                     sectionTopics)
        counts.
Proof.
  induction sectionTopics as [|t ts IH]; intros counts; [done|].
  cbn [fold_left List.filter].
  destruct (String.eqb t "__proto__") eqn:Heq; cbn [negb fold_left].
  - rewrite <- IH. f_equal. unfold countTopic. rewrite Heq.
    by destruct counts.
  - apply IH.
Qed.

Lemma filter_negb_length {A} (p : A → bool) (l : list A) :
  length (List.filter (fun x => negb (p x)) l) + length (List.filter p l)
  = length l.
Proof.
  induction l as [|x l IH]; [done|]. cbn [List.filter].
  destruct (p x); cbn [negb length]; lia.
Qed.

(** *** The entries of the table *)

Lemma indexed_entries (o : JsObject.t) :
  map snd (omap (fun entry : string * nat =>
                   (fun n => (n, entry)) <$> JsObject.arrayIndex (fst entry)) o)
  = List.filter
      (fun entry => bool_decide (is_Some (JsObject.arrayIndex (fst entry)))) o.
Proof.
  induction o as [|[k v] o IH]; [done|].
  cbn. destruct (JsObject.arrayIndex k) as [n|] eqn:Hindex; cbn;
    [by f_equal|done].
Qed.

Lemma filter_partition {A} (keep : A → bool) (l : list A) :
  List.filter keep l ++ List.filter (fun x => negb (keep x)) l ≡ₚ l.
Proof.
  induction l as [|x l IH]; [done|].
  cbn [List.filter]. destruct (keep x); cbn [negb app].
  - by rewrite IH.
  - by rewrite <- Permutation_middle, IH.
Qed.

Lemma entries_Permutation (o : JsObject.t) : JsObject.entries o ≡ₚ o.
Proof.
  unfold JsObject.entries. rewrite stableSort_Permutation, indexed_entries.
  apply (filter_partition
           (fun entry => bool_decide (is_Some (JsObject.arrayIndex (fst entry))))).
Qed.

Lemma entries_no_index (o : JsObject.t) :
  Forall (fun entry => JsObject.arrayIndex (fst entry) = None) o →
  JsObject.entries o = o.
Proof.
  unfold JsObject.entries. intros Hkeys.
  assert (omap (fun entry : string * nat =>
                  (fun n => (n, entry)) <$> JsObject.arrayIndex (fst entry)) o = [])
    as ->.
  { induction Hkeys as [|[k v] o Hk Hkeys IH]; [done|].
    cbn in *. by rewrite Hk. }
  cbn [stableSort foldr map app].
  induction Hkeys as [|[k v] o Hk Hkeys IH]; [done|].
  cbn [List.filter fst] in *. rewrite Hk.
  rewrite bool_decide_eq_false_2 by (by intros [? ?]). cbn [negb].
  by rewrite IH.
Qed.

Lemma list_sum_Permutation (l k : list nat) : l ≡ₚ k → list_sum l = list_sum k.
Proof.
  induction 1 as [|x l k _ IH|x y l|l k m _ IH1 _ IH2];
    unfold list_sum in *; cbn [fold_right] in *; lia.
Qed.

Lemma list_sum_cons (x : nat) (l : list nat) : list_sum (x :: l) = x + list_sum l.
Proof. reflexivity. Qed.

Lemma list_sum_counts (keys sectionTopics : list string) :
  NoDup keys →
  (∀ topic, topic ∈ sectionTopics → topic ∈ keys) →
  list_sum (map (fun key => length (List.filter (String.eqb key) sectionTopics))
                keys)
  = length sectionTopics.
Proof.
  intros Hnodup.
  induction sectionTopics as [|topic sectionTopics IH]; intros Hin.
  - cbn [List.filter length]. clear. induction keys as [|k keys IHk]; [done|].
    cbn [map]. by rewrite list_sum_cons, IHk.
  - cbn [length]. rewrite <- IH by (intros t Ht; apply Hin; by right).
    specialize (Hin topic (list_elem_of_here _ _)).
    assert (∀ key,
              length (List.filter (String.eqb key) (topic :: sectionTopics))
              = (if String.eqb key topic then 1 else 0)
                + length (List.filter (String.eqb key) sectionTopics)) as Hstep.
    { intros key. cbn [List.filter]. by destruct (String.eqb key topic). }
    clear IH. induction keys as [|k keys IHk]; [by apply elem_of_nil in Hin|].
    apply NoDup_cons in Hnodup as [Hk Hnodup].
    cbn [map]. rewrite !list_sum_cons, Hstep.
    destruct (String.eqb k topic) eqn:Heq.
    + apply String.eqb_eq in Heq as ->.
      assert (map (fun key =>
                     length (List.filter (String.eqb key) (topic :: sectionTopics)))
                  keys
              = map (fun key => length (List.filter (String.eqb key) sectionTopics))
                    keys) as ->; [|lia].
      apply map_ext_in. intros k' Hk'%list_elem_of_In. rewrite Hstep.
      destruct (String.eqb k' topic) eqn:Heq'; [|done].
      apply String.eqb_eq in Heq' as ->. done.
    + apply String.eqb_neq in Heq.
      apply elem_of_cons in Hin as [->|Hin]; [done|].
      rewrite (IHk Hnodup Hin). lia.
Qed.

(** *** The fields of the summary *)

Lemma StronglySorted_weaken {A} (R R' : A → A → Prop) (l : list A) :
  (∀ a b, R a b → R' a b) → StronglySorted R l → StronglySorted R' l.
Proof.
  intros Himpl. induction 1 as [|x l Hsorted IH Hall]; constructor; [done|].
  eapply Forall_impl; [exact Hall|]. intros y. apply Himpl.
Qed.

(** The histogram of topics none of which is inherited: the table of
    counts, sorted. *)
Lemma topicHistogram_table (sectionTopics : list string) :
  Forall (fun topic => topic ∉ JsObject.prototypeKeys) sectionTopics →
  let table :=
    map (fun topic =>
           (topic, length (List.filter (String.eqb topic) sectionTopics)))
        (uniqueInOrder sectionTopics) in
  ∃ histogram,
    topicHistogram sectionTopics = Some histogram
    ∧ histogram ≡ₚ table
    ∧ StronglySorted (fun a b => snd b ≤ snd a) histogram
    ∧ list_sum (map snd histogram) = length sectionTopics
    ∧ (Forall (fun topic => JsObject.arrayIndex topic = None) sectionTopics →
       ∀ count,
         List.filter (fun entry => snd entry =? count) histogram
         = List.filter (fun entry => snd entry =? count) table).
Proof.
  intros Hkeys table. unfold topicHistogram. rewrite (countTopic_fold _ Hkeys).
  fold table. eexists. split; [reflexivity|].
  assert (stableSort (fun x e : string * nat => snd e <? snd x)
            (JsObject.entries table) ≡ₚ table) as Hperm.
  { by rewrite stableSort_Permutation, entries_Permutation. }
  split; [exact Hperm|]. split; [|split].
  - eapply StronglySorted_weaken; [|apply stableSort_sorted].
    + intros a b Hab. cbn beta in Hab. apply Nat.ltb_ge in Hab. exact Hab.
    + intros a b Hab. apply Nat.ltb_lt in Hab. apply Nat.ltb_ge. lia.
    + intros a b c Hab Hbc. apply Nat.ltb_ge in Hab, Hbc. apply Nat.ltb_ge. lia.
  - rewrite (list_sum_Permutation _ (map snd table))
      by (by apply Permutation_map).
    unfold table. rewrite map_map. cbn [snd].
    apply list_sum_counts; [apply uniqueInOrder_NoDup|].
    intros topic Hin. by apply elem_of_uniqueInOrder.
  - intros Hindex count. rewrite stableSort_stable.
    + rewrite entries_no_index; [done|].
      apply Forall_forall. intros entry Hin. unfold table in Hin.
      apply list_elem_of_fmap in Hin as (topic & -> & Hin). cbn [fst].
      rewrite elem_of_uniqueInOrder in Hin.
      by apply (proj1 (Forall_forall _ _) Hindex).
    + intros a b Ha Hb. apply Nat.eqb_eq in Ha, Hb. apply Nat.ltb_ge. lia.
Qed.

Lemma sectionsAt_valid (w : World) (refs : list ref) :
  validSections w refs = true ↔ is_Some (sectionsAt w refs).
Proof.
  unfold validSections, sectionsAt. rewrite mapM_is_Some, forallb_forall, Forall_forall.
  split.
  - intros Hall r Hr%list_elem_of_In. specialize (Hall r Hr).
    by apply bool_decide_eq_true in Hall.
  - intros Hall r Hr%list_elem_of_In. apply bool_decide_eq_true_2.
    by apply Hall.
Qed.



(** X19. [generateSectionSummary] returns exactly when every section
    given and its array of messages are there to read, and it writes
    nothing. It counts the sections and, through them, the messages they
    hold; its participants are those of the sections, each once; and its
    duration runs from the start of the first section to the end of the
    last, whatever lies between. *)
Theorem generateSectionSummary_totals (refs : list ref) (w : World) :
  (is_Some (generateSectionSummary refs w) ↔ validSections w refs = true)
  ∧ ∀ (snapshots : list Snapshot) (first last : Snapshot),
      sectionsAt w refs = Some snapshots →
      head snapshots = Some first →
      list.last snapshots = Some last →
      ∃ (summary : Summary.t) (names : list string),
        generateSectionSummary refs w = Some (summary, w)
        ∧ Summary.totalSections summary = length refs
        ∧ Summary.totalMessages summary = length (concat (map snd snapshots))
        ∧ Summary.participants summary = Summary.AsArray names
        ∧ NoDup names
        ∧ (∀ x, x ∈ names
                ↔ ∃ s held, (s, held) ∈ snapshots
                            ∧ x ∈ ConversationSection.participants s)
        ∧ Summary.duration summary
          = Some (durationOf
                    (dateDifference
                       (ConversationSection.endTime (fst last))
                       (ConversationSection.startTime (fst first)))).
Proof.
  split.
  - rewrite sectionsAt_valid. split.
    + intros [[summary w'] Hrun]. unfold generateSectionSummary in Hrun.
      destruct refs as [|firstRef refs]; [by eexists|].
      unfold bind at 1 in Hrun.
      destruct (summaryLoop _ _ w) as [[state w1]|] eqn:Hloop; [|done].
      apply summaryLoop_inv in Hloop.
      unfold sectionsAt. by apply mapM_is_Some.
    + intros [snapshots Hat].
      rewrite (generateSectionSummary_summaryOf _ _ _ Hat). by eexists.
  - intros snapshots first last Hat Hfirst Hlast.
    rewrite (generateSectionSummary_summaryOf _ _ _ Hat).
    destruct snapshots as [|first' snapshots]; [done|].
    injection Hfirst as ->.
    eexists _, _. split; [reflexivity|]. unfold summaryOf.
    cbn [Summary.totalSections Summary.totalMessages Summary.participants
         Summary.duration].
    unfold sectionsAt in Hat. apply mapM_Some in Hat.
    split_and!.
    + by rewrite (Forall2_length _ _ _ Hat).
    + reflexivity.
    + reflexivity.
    + apply uniqueInOrder_NoDup.
    + intros x. rewrite elem_of_uniqueInOrder.
      rewrite list_elem_of_In, in_concat. split.
      * intros (names & Hnames%in_map_iff & Hx).
        destruct Hnames as ([s held] & <- & Hin).
        exists s, held. by rewrite !list_elem_of_In.
      * intros (s & held & Hin & Hx). exists (ConversationSection.participants s).
        split; [|by apply list_elem_of_In].
        apply in_map_iff. exists (s, held). by rewrite <- list_elem_of_In.
    + do 3 f_equal. rewrite last_cons in Hlast.
      destruct (list.last snapshots) as [l|] eqn:Hl.
      * injection Hlast as ->. apply last_Some in Hl as (before & ->).
        by rewrite app_comm_cons, List.last_last.
      * injection Hlast as ->. apply last_None in Hl as ->. done.
Qed.

(** X20. The field [topics] of the summary. A section of the topic
    [__proto__] is not counted. Of the other topics, one that is the name
    of a property every object inherits leaves the counts outside the
    numbers. Otherwise [topics] lists every counted topic once, with the
    number of sections that have it, the larger counts first; the counts
    and the sections of the topic [__proto__] add up to the number of
    sections; and, where no topic is an array index, topics of equal count
    come in the order of their first sections. *)
Theorem generateSectionSummary_topics (refs : list ref) (w : World)
    (snapshots : list Snapshot) :
  sectionsAt w refs = Some snapshots →
  let sectionTopics :=
    map (fun x => ConversationSection.topic (fst x)) snapshots in
  let counted :=
    List.filter (fun topic => negb (String.eqb topic "__proto__"))
                sectionTopics in
  let table :=
    map (fun topic =>
           (topic, length (List.filter (String.eqb topic) counted)))
        (uniqueInOrder counted) in
  ∃ summary : Summary.t,
    generateSectionSummary refs w = Some (summary, w)
    ∧ (Exists (fun topic => topic ∈ JsObject.prototypeKeys) counted →
       Summary.topics summary = None)
    ∧ (Forall (fun topic => topic ∉ JsObject.prototypeKeys) counted →
       ∃ histogram,
         Summary.topics summary = Some histogram
         ∧ histogram ≡ₚ table
         ∧ StronglySorted (fun a b => snd b ≤ snd a) histogram
         ∧ list_sum (map snd histogram)
           + length (List.filter (fun topic => String.eqb topic "__proto__")
                                 sectionTopics)
           = Summary.totalSections summary
         ∧ (Forall (fun topic => JsObject.arrayIndex topic = None) counted →
            ∀ count,
              List.filter (fun entry => snd entry =? count) histogram
              = List.filter (fun entry => snd entry =? count) table)).
Proof.
  intros Hat sectionTopics counted table.
  rewrite (generateSectionSummary_summaryOf _ _ _ Hat).
  eexists. split; [reflexivity|].
  assert (Summary.topics (summaryOf snapshots) = topicHistogram counted
          ∧ Summary.totalSections (summaryOf snapshots) = length sectionTopics)
    as [-> ->].
  { unfold sectionTopics, counted, topicHistogram.
    destruct snapshots as [|first snapshots]; [done|].
    unfold summaryOf. cbn [Summary.topics Summary.totalSections].
    unfold topicHistogram. rewrite <- countTopic_fold_proto.
    by rewrite length_map. }
  split.
  - intros Hex. unfold topicHistogram.
    rewrite countTopic_fold_inherited; [done|].
    apply Exists_exists in Hex as (topic & Hin & Hkey).
    apply Exists_exists. exists topic. split; [exact Hin|]. split; [exact Hkey|].
    apply list_elem_of_In, filter_In in Hin as [_ Hne].
    apply negb_true_iff in Hne. by apply String.eqb_neq.
  - intros Hkeys.
    destruct (topicHistogram_table counted Hkeys)
      as (histogram & Heq & Hperm & Hsorted & Hsum & Hstable).
    exists histogram. split_and!; try done.
    rewrite Hsum. apply filter_negb_length.
Qed.

(** Two sections of the topic "planning" around one of the topic
    [__proto__]: the latter is in no entry. *)
Example topicHistogram_proto :
  topicHistogram ["planning"; "__proto__"; "planning"] = Some [("planning", 2)]
  ∧ topicHistogram ["planning"; "constructor"] = None.
Proof. split; reflexivity. Qed.

(** *** The summary and the other functions *)

Lemma List_last_default {A} (l : list A) (d : A) :
  List.last l d = default d (last l).
Proof.
  induction l as [|x l IH]; [done|].
  rewrite last_cons. destruct l as [|y l]; [done|].
  change (List.last (x :: y :: l) d) with (List.last (y :: l) d).
  rewrite IH. destruct (last (y :: l)) eqn:Hl; [done|].
  by apply last_None in Hl.
Qed.

Lemma summaryOf_fields (snapshots : list Snapshot) (first final : Snapshot) :
  head snapshots = Some first →
  last snapshots = Some final →
  summaryOf snapshots
  = Summary.mk
      (length snapshots)
      (length (concat (map snd snapshots)))
      (Summary.AsString
         (Number.toFixed2
            (Number.nearest
               (inject_Z (Z.of_nat (length (concat (map snd snapshots))))
                / inject_Z (Z.of_nat (length snapshots))))))
      (topicHistogram (map (fun x => ConversationSection.topic (fst x)) snapshots))
      (Summary.AsArray
         (uniqueInOrder
            (concat (map (fun x => ConversationSection.participants (fst x))
                         snapshots))))
      (Some (durationOf
               (dateDifference (ConversationSection.endTime (fst final))
                               (ConversationSection.startTime (fst first))))).
Proof.
  intros Hfirst Hfinal. destruct snapshots as [|first' snapshots]; [done|].
  injection Hfirst as ->. unfold summaryOf.
  by rewrite List_last_default, Hfinal.
Qed.

Lemma summaryOf_sameTotals (fused snapshots : list Snapshot) :
  sameTotals fused snapshots →
  Summary.totalMessages (summaryOf fused)
  = Summary.totalMessages (summaryOf snapshots)
  ∧ Summary.participants (summaryOf fused)
    = Summary.participants (summaryOf snapshots)
  ∧ Summary.duration (summaryOf fused) = Summary.duration (summaryOf snapshots)
  ∧ Summary.totalSections (summaryOf fused)
    ≤ Summary.totalSections (summaryOf snapshots).
Proof.
  intros (Hconcat & Hlen & Hnames & Hhead & Hlast).
  destruct snapshots as [|first snapshots].
  - destruct fused; [done|cbn in Hlen; lia].
  - destruct fused as [|first' fused]; [done|].
    destruct (last (first :: snapshots)) as [final|] eqn:Hfinal;
      [|by rewrite last_cons in Hfinal; destruct (last snapshots)].
    destruct (last (first' :: fused)) as [final'|] eqn:Hfinal';
      [|by rewrite last_cons in Hfinal'; destruct (last fused)].
    rewrite (summaryOf_fields (first :: snapshots) first final eq_refl Hfinal).
    rewrite (summaryOf_fields (first' :: fused) first' final' eq_refl Hfinal').
    cbn [Summary.totalMessages Summary.participants Summary.duration
         Summary.totalSections].
    cbn in Hhead, Hlast. injection Hhead as Hhead. injection Hlast as Hlast.
    rewrite Hconcat, Hnames, Hhead, Hlast. by split_and!.
Qed.

(** X21. Merging does not show in the totals of the summary. For sections
    that are distinct objects with arrays of their own, the summary of the
    merged sections has the total of messages, the participants and the
    duration of the summary of the sections as they were before, and no
    more sections. *)
Theorem merge_keeps_summary (refs : list ref) (threshold : option Q)
    (w : World) (snapshots : list Snapshot) :
  sectionsAt w refs = Some snapshots →
  NoDup refs →
  NoDup (map (fun x => ConversationSection.messages (fst x)) snapshots) →
  ∃ (before : Summary.t) (out : list ref) (w' : World) (after : Summary.t),
    generateSectionSummary refs w = Some (before, w)
    ∧ mergeSimilarSections refs threshold w = Some (out, w')
    ∧ generateSectionSummary out w' = Some (after, w')
    ∧ Summary.totalMessages after = Summary.totalMessages before
    ∧ Summary.participants after = Summary.participants before
    ∧ Summary.duration after = Summary.duration before
    ∧ Summary.totalSections after ≤ Summary.totalSections before.
Proof.
  intros Hat Hrefs Harrays.
  destruct (mergeSimilarSections_totals refs threshold w snapshots Hat Hrefs Harrays)
    as (out & w' & fused & Hrun & Hfused & Hsame).
  exists (summaryOf snapshots), out, w', (summaryOf fused).
  split; [by apply generateSectionSummary_summaryOf|]. split; [exact Hrun|].
  split; [by apply generateSectionSummary_summaryOf|].
  by apply summaryOf_sameTotals.
Qed.

Lemma flat_map_concat {A B} (f : A → list B) (lists : list (list A)) :
  flat_map f (concat lists) = concat (map (flat_map f) lists).
Proof.
  induction lists as [|l lists IH]; [done|].
  cbn [concat map]. by rewrite flat_map_app, IH.
Qed.

Lemma detectTopic_label (content : option string) :
  detectTopic content
    ∈ ["general"; "technical"; "question"; "discussion"; "planning"; "feedback"].
Proof.
  destruct (truthy content) eqn:Htruthy.
  - destruct (detectTopic_truthy content Htruthy)
      as [[_ ->]|(_ & entry & Hin & ->)]; [by left|].
    apply list_elem_of_further.
    change (fst entry ∈ map fst topics). by apply list_elem_of_fmap_2.
  - unfold detectTopic, detectTopicIn. rewrite Htruthy. by left.
Qed.

Section SummaryPipeline.

Variable Date_now : nat → Z.
Variable Date_parse : string → Date.

(** The dates of the first and of the last message are the start of the
    first group and the end of the last. *)
Lemma detectedGroups_ends (messages : list Message.t) (options : DetectOptions)
    (w : World) (first final : Group) :
  head (detectedGroups Date_now Date_parse messages options w) = Some first →
  last (detectedGroups Date_now Date_parse messages options w) = Some final →
  head (messageDates Date_now Date_parse (clockReads w) messages)
  = Some (snd (fst first))
  ∧ last (messageDates Date_now Date_parse (clockReads w) messages)
    = Some (snd (groupLast final)).
Proof.
  set (gs := detectedGroups Date_now Date_parse messages options w).
  intros Hfirst Hfinal. rewrite head_lookup in Hfirst.
  rewrite last_lookup in Hfinal. split.
  - rewrite head_lookup.
    apply (detectedGroups_lookup Date_now Date_parse messages options w 0 0 first
             (fst (fst first))); [done|].
    unfold groupItems. cbn. by destruct (fst first).
  - rewrite last_lookup.
    destruct (groupItems_last final) as (before & Hsplit).
    pose proof (detectedGroups_lookup Date_now Date_parse messages options w
                  (pred (length gs)) (length before) final
                  (fst (groupLast final)) (snd (groupLast final)) Hfinal)
      as [_ Hdate].
    { rewrite Hsplit, list_lookup_middle by done. by destruct (groupLast final). }
    cbn zeta in Hdate. fold gs in Hdate. rewrite <- Hdate. f_equal.
    assert (length (messageDates Date_now Date_parse (clockReads w) messages)
            = length (concat (map groupItems gs))) as ->.
    { unfold gs, detectedGroups. rewrite groupsOf_items, length_zip.
      rewrite length_messageDates. lia. }
    apply lookup_lt_Some in Hfinal as Hlt.
    rewrite <- (firstn_all gs) at 1.
    replace (length gs) with (S (pred (length gs))) at 1 by lia.
    rewrite (take_S_r _ _ _ Hfinal), map_app, concat_app, length_app.
    cbn [map concat]. rewrite app_nil_r, Hsplit, length_app. cbn [length].
    lia.
Qed.

(** X22. [detectSections] followed by [generateSectionSummary]. The
    summary counts the sections returned and all the messages given; its
    topics are among the six labels of [detectTopic], with counts that add
    up to the number of sections; and, when there is a message, its
    participants are those of the messages, each once in the order of first
    appearance, and its duration runs from the date of the first message to
    the date of the last. *)
Theorem detect_then_summary (messages : list Message.t)
    (options : DetectOptions) (w : World) :
  ∃ (refs : list ref) (w1 : World) (summary : Summary.t)
    (histogram : list (string * nat)),
    detectSections Date_now Date_parse messages options w = Some (refs, w1)
    ∧ generateSectionSummary refs w1 = Some (summary, w1)
    ∧ Summary.totalSections summary = length refs
    ∧ Summary.totalMessages summary = length messages
    ∧ Summary.topics summary = Some histogram
    ∧ Forall (fun entry =>
                fst entry ∈ ["general"; "technical"; "question"; "discussion";
                             "planning"; "feedback"]
                ∧ 0 < snd entry)
             histogram
    ∧ list_sum (map snd histogram) = length refs
    ∧ (messages ≠ [] →
       ∃ firstDate lastDate,
         head (messageDates Date_now Date_parse (clockReads w) messages)
         = Some firstDate
         ∧ last (messageDates Date_now Date_parse (clockReads w) messages)
           = Some lastDate
         ∧ Summary.participants summary
           = Summary.AsArray (extractParticipants messages)
         ∧ Summary.duration summary
           = Some (durationOf (dateDifference lastDate firstDate))).
Proof.
  pose proof (detectSections_groups Date_now Date_parse messages options w) as Hrun.
  destruct (detectSections_snapshots Date_now Date_parse messages options w)
    as (refs & w1 & Hrun' & Hat).
  rewrite Hrun in Hrun'. injection Hrun' as <- <-.
  set (gs := detectedGroups Date_now Date_parse messages options w) in *.
  set (w1 := worldWith w gs (clockReadsOf messages)) in *.
  set (snapshots := imap (snapshotOfGroup (length (arrays w))) gs) in *.
  set (sectionTopics :=
         map (fun x => ConversationSection.topic (fst x)) snapshots).
  assert (Forall (fun topic =>
                    topic ∈ ["general"; "technical"; "question"; "discussion";
                             "planning"; "feedback"]) sectionTopics) as Hlabels.
  { apply Forall_forall. intros topic Hin.
    apply list_elem_of_fmap in Hin as ([s held] & -> & Hin).
    apply elem_of_lookup_imap_1 in Hin as (k & g & Heq & _).
    injection Heq as -> _. apply detectTopic_label. }
  assert (Forall (fun topic => topic ∉ JsObject.prototypeKeys) sectionTopics)
    as Hkeys.
  { eapply Forall_impl; [exact Hlabels|]. intros topic Hin. cbn beta in Hin.
    repeat (apply elem_of_cons in Hin as [->|Hin];
            [by apply (bool_decide_eq_false_1 _); vm_compute|]).
    by apply elem_of_nil in Hin. }
  destruct (topicHistogram_table sectionTopics Hkeys)
    as (histogram & Hhistogram & Hperm & _ & Hsum & _).
  assert (length snapshots = length gs) as Hlength
    by (unfold snapshots; by rewrite length_imap).
  assert (concat (map snd snapshots) = messages) as Hmessages.
  { unfold snapshots. rewrite map_snd_snapshots. apply detectedGroups_messages. }
  exists (seq (length (sectionObjs w)) (length gs)), w1, (summaryOf snapshots),
    histogram.
  split; [exact Hrun|].
  split; [by apply generateSectionSummary_summaryOf|].
  rewrite length_seq.
  assert (Forall (fun entry : string * nat =>
                    fst entry ∈ ["general"; "technical"; "question"; "discussion";
                                 "planning"; "feedback"]
                    ∧ 0 < snd entry) histogram) as Hentries.
  { apply Forall_forall. intros entry Hin. rewrite Hperm in Hin.
    apply list_elem_of_fmap in Hin as (topic & -> & Hin). cbn [fst snd].
    rewrite elem_of_uniqueInOrder in Hin. split.
    - by apply (proj1 (Forall_forall _ _) Hlabels).
    - apply list_elem_of_In in Hin.
      destruct (List.filter (String.eqb topic) sectionTopics) eqn:Hnone;
        [|cbn; lia].
      exfalso. assert (In topic (List.filter (String.eqb topic) sectionTopics))
        as Hfound by (apply filter_In; split; [done|apply String.eqb_refl]).
      by rewrite Hnone in Hfound. }
  destruct (head snapshots) as [first|] eqn:Hfirst.
  - destruct (last snapshots) as [final|] eqn:Hfinal;
      [|by apply last_None in Hfinal; rewrite Hfinal in Hfirst].
    rewrite (summaryOf_fields _ first final Hfirst Hfinal).
    cbn [Summary.totalSections Summary.totalMessages Summary.topics
         Summary.participants Summary.duration].
    fold sectionTopics. rewrite Hmessages, Hlength, Hhistogram, Hsum.
    unfold sectionTopics at 1. rewrite length_map, Hlength.
    split_and!; try done.
    intros _.
    unfold snapshots in Hfirst, Hfinal.
    rewrite head_lookup, list_lookup_imap in Hfirst.
    rewrite last_lookup, length_imap, list_lookup_imap in Hfinal.
    destruct (gs !! 0) as [g0|] eqn:Hg0; [|done]. injection Hfirst as <-.
    destruct (gs !! pred (length gs)) as [gl|] eqn:Hgl; [|done].
    injection Hfinal as <-.
    rewrite <- head_lookup in Hg0. rewrite <- last_lookup in Hgl.
    destruct (detectedGroups_ends messages options w g0 gl Hg0 Hgl)
      as [Hhead Hlast].
    exists (snd (fst g0)), (snd (groupLast gl)).
    split; [exact Hhead|]. split; [exact Hlast|]. split; [|done].
    f_equal. unfold extractParticipants.
    rewrite <- (detectedGroups_messages Date_now Date_parse messages options w).
    fold gs. rewrite flat_map_concat.
    rewrite <- (uniqueInOrder_concat
                  (map (flat_map participantsOf) (map groupMessages gs))).
    f_equal. f_equal. unfold snapshots.
    apply list_eq. intros k.
    rewrite !list_lookup_fmap, list_lookup_imap.
    by destruct (gs !! k).
  - apply head_None in Hfirst. rewrite Hfirst in *.
    cbn in Hmessages. subst messages.
    assert (gs = []) as Hgs by (by destruct gs).
    rewrite Hgs in *. cbn in Hhistogram. injection Hhistogram as <-.
    by split_and!.
Qed.

End SummaryPipeline.

(** *** The numbers of the duration *)

(** X23. The duration of the summary. Where the last section has no valid
    end or the first no valid start, every number of the duration is NaN,
    and so reads its [hours]. Otherwise its milliseconds are the end of the
    last section less the start of the first, exactly as long as the
    difference has at most 53 bits, and its seconds and minutes are
    numbers. *)
Theorem generateSectionSummary_duration (refs : list ref) (w : World)
    (snapshots : list Snapshot) (first final : Snapshot) :
  sectionsAt w refs = Some snapshots →
  head snapshots = Some first →
  last snapshots = Some final →
  ∃ (summary : Summary.t) (duration : Summary.Duration),
    generateSectionSummary refs w = Some (summary, w)
    ∧ Summary.duration summary = Some duration
    ∧ match ConversationSection.endTime (fst final),
            ConversationSection.startTime (fst first) with
      | Some l, Some f =>
          ((Z.abs (l - f) <= 2 ^ 53)%Z →
           Summary.milliseconds duration = Some (inject_Z (l - f)))
          ∧ is_Some (Summary.seconds duration)
          ∧ is_Some (Summary.minutes duration)
      | _, _ => duration = Summary.mkDuration None None None "NaN"
      end.
Proof.
  intros Hat Hfirst Hfinal.
  rewrite (generateSectionSummary_summaryOf _ _ _ Hat).
  rewrite (summaryOf_fields _ first final Hfirst Hfinal).
  eexists _, _. split; [reflexivity|]. split; [reflexivity|].
  destruct (ConversationSection.endTime (fst final)) as [l|];
    [|reflexivity].
  destruct (ConversationSection.startTime (fst first)) as [f|];
    [|reflexivity].
  unfold durationOf, dateDifference.
  cbn [Summary.milliseconds Summary.seconds Summary.minutes fmap option_fmap
       option_map].
  split_and!; [|by eexists|by eexists].
  intros Hbits. by rewrite nearest_integer.
Qed.

(** *** The time gap *)

Lemma Qdiv_minute (q : Q) : q / (1000 * 60) == q * (1 # 60000).
Proof. reflexivity. Qed.

(** X24. [isTimedOut] holds exactly when both dates are valid and the
    minutes between them, which are the milliseconds from the last to the
    current one divided by 60000 and rounded to a Number, exceed the gap.
    So an invalid date never times out; a gap that times out does so for
    every smaller threshold; against a threshold that is not negative, a
    message dated no later than the one before never does; against a gap
    that is a Number and not negative, two dates at most 53 bits apart
    whose exact minutes apart are at most the gap never do; and against a
    whole number of minutes that is not negative, for dates at most 53 bits
    apart, it holds exactly when the milliseconds exceed 60000 times the
    gap. *)
Theorem isTimedOut_gap (lastTime currentTime : Date) (gapMinutes : Q) :
  (isTimedOut lastTime currentTime gapMinutes = true
   ↔ ∃ l c, lastTime = Some l ∧ currentTime = Some c
            ∧ (gapMinutes
               < Number.nearest
                   (Number.nearest (inject_Z (c - l)) / (1000 * 60)))%Q)
  ∧ (∀ smaller : Q,
       (smaller <= gapMinutes)%Q →
       isTimedOut lastTime currentTime gapMinutes = true →
       isTimedOut lastTime currentTime smaller = true)
  ∧ ((0 <= gapMinutes)%Q →
     ∀ l c, lastTime = Some l → currentTime = Some c → (c <= l)%Z →
            isTimedOut lastTime currentTime gapMinutes = false)
  ∧ (∀ l c : Z,
       lastTime = Some l → currentTime = Some c →
       Number.nearest gapMinutes == gapMinutes → (0 <= gapMinutes)%Q →
       (Z.abs (c - l) <= 2 ^ 53)%Z →
       (inject_Z (c - l) / (1000 * 60) <= gapMinutes)%Q →
       isTimedOut lastTime currentTime gapMinutes = false)
  ∧ (∀ l c g : Z,
       lastTime = Some l → currentTime = Some c →
       gapMinutes == inject_Z g → (0 <= g)%Z →
       (Z.abs (c - l) <= 2 ^ 53)%Z →
       isTimedOut lastTime currentTime gapMinutes = true
       ↔ (g * 60000 < c - l)%Z).
Proof.
  split_and!.
  - destruct lastTime as [l|], currentTime as [c|].
    + rewrite isTimedOut_valid. split.
      * intros Hlt. by exists l, c.
      * by intros (l' & c' & [= <-] & [= <-] & Hlt).
    + split; [done|]. by intros (l' & c' & _ & [=] & _).
    + split; [done|]. by intros (l' & c' & [=] & _ & _).
    + split; [done|]. by intros (l' & c' & [=] & _ & _).
  - intros smaller Hle. destruct lastTime as [l|], currentTime as [c|]; try done.
    rewrite !isTimedOut_valid. intros Hlt.
    eapply Qle_lt_trans; [exact Hle|exact Hlt].
  - intros Hgap l c -> -> Hle. apply not_true_is_false.
    rewrite isTimedOut_valid. intros Hlt.
    assert (inject_Z (c - l) <= 0)%Q as Hneg.
    { change 0%Q with (inject_Z 0). rewrite <- Zle_Qle. lia. }
    apply nearest_nonpositive in Hneg.
    assert (Number.nearest (inject_Z (c - l)) / (1000 * 60) <= 0)%Q as Hquot.
    { rewrite Qdiv_minute. lra. }
    apply nearest_nonpositive in Hquot. lra.
  - intros l c -> -> Hnumber Hgap Hbits Hle. apply not_true_is_false.
    rewrite isTimedOut_valid. intros Hlt.
    pose proof (isTimedOut_within l c gapMinutes Hbits Hgap Hnumber Hle). lra.
  - intros l c g -> -> Hgap Hg Hbits. by apply isTimedOut_whole.
Qed.

(** The rounding shows against a gap that is no whole number: 18 seconds
    are more than the Number nearest to 3/10 of a minute, and their
    quotient by 60000 is that very Number. *)
Example isTimedOut_rounded_quotient :
  (Number.nearest (3 # 10) * 60000 < inject_Z (18000 - 0))%Q
  ∧ isTimedOut (Some 0%Z) (Some 18000%Z) (Number.nearest (3 # 10)) = false.
Proof. split; reflexivity. Qed.

(** *** Titles are single lines *)

Lemma includes_char_cons (k c : ascii) (s : string) :
  includes (String c s) (String k EmptyString)
  = bool_decide (k = c) || includes s (String k EmptyString).
Proof.
  cbn [includes String.prefix]. destruct (ascii_dec k c) as [->|Hne].
  - rewrite bool_decide_eq_true_2 by done. by destruct s.
  - by rewrite bool_decide_eq_false_2.
Qed.

Lemma lineFeed_code (c : ascii) : "010"%char = c ↔ code c = 10.
Proof.
  unfold code. split; [by intros <-|]. intros Hc.
  rewrite <- (ascii_nat_embedding c), Hc. reflexivity.
Qed.

Lemma noLineFeed_cons (c : ascii) (s : string) :
  includes (String c s) (String "010" EmptyString) = false
  ↔ code c ≠ 10 ∧ includes s (String "010" EmptyString) = false.
Proof.
  rewrite includes_char_cons, orb_false_iff, bool_decide_eq_false, lineFeed_code.
  done.
Qed.

Lemma isLineTerminator_lineFeed (c : ascii) :
  isLineTerminator c = false → code c ≠ 10.
Proof.
  unfold isLineTerminator. intros [Hlf _]%orb_false_iff. by apply Nat.eqb_neq.
Qed.

Lemma restOfLine_noLineFeed (s : string) :
  includes (RegExp.restOfLine s) (String "010" EmptyString) = false.
Proof.
  induction s as [|c s IH]; [done|]. cbn [RegExp.restOfLine].
  destruct (isLineTerminator c) eqn:Hc; [done|].
  apply noLineFeed_cons. split; [by apply isLineTerminator_lineFeed|exact IH].
Qed.

Lemma lazyToLineEnd_noLineFeed (s r : string) :
  RegExp.lazyToLineEnd s = Some r →
  includes r (String "010" EmptyString) = false.
Proof.
  destruct s as [|c s]; [done|]. cbn [RegExp.lazyToLineEnd].
  destruct (isLineTerminator c) eqn:Hc; [done|]. intros [= <-].
  apply noLineFeed_cons.
  split; [by apply isLineTerminator_lineFeed|apply restOfLine_noLineFeed].
Qed.

Lemma afterSeps_noLineFeed (isSep : ascii → bool) (s r : string) :
  RegExp.afterSeps isSep s = Some r →
  includes r (String "010" EmptyString) = false.
Proof.
  revert r. induction s as [|c s IH]; intros r; [done|].
  cbn [RegExp.afterSeps]. destruct (isSep c).
  - destruct (RegExp.afterSeps isSep s) as [r'|].
    + intros [= <-]. by apply IH.
    + apply lazyToLineEnd_noLineFeed.
  - apply lazyToLineEnd_noLineFeed.
Qed.

Lemma sepsThenCapture_noLineFeed (isSep : ascii → bool) (s r : string) :
  RegExp.sepsThenCapture isSep s = Some r →
  includes r (String "010" EmptyString) = false.
Proof.
  destruct s as [|c s]; [done|]. cbn [RegExp.sepsThenCapture].
  destruct (isSep c); [|done]. apply afterSeps_noLineFeed.
Qed.

Lemma matchHeader_noLineFeed (s r : string) :
  RegExp.matchHeader s = Some r →
  includes r (String "010" EmptyString) = false.
Proof.
  assert (∀ s r, RegExp.afterHashes s = Some r →
                 includes r (String "010" EmptyString) = false) as Hhashes.
  { clear. intros s. induction s as [|c s IH]; intros r; [done|].
    cbn [RegExp.afterHashes]. destruct (RegExp.isHash c).
    - destruct (RegExp.afterHashes s) as [r'|].
      + intros [= <-]. by apply IH.
      + apply sepsThenCapture_noLineFeed.
    - apply sepsThenCapture_noLineFeed. }
  assert (∀ s r, RegExp.headerHere s = Some r →
                 includes r (String "010" EmptyString) = false) as Hhere.
  { intros [|c t] r'; [done|]. cbn [RegExp.headerHere].
    destruct (RegExp.isHash c); [|done]. apply Hhashes. }
  assert (∀ s atLineStart r,
            RegExp.headerFrom atLineStart s = Some r →
            includes r (String "010" EmptyString) = false) as Hfrom.
  { clear s r. intros s.
    induction s as [|c s IH]; intros atLineStart r; cbn [RegExp.headerFrom].
    - destruct atLineStart; [|done].
      destruct (RegExp.headerHere "") as [r'|] eqn:Hr; [|done].
      intros [= <-]. by eapply Hhere.
    - destruct (if atLineStart then RegExp.headerHere (String c s) else None)
        as [r'|] eqn:Hr.
      + intros [= <-]. destruct atLineStart; [|done]. by eapply Hhere.
      + apply IH. }
  apply Hfrom.
Qed.

Lemma matchMarker_noLineFeed (s r : string) :
  RegExp.matchMarker s = Some r →
  includes r (String "010" EmptyString) = false.
Proof.
  assert (∀ s r, RegExp.markerHere s = Some r →
                 includes r (String "010" EmptyString) = false) as Hhere.
  { clear. intros s r. unfold RegExp.markerHere.
    repeat match goal with
           | |- context [RegExp.stripWordIgnoreCase ?word s] =>
               destruct (RegExp.stripWordIgnoreCase word s) as [?|]
           | |- context [RegExp.sepsThenCapture ?p ?t] =>
               let H := fresh "H" in
               destruct (RegExp.sepsThenCapture p t) as [?|] eqn:H;
               [apply sepsThenCapture_noLineFeed in H|]
           end;
      try done; by intros [= <-]. }
  revert r. induction s as [|c s IH]; intros r; cbn [RegExp.matchMarker].
  - destruct (RegExp.markerHere "") as [r'|] eqn:Hr; [|done].
    intros [= <-]. by eapply Hhere.
  - destruct (RegExp.markerHere (String c s)) as [r'|] eqn:Hr.
    + intros [= <-]. by eapply Hhere.
    + apply IH.
Qed.

Lemma trimStart_noLineFeed (s : string) :
  includes s (String "010" EmptyString) = false →
  includes (trimStart s) (String "010" EmptyString) = false.
Proof.
  induction s as [|c s IH]; [done|]. intros Hs. cbn [trimStart].
  destruct (isWhiteSpace c); [|exact Hs].
  apply noLineFeed_cons in Hs as [_ Hs]. by apply IH.
Qed.

Lemma trimEnd_noLineFeed (s : string) :
  includes s (String "010" EmptyString) = false →
  includes (trimEnd s) (String "010" EmptyString) = false.
Proof.
  induction s as [|c s IH]; [done|]. intros [Hc Hs]%noLineFeed_cons.
  specialize (IH Hs). cbn [trimEnd]. destruct (trimEnd s) as [|d t].
  - destruct (isWhiteSpace c); [done|]. by apply noLineFeed_cons.
  - by apply noLineFeed_cons.
Qed.

Lemma trim_noLineFeed (s : string) :
  includes s (String "010" EmptyString) = false →
  includes (trim s) (String "010" EmptyString) = false.
Proof. intros Hs. by apply trimEnd_noLineFeed, trimStart_noLineFeed. Qed.

Lemma firstLineOf_noLineFeed (s : string) :
  includes (firstLineOf s) (String "010" EmptyString) = false.
Proof.
  induction s as [|c s IH]; [done|]. cbn [firstLineOf].
  destruct (code c =? 10) eqn:Hc; [done|].
  apply noLineFeed_cons. split; [by apply Nat.eqb_neq|exact IH].
Qed.

(** [firstLineOf] is the first piece of the split at line feeds. *)
Lemma firstLineOf_split (s : string) :
  head (split (String "010" EmptyString) s) = Some (firstLineOf s).
Proof.
  assert (∀ piece,
            head (splitLoop (String "010" EmptyString) 0 piece s)
            = Some (piece +:+ firstLineOf s)) as Hloop.
  { induction s as [|c s IH]; intros piece.
    - cbn. by rewrite string_app_nil_r.
    - cbn [splitLoop firstLineOf String.prefix].
      destruct (ascii_dec "010" c) as [Hlf|Hne].
      + apply lineFeed_code in Hlf as Hcode. apply Nat.eqb_eq in Hcode.
        rewrite Hcode. destruct s; cbn; by rewrite string_app_nil_r.
      + assert ((code c =? 10) = false) as ->.
        { apply Nat.eqb_neq. by rewrite <- lineFeed_code. }
        by rewrite IH, string_app_assoc. }
  unfold split. cbn [String.eqb]. apply Hloop.
Qed.

(** X25. A title is a single line: whatever [extractTitle] returns holds
    no line feed, whether it comes from a header, from a section marker or
    from the first line; and the first line it falls back on is the first
    piece of the content split at line feeds, trimmed. *)
Theorem extractTitle_single_line (content : option string) (title : string) :
  extractTitle content = Some title →
  includes title (String "010" EmptyString) = false
  ∧ (RegExp.matchHeader (default "" content) = None →
     RegExp.matchMarker (default "" content) = None →
     Some title
     = trim <$> head (split (String "010" EmptyString) (default "" content))).
Proof.
  unfold extractTitle. destruct (negb (truthy content)); [done|].
  destruct (RegExp.matchHeader _) as [header|] eqn:Hheader.
  { intros [= <-]. split; [|done].
    by apply trim_noLineFeed, (matchHeader_noLineFeed _ _ Hheader). }
  destruct (RegExp.matchMarker _) as [marker|] eqn:Hmarker.
  { intros [= <-]. split; [|done].
    by apply trim_noLineFeed, (matchMarker_noLineFeed _ _ Hmarker). }
  destruct (String.length (trim (firstLineOf (default "" content))) <? 100);
    [|done].
  intros [= <-]. split.
  - apply trim_noLineFeed, firstLineOf_noLineFeed.
  - intros _ _. by rewrite firstLineOf_split.
Qed.

(** *** What the regular expressions match *)

Lemma restOfLine_sound (s : string) :
  ∃ after,
    s = RegExp.restOfLine s +:+ after
    ∧ every (fun c => negb (isLineTerminator c)) (RegExp.restOfLine s) = true
    ∧ RegExp.lineEndsBefore after = true.
Proof.
  induction s as [|c s (after & Hs & Hevery & Hend)]; [by exists ""|].
  cbn [RegExp.restOfLine]. destruct (isLineTerminator c) eqn:Hc.
  - exists (String c s). destruct_and?; by split_and!.
  - exists after. rewrite string_app_cons, <- Hs. cbn [every]. rewrite Hc. cbn [andb negb].
    destruct_and?; by split_and!.
Qed.

Lemma lazyToLineEnd_sound (s r : string) :
  RegExp.lazyToLineEnd s = Some r →
  ∃ after,
    s = r +:+ after
    ∧ r ≠ ""
    ∧ every (fun c => negb (isLineTerminator c)) r = true
    ∧ RegExp.lineEndsBefore after = true.
Proof.
  destruct s as [|c s]; [done|]. cbn [RegExp.lazyToLineEnd].
  destruct (isLineTerminator c) eqn:Hc; [done|]. intros [= <-].
  destruct (restOfLine_sound s) as (after & Hs & Hevery & Hend).
  exists after. rewrite string_app_cons, <- Hs. cbn [every]. rewrite Hc. cbn [andb negb].
  destruct_and?; by split_and!.
Qed.

Lemma afterSeps_sound (isSep : ascii → bool) (s r : string) :
  RegExp.afterSeps isSep s = Some r →
  ∃ seps after,
    s = seps +:+ r +:+ after
    ∧ every isSep seps = true
    ∧ r ≠ ""
    ∧ every (fun c => negb (isLineTerminator c)) r = true
    ∧ RegExp.lineEndsBefore after = true.
Proof.
  assert (RegExp.lazyToLineEnd s = Some r →
          ∃ seps after,
            s = seps +:+ r +:+ after
            ∧ every isSep seps = true
            ∧ r ≠ ""
            ∧ every (fun c => negb (isLineTerminator c)) r = true
            ∧ RegExp.lineEndsBefore after = true) as Hlazy.
  { intros (after & Hs & Hr)%lazyToLineEnd_sound. by exists "", after. }
  revert r Hlazy. induction s as [|c s IH]; intros r Hlazy; [done|].
  cbn [RegExp.afterSeps]. destruct (isSep c) eqn:Hc; [|exact Hlazy].
  destruct (RegExp.afterSeps isSep s) as [r'|] eqn:Hrest; [|exact Hlazy].
  intros [= <-].
  destruct (IH r') as (seps & after & Hs & Hseps & Hr); [|done|].
  { intros (after & Hs & Hr)%lazyToLineEnd_sound. by exists "", after. }
  exists (String c seps), after. rewrite string_app_cons, <- Hs.
  cbn [every]. rewrite Hc. cbn [andb negb]. destruct_and?; by split_and!.
Qed.

Lemma sepsThenCapture_sound (isSep : ascii → bool) (s r : string) :
  RegExp.sepsThenCapture isSep s = Some r →
  ∃ seps after,
    s = seps +:+ r +:+ after
    ∧ seps ≠ ""
    ∧ every isSep seps = true
    ∧ r ≠ ""
    ∧ every (fun c => negb (isLineTerminator c)) r = true
    ∧ RegExp.lineEndsBefore after = true.
Proof.
  destruct s as [|c s]; [done|]. cbn [RegExp.sepsThenCapture].
  destruct (isSep c) eqn:Hc; [|done].
  intros (seps & after & Hs & Hseps & Hr)%afterSeps_sound.
  exists (String c seps), after. rewrite string_app_cons, <- Hs.
  cbn [every]. rewrite Hc. cbn [andb negb]. destruct_and?; by split_and!.
Qed.

Lemma afterHashes_sound (s r : string) :
  RegExp.afterHashes s = Some r →
  ∃ hashes spaces after,
    s = hashes +:+ spaces +:+ r +:+ after
    ∧ every RegExp.isHash hashes = true
    ∧ spaces ≠ ""
    ∧ every isWhiteSpace spaces = true
    ∧ r ≠ ""
    ∧ every (fun c => negb (isLineTerminator c)) r = true
    ∧ RegExp.lineEndsBefore after = true.
Proof.
  assert (∀ s r, RegExp.sepsThenCapture isWhiteSpace s = Some r →
                 ∃ hashes spaces after,
                   s = hashes +:+ spaces +:+ r +:+ after
                   ∧ every RegExp.isHash hashes = true
                   ∧ spaces ≠ ""
                   ∧ every isWhiteSpace spaces = true
                   ∧ r ≠ ""
                   ∧ every (fun c => negb (isLineTerminator c)) r = true
                   ∧ RegExp.lineEndsBefore after = true) as Hspaces.
  { clear. intros s r (spaces & after & Hs & Hr)%sepsThenCapture_sound.
    by exists "", spaces, after. }
  revert r. induction s as [|c s IH]; intros r; [done|].
  cbn [RegExp.afterHashes]. destruct (RegExp.isHash c) eqn:Hc; [|apply Hspaces].
  destruct (RegExp.afterHashes s) as [r'|] eqn:Hrest; [|apply Hspaces].
  intros [= <-]. destruct (IH r' eq_refl) as (hashes & spaces & after & Hs & Hh & Hr).
  exists (String c hashes), spaces, after. rewrite string_app_cons, <- Hs.
  cbn [every]. rewrite Hc. cbn [andb negb]. destruct_and?; by split_and!.
Qed.

Lemma headerHere_sound (s r : string) :
  RegExp.headerHere s = Some r →
  ∃ hashes spaces after,
    s = hashes +:+ spaces +:+ r +:+ after
    ∧ hashes ≠ ""
    ∧ every RegExp.isHash hashes = true
    ∧ spaces ≠ ""
    ∧ every isWhiteSpace spaces = true
    ∧ r ≠ ""
    ∧ every (fun c => negb (isLineTerminator c)) r = true
    ∧ RegExp.lineEndsBefore after = true.
Proof.
  destruct s as [|c s]; [done|]. cbn [RegExp.headerHere].
  destruct (RegExp.isHash c) eqn:Hc; [|done].
  intros (hashes & spaces & after & Hs & Hh & Hr)%afterHashes_sound.
  exists (String c hashes), spaces, after. rewrite string_app_cons, <- Hs.
  cbn [every]. rewrite Hc. cbn [andb negb]. destruct_and?; by split_and!.
Qed.

Lemma lineStartsAfter_cons (c : ascii) (before : string) :
  match before with
  | EmptyString => isLineTerminator c = true
  | String _ _ => RegExp.lineStartsAfter before = true
  end →
  RegExp.lineStartsAfter (String c before) = true.
Proof. by destruct before. Qed.

Lemma stripWordIgnoreCase_sound (word s rest : string) :
  RegExp.stripWordIgnoreCase word s = Some rest →
  ∃ w, s = w +:+ rest ∧ toLowerCase w = word.
Proof.
  revert s. induction word as [|k word IH]; intros s; cbn [RegExp.stripWordIgnoreCase].
  - intros [= <-]. by exists "".
  - destruct s as [|c s]; [done|].
    destruct (Ascii.eqb (lowerChar c) k) eqn:Hc; [|done].
    apply Ascii.eqb_eq in Hc as <-.
    intros (w & -> & <-)%IH. by exists (String c w).
Qed.

Lemma markerHere_sound (s r : string) :
  RegExp.markerHere s = Some r →
  ∃ word seps after,
    s = word +:+ seps +:+ r +:+ after
    ∧ toLowerCase word ∈ ["section"; "topic"; "discuss"]
    ∧ seps ≠ ""
    ∧ every RegExp.isSpaceOrColon seps = true
    ∧ r ≠ ""
    ∧ every (fun c => negb (isLineTerminator c)) r = true
    ∧ RegExp.lineEndsBefore after = true.
Proof.
  assert (∀ word,
            word ∈ ["section"; "topic"; "discuss"] →
            match RegExp.stripWordIgnoreCase word s with
            | Some rest => RegExp.sepsThenCapture RegExp.isSpaceOrColon rest
            | None => None
            end = Some r →
            ∃ word seps after,
              s = word +:+ seps +:+ r +:+ after
              ∧ toLowerCase word ∈ ["section"; "topic"; "discuss"]
              ∧ seps ≠ ""
              ∧ every RegExp.isSpaceOrColon seps = true
              ∧ r ≠ ""
              ∧ every (fun c => negb (isLineTerminator c)) r = true
              ∧ RegExp.lineEndsBefore after = true) as Halternative.
  { intros word Hword.
    destruct (RegExp.stripWordIgnoreCase word s) as [rest|] eqn:Hstrip; [|done].
    apply stripWordIgnoreCase_sound in Hstrip as (w & -> & <-).
    intros (seps & after & -> & Hr)%sepsThenCapture_sound.
    by exists w, seps, after. }
  unfold RegExp.markerHere.
  destruct (match RegExp.stripWordIgnoreCase "section" s with
            | Some rest => RegExp.sepsThenCapture RegExp.isSpaceOrColon rest
            | None => None
            end) as [r1|] eqn:H1.
  { intros [= <-]. apply (Halternative "section"); [|done]. by left. }
  destruct (match RegExp.stripWordIgnoreCase "topic" s with
            | Some rest => RegExp.sepsThenCapture RegExp.isSpaceOrColon rest
            | None => None
            end) as [r2|] eqn:H2.
  { intros [= <-]. apply (Halternative "topic"); [|done]. right. by left. }
  apply (Halternative "discuss"). right. right. by left.
Qed.

(** X26. The two patterns of [extractTitle] match what their expressions
    say. A header found in the content is, at the start of a line, one or
    more [#], one or more white-space characters and the title captured;
    a marker found is one of the words section, topic and discuss in any
    letter case, one or more white-space characters or colons and the
    title captured. In both the capture is not empty, holds no line
    terminator and runs to the end of its line. *)
Theorem extractTitle_patterns (content r : string) :
  (RegExp.matchHeader content = Some r →
   ∃ before hashes spaces after,
     content = before +:+ hashes +:+ spaces +:+ r +:+ after
     ∧ RegExp.lineStartsAfter before = true
     ∧ hashes ≠ ""
     ∧ every RegExp.isHash hashes = true
     ∧ spaces ≠ ""
     ∧ every isWhiteSpace spaces = true
     ∧ r ≠ ""
     ∧ every (fun c => negb (isLineTerminator c)) r = true
     ∧ RegExp.lineEndsBefore after = true)
  ∧ (RegExp.matchMarker content = Some r →
     ∃ before word seps after,
       content = before +:+ word +:+ seps +:+ r +:+ after
       ∧ toLowerCase word ∈ ["section"; "topic"; "discuss"]
       ∧ seps ≠ ""
       ∧ every RegExp.isSpaceOrColon seps = true
       ∧ r ≠ ""
       ∧ every (fun c => negb (isLineTerminator c)) r = true
       ∧ RegExp.lineEndsBefore after = true).
Proof.
  split.
  - assert (∀ s atLineStart,
              RegExp.headerFrom atLineStart s = Some r →
              ∃ before hashes spaces after,
                s = before +:+ hashes +:+ spaces +:+ r +:+ after
                ∧ match before with
                  | EmptyString => atLineStart = true
                  | String _ _ => RegExp.lineStartsAfter before = true
                  end
                ∧ hashes ≠ ""
                ∧ every RegExp.isHash hashes = true
                ∧ spaces ≠ ""
                ∧ every isWhiteSpace spaces = true
                ∧ r ≠ ""
                ∧ every (fun c => negb (isLineTerminator c)) r = true
                ∧ RegExp.lineEndsBefore after = true) as Hfrom.
    { intros s. induction s as [|c s IH]; intros atLineStart;
        cbn [RegExp.headerFrom].
      - destruct atLineStart; [|done].
        destruct (RegExp.headerHere "") as [r'|] eqn:Hhere; [|done].
        intros [= ->]. apply headerHere_sound in Hhere
          as (hashes & spaces & after & Hs & Hr).
        by exists "", hashes, spaces, after.
      - destruct (if atLineStart then RegExp.headerHere (String c s) else None)
          as [r'|] eqn:Hhere.
        + intros [= ->]. destruct atLineStart; [|done].
          apply headerHere_sound in Hhere as (hashes & spaces & after & Hs & Hr).
          by exists "", hashes, spaces, after.
        + intros (before & hashes & spaces & after & -> & Hstart & Hr)%IH.
          exists (String c before), hashes, spaces, after.
          split; [by rewrite string_app_cons|].
          split; [by apply lineStartsAfter_cons|done]. }
    intros (before & hashes & spaces & after & Hs & Hstart & Hr)%Hfrom.
    exists before, hashes, spaces, after. split; [exact Hs|].
    split; [by destruct before|done].
  - revert r. induction content as [|c content IH]; intros r;
      cbn [RegExp.matchMarker].
    + destruct (RegExp.markerHere "") as [r'|] eqn:Hhere; [|done].
      intros [= ->]. apply markerHere_sound in Hhere
        as (word & seps & after & Hs & Hr).
      by exists "", word, seps, after.
    + destruct (RegExp.markerHere (String c content)) as [r'|] eqn:Hhere.
      * intros [= ->]. apply markerHere_sound in Hhere
          as (word & seps & after & Hs & Hr).
        by exists "", word, seps, after.
      * intros (before & word & seps & after & -> & Hr)%IH.
        exists (String c before), word, seps, after.
        split; [by rewrite string_app_cons|done].
Qed.

Lemma trimStart_sound (s : string) :
  ∃ spaces,
    s = spaces +:+ trimStart s
    ∧ every isWhiteSpace spaces = true
    ∧ match trimStart s with
      | EmptyString => True
      | String c _ => isWhiteSpace c = false
      end.
Proof.
  induction s as [|c s (spaces & Hs & Hspaces & Hhead)]; [by exists ""|].
  cbn [trimStart]. destruct (isWhiteSpace c) eqn:Hc.
  - exists (String c spaces). rewrite string_app_cons, <- Hs.
    cbn [every]. rewrite Hc. cbn [andb negb]. destruct_and?; by split_and!.
  - exists "". destruct_and?; by split_and!.
Qed.

Lemma colon_code (c : ascii) : RegExp.isColon c = true → c = ":"%char.
Proof.
  unfold RegExp.isColon, code. intros Hc%Nat.eqb_eq.
  rewrite <- (ascii_nat_embedding c), Hc. reflexivity.
Qed.

Lemma every_app (p : ascii → bool) (s t : string) :
  every p (s +:+ t) = every p s && every p t.
Proof.
  induction s as [|c s IH]; [done|].
  rewrite string_app_cons. cbn [every]. by rewrite IH, andb_assoc.
Qed.

Lemma lazyAuthor_sound (s : string) :
  ∀ (taken name rest : string),
    RegExp.lazyAuthor taken s = Some (name, rest) →
    ∃ more spaces,
      name = taken +:+ more
      ∧ s = more +:+ ":" +:+ spaces +:+ rest
      ∧ every (fun c => isWordChar c || isWhiteSpace c) more = true
      ∧ every isWhiteSpace spaces = true
      ∧ match rest with
        | EmptyString => True
        | String c _ => isWhiteSpace c = false
        end.
Proof.
  induction s as [|c s IH]; intros taken name rest; [done|].
  cbn [RegExp.lazyAuthor]. destruct (RegExp.isColon c) eqn:Hcolon.
  - intros [= <- <-]. apply colon_code in Hcolon as ->.
    destruct (trimStart_sound s) as (spaces & Hs & Hspaces & Hhead).
    exists "", spaces. unfold RegExp.afterSpaces.
    rewrite string_app_nil_r. split; [done|].
    split; [|done]. change ("" +:+ ":" +:+ spaces +:+ trimStart s)
      with (String ":" (spaces +:+ trimStart s)). by rewrite <- Hs.
  - destruct (isWordChar c || isWhiteSpace c) eqn:Hclass; [|done].
    intros (more & spaces & -> & -> & Hmore & Hr)%IH.
    exists (String c more), spaces.
    split; [by rewrite string_app_assoc|].
    split; [by rewrite string_app_cons|].
    cbn [every]. rewrite Hclass. cbn [andb]. destruct_and?; by split_and!.
Qed.

(** X27. The default author pattern matches what its expression says:
    where it matches a segment, the segment is, from the start of a line,
    a name of one or more word or white-space characters, a colon and the
    white space that follows, all of it; the name is capture group 1. *)
Theorem defaultAuthorPattern_sound (segment : string) (m : RegExp.Match) :
  RegExp.defaultAuthorPattern segment = Some m →
  ∃ name spaces,
    segment = RegExp.before m +:+ name +:+ ":" +:+ spaces +:+ RegExp.after m
    ∧ RegExp.group1 m = Some name
    ∧ RegExp.lineStartsAfter (RegExp.before m) = true
    ∧ name ≠ ""
    ∧ every (fun c => isWordChar c || isWhiteSpace c) name = true
    ∧ every isWhiteSpace spaces = true
    ∧ match RegExp.after m with
      | EmptyString => True
      | String c _ => isWhiteSpace c = false
      end.
Proof.
  assert (∀ s name rest,
            RegExp.authorHere s = Some (name, rest) →
            ∃ spaces,
              s = name +:+ ":" +:+ spaces +:+ rest
              ∧ name ≠ ""
              ∧ every (fun c => isWordChar c || isWhiteSpace c) name = true
              ∧ every isWhiteSpace spaces = true
              ∧ match rest with
                | EmptyString => True
                | String c _ => isWhiteSpace c = false
                end) as Hhere.
  { intros [|c s] name rest; [done|]. cbn [RegExp.authorHere].
    destruct (isWordChar c || isWhiteSpace c) eqn:Hclass; [|done].
    intros (more & spaces & -> & -> & Hmore & Hr)%lazyAuthor_sound.
    exists spaces. rewrite !string_app_cons. cbn [every]. rewrite Hclass. cbn [andb].
    destruct_and?; by split_and!. }
  assert (∀ s atLineStart skipped,
            RegExp.authorFrom atLineStart skipped s = Some m →
            ∃ passed name spaces,
              RegExp.before m = skipped +:+ passed
              ∧ s = passed +:+ name +:+ ":" +:+ spaces +:+ RegExp.after m
              ∧ RegExp.group1 m = Some name
              ∧ match passed with
                | EmptyString => atLineStart = true
                | String _ _ => RegExp.lineStartsAfter passed = true
                end
              ∧ name ≠ ""
              ∧ every (fun c => isWordChar c || isWhiteSpace c) name = true
              ∧ every isWhiteSpace spaces = true
              ∧ match RegExp.after m with
                | EmptyString => True
                | String c _ => isWhiteSpace c = false
                end) as Hfrom.
  { intros s. induction s as [|c s IH]; intros atLineStart skipped;
      cbn [RegExp.authorFrom].
    - destruct atLineStart; [|done]. done.
    - destruct (if atLineStart then RegExp.authorHere (String c s) else None)
        as [[name rest]|] eqn:Hmatch.
      + intros [= <-]. destruct atLineStart; [|done].
        apply Hhere in Hmatch as (spaces & Hs & Hr).
        exists "", name, spaces. cbn [RegExp.before RegExp.group1 RegExp.after].
        rewrite string_app_nil_r. destruct_and?; by split_and!.
      + intros (passed & name & spaces & Hbefore & -> & Hgroup & Hstart & Hr)%IH.
        exists (String c passed), name, spaces.
        split; [by rewrite Hbefore, string_app_assoc|].
        split; [by rewrite string_app_cons|].
        split; [exact Hgroup|].
        split; [by apply lineStartsAfter_cons|done]. }
  intros (passed & name & spaces & Hbefore & -> & Hgroup & Hstart & Hr)%Hfrom.
  exists name, spaces. cbn in Hbefore. rewrite Hbefore.
  split; [done|]. split; [exact Hgroup|].
  split; [by destruct passed|done].
Qed.

(** * Examples *)

(** ** The segmenter on examples *)

Example detectSections_gapMessages :
  ∃ w',
    detectSections exampleClock exampleDateParse gapMessages defaultOptions
      emptyWorld = Some ([0; 1; 2], w')
    ∧ (map snd <$> sectionsAt w' [0; 1; 2])
      = Some [[plainMessage 1000 "hello"];
              [plainMessage 1861001 "hello again";
               plainMessage 1861002 "still here"];
              [plainMessage 0 "I found a bug in the function"]].
Proof. eexists. split; vm_compute; reflexivity. Qed.

(** A first message without content has no title: its section has the id
    0 and the title "Section 1". *)
Example detectSections_fallback_title :
  ∃ w' s held,
    detectSections exampleClock exampleDateParse
      [Message.mk None (TsNumber 5) None None None None] defaultOptions emptyWorld
    = Some ([0], w')
    ∧ sectionAt w' 0 = Some (s, held)
    ∧ ConversationSection.id s = 0
    ∧ ConversationSection.title s = "Section 1".
Proof. eexists _, _, _. repeat split. Qed.

Lemma detectSections_id_title_witness :
  ∃ (refs : list ref) (w' : World) (s : ConversationSection.t)
    (others : list Message.t) (more : list Snapshot),
    detectSections exampleClock exampleDateParse
      [Message.mk None (TsNumber 5) None None None None] defaultOptions emptyWorld
    = Some (refs, w')
    ∧ sectionsAt w' refs
      = Some ((s, Message.mk None (TsNumber 5) None None None None :: others)
              :: more)
    ∧ ConversationSection.id s = 0
    ∧ ConversationSection.title s = "Section 1".
Proof.
  destruct (detectSections_id_title exampleClock exampleDateParse
              [Message.mk None (TsNumber 5) None None None None]
              defaultOptions emptyWorld)
    as (refs & w' & snapshots & Hrun & Hat & _ & Hfirst).
  destruct (Hfirst _ _ eq_refl) as (s & others & more & -> & Hid & Htitle).
  exists refs, w', s, others, more.
  split; [exact Hrun|]. split; [exact Hat|]. split; [exact Hid|].
  apply Htitle. reflexivity.
Defined.

(** The falsy timestamps. *)
Lemma timestampTruthy_false (v : Timestamp) :
  timestampTruthy v = false
  ↔ v = TsUndefined ∨ v = TsNull ∨ v = TsNumber 0 ∨ v = TsNaN ∨ v = TsString "".
Proof.
  destruct v as [| |n| |s|d]; cbn; try (split; [tauto|]; intros H; tauto).
  - rewrite negb_false_iff, Z.eqb_eq. split; [intros ->; tauto|].
    intros [?|[?|[[= ->]|[?|?]]]]; done.
  - rewrite negb_false_iff, String.eqb_eq. split; [intros ->; tauto|].
    intros [?|[?|[?|[?|[= ->]]]]]; done.
  - split; [done|]. intros [?|[?|[?|[?|?]]]]; done.
Qed.

(** C2 fails as stated: of two messages of one section the second of
    which is stamped before the first, the section ends before it starts. *)
Lemma detectSections_endTime_before_startTime :
  ∃ w' s held,
    detectSections exampleClock exampleDateParse outOfOrderMessages
      defaultOptions emptyWorld = Some ([0], w')
    ∧ sectionsAt w' [0] = Some [(s, held)]
    ∧ held = outOfOrderMessages
    ∧ ConversationSection.startTime s = Some 100%Z
    ∧ ConversationSection.endTime s = Some 50%Z
    ∧ dateGe (ConversationSection.endTime s) (ConversationSection.startTime s)
      = false.
Proof. eexists _, _, _. vm_compute. repeat split. Qed.

Lemma detectSections_endTime_ordered_witness :
  ∃ (refs : list ref) (w' : World) (snapshots : list Snapshot),
    detectSections exampleClock exampleDateParse orderedMessages defaultOptions
      emptyWorld = Some (refs, w')
    ∧ sectionsAt w' refs = Some snapshots
    ∧ ∀ (s : ConversationSection.t) (held : list Message.t),
        (s, held) ∈ snapshots →
        dateGe (ConversationSection.endTime s) (ConversationSection.startTime s)
        = true.
Proof.
  apply (detectSections_endTime_ordered exampleClock exampleDateParse
           orderedMessages defaultOptions emptyWorld [100; 200]%Z).
  - reflexivity.
  - repeat constructor. lia.
Defined.

(** C7 fails as stated for a gap that is no whole number of minutes: with
    a [timeGap] of 0.3, the Number nearest to 3/10 and less than it, two
    messages 18 seconds apart are more than [timeGap] minutes apart, the
    second holds no marker, and yet the two share one section: the quotient
    of 18000 by 60000 rounds to the same Number. *)
Lemma detectSections_gap_rounded :
  let gap := Number.nearest (3 # 10) in
  let options := mkDetectOptions (Some gap) None None in
  let messages := [plainMessage 1000 "hello"; plainMessage 19000 "hello again"] in
  (gap < inject_Z (19000 - 1000) / (1000 * 60))%Q
  ∧ hasSectionMarker (Some "hello again") defaultSectionMarkers = false
  ∧ ∃ w' s,
      detectSections exampleClock exampleDateParse messages options emptyWorld
      = Some ([0], w')
      ∧ sectionsAt w' [0] = Some [(s, messages)].
Proof.
  split; [reflexivity|]. split; [reflexivity|].
  eexists _, _. vm_compute. split; reflexivity.
Qed.

Lemma detectSections_time_gap_witness :
  (∃ (refs : list ref) (w' : World) (snapshots : list Snapshot),
     detectSections exampleClock exampleDateParse gapMessages defaultOptions
       emptyWorld = Some (refs, w')
     ∧ sectionsAt w' refs = Some snapshots
     ∧ ∃ k s others,
         snapshots !! k = Some (s, plainMessage 1861001 "hello again" :: others)
         ∧ offsetOf snapshots k = 1)
  ∧ (∃ (refs : list ref) (w' : World) (snapshots : list Snapshot),
       detectSections exampleClock exampleDateParse gapMessages defaultOptions
         emptyWorld = Some (refs, w')
       ∧ sectionsAt w' refs = Some snapshots
       ∧ ∃ k s before after,
           snapshots !! k
           = Some (s, before ++ plainMessage 1861001 "hello again"
                        :: plainMessage 1861002 "still here" :: after)
           ∧ offsetOf snapshots k + length before = 1)
  ∧ ((30 < Number.nearest
             (Number.nearest (inject_Z (1861001 - 1000)) / (1000 * 60)))%Q
     ↔ (30 * 60000 < 1861001 - 1000)%Z).
Proof.
  split_and!.
  - pose proof (detectSections_time_gap exampleClock exampleDateParse
                  gapMessages defaultOptions emptyWorld 0
                  (plainMessage 1000 "hello")
                  (plainMessage 1861001 "hello again") 1000 1861001
                  eq_refl eq_refl eq_refl eq_refl) as H.
    cbn zeta in H.
    destruct H as (refs & w' & snapshots & Hrun & Hat & Hbeyond & _ & _ & _).
    exists refs, w', snapshots. split; [exact Hrun|]. split; [exact Hat|].
    apply Hbeyond. by vm_compute.
  - pose proof (detectSections_time_gap exampleClock exampleDateParse
                  gapMessages defaultOptions emptyWorld 1
                  (plainMessage 1861001 "hello again")
                  (plainMessage 1861002 "still here") 1861001 1861002
                  eq_refl eq_refl eq_refl eq_refl) as H.
    cbn zeta in H.
    destruct H as (refs & w' & snapshots & Hrun & Hat & _ & Hwithin & Hexact & _).
    exists refs, w', snapshots. split; [exact Hrun|]. split; [exact Hat|].
    apply Hwithin; [|by vm_compute|by vm_compute].
    apply Hexact; by vm_compute.
  - pose proof (detectSections_time_gap exampleClock exampleDateParse
                  gapMessages defaultOptions emptyWorld 0
                  (plainMessage 1000 "hello")
                  (plainMessage 1861001 "hello again") 1000 1861001
                  eq_refl eq_refl eq_refl eq_refl) as H.
    cbn zeta in H.
    destruct H as (refs & w' & snapshots & _ & _ & _ & _ & _ & Hwhole).
    apply (Hwhole 30%Z); [reflexivity|lia|by vm_compute].
Defined.

Lemma detectSections_falsy_timestamp_witness :
  ∃ (refs : list ref) (w' : World) (snapshots : list Snapshot)
    (k : nat) (s : ConversationSection.t) (held : list Message.t) (j : nat),
    detectSections exampleClock exampleDateParse gapMessages defaultOptions
      emptyWorld = Some (refs, w')
    ∧ sectionsAt w' refs = Some snapshots
    ∧ snapshots !! k = Some (s, held)
    ∧ offsetOf snapshots k + j = 3
    ∧ held !! j = Some (plainMessage 0 "I found a bug in the function")
    ∧ (j = 0 → ConversationSection.startTime s = Some 1700000000000%Z)
    ∧ (S j = length held →
       ConversationSection.endTime s = Some 1700000000000%Z).
Proof.
  apply (detectSections_falsy_timestamp exampleClock exampleDateParse gapMessages
           defaultOptions emptyWorld 3
           (plainMessage 0 "I found a bug in the function"));
    reflexivity.
Defined.

(** ** The raw-text parser on examples *)

Example split_blank_line :
  split "

" "Alice: hi

Bob: hello

" = ["Alice: hi"; "Bob: hello"; ""].
Proof. reflexivity. Qed.

Example parseRawConversation_alice_bob :
  fst <$> parseRawConversation exampleClock "Alice: hi

Bob: hello" defaultParseOptions emptyWorld =
  Some [ Message.mk (Some 0%Z) (TsDate (Some 1700000000000%Z)) (Some "hi")
           (Some "Alice") None (Some "Alice: hi");
         Message.mk (Some 1%Z) (TsDate (Some 1700000000001%Z)) (Some "hello")
           (Some "Bob") None (Some "Bob: hello") ].
Proof. reflexivity. Qed.

(** C4 fails as stated: the segment "Bob:" has no content left once its
    author is stripped; it is dropped and its index 1 is used up, so the ids
    returned are 0 and 2. *)
Lemma parseRawConversation_ids_skip :
  ∃ messages w',
    parseRawConversation exampleClock threeSegments defaultParseOptions emptyWorld
    = Some (messages, w')
    ∧ map Message.id messages = [Some 0%Z; Some 2%Z]
    ∧ map Message.id messages
      ≠ map (fun i => Some (Z.of_nat i)) (seq 0 (length messages)).
Proof. eexists _, _. split; [reflexivity|]. split; [reflexivity|]. discriminate. Qed.

Lemma parseRawConversation_ids_witness :
  ∃ (messages : list Message.t) (w' : World),
    parseRawConversation exampleClock threeSegments defaultParseOptions emptyWorld
    = Some (messages, w')
    ∧ map Message.id messages
      = map (fun i => Some (Z.of_nat i))
            (keptFrom RegExp.defaultAuthorPattern 0
               ["Alice: hi"; "Bob:"; "Carol: yo"])
    ∧ Forall (fun message => truthy (Message.content message) = true) messages.
Proof.
  apply (parseRawConversation_ids exampleClock threeSegments defaultParseOptions
           emptyWorld).
  reflexivity.
Defined.

(** ** The merger on examples *)

Example mergeSimilarSections_threeSections :
  ∃ w',
    mergeSimilarSections [0; 1; 2] None threeSections = Some ([0; 2], w')
    ∧ sectionAt w' 0
      = Some (ConversationSection.mk 0 "Plan" 0 (Some 1000%Z) (Some 2000%Z)
                "planning" ["ann"; "bob"; "cy"],
              [plainMessage 1000 "the plan"; plainMessage 2000 "the schedule"])
    ∧ sectionAt w' 2 = sectionAt threeSections 2.
Proof. eexists. repeat split. Qed.



Lemma mergeSimilarSections_fuses_witness :
  (∃ (w' : World) (fused : ConversationSection.t),
     mergeStep 0.7 [0] 1 threeSections = Some ([0], w')
     ∧ sectionAt w' 0
       = Some (fused, [plainMessage 1000 "the plan"] ++ [plainMessage 2000 "the schedule"])
     ∧ fusedFrom fused
         (sectionOf 0 "Plan" 0 1000 "planning" ["ann"; "bob"])
         (sectionOf 1 "Schedule" 1 2000 "planning" ["bob"; "cy"]))
  ∧ (∃ (w' : World) (fused : ConversationSection.t),
       mergeSimilarSections [0; 1; 2] None threeSections = Some ([0; 2], w')
       ∧ sectionAt w' 0
         = Some (fused,
                 [plainMessage 1000 "the plan"] ++ [plainMessage 2000 "the schedule"])
       ∧ fusedFrom fused
           (sectionOf 0 "Plan" 0 1000 "planning" ["ann"; "bob"])
           (sectionOf 1 "Schedule" 1 2000 "planning" ["bob"; "cy"])
       ∧ sectionObjs w' !! 2
         = Some (sectionOf 2 "Review" 2 3000 "feedback" ["ann"])).
Proof.
  split.
  - apply (proj1 mergeSimilarSections_fuses 0.7%Q [0] 0 1 threeSections);
      [reflexivity|reflexivity|reflexivity|reflexivity|discriminate].
  - apply (proj2 mergeSimilarSections_fuses 0 1 2 threeSections);
      [reflexivity|reflexivity|reflexivity|reflexivity|discriminate].
Defined.

Lemma mergeSimilarSections_idempotent_witness :
  ∃ (out : list ref) (w' : World),
    mergeSimilarSections [0; 1; 2] None threeSections = Some (out, w')
    ∧ adjacentTopicsDiffer w' out = true
    ∧ mergeSimilarSections out None w' = Some (out, w').
Proof.
  apply (mergeSimilarSections_idempotent [0; 1; 2] threeSections). reflexivity.
Defined.

Lemma mergeSimilarSections_fixed_witness :
  mergeSimilarSections [0; 2] None threeSections = Some ([0; 2], threeSections).
Proof. apply (mergeSimilarSections_fixed [0; 2] threeSections). reflexivity. Defined.

(** ** The classifier and the regular expressions on examples *)

Example detectTopic_bug_function :
  detectTopic (Some "I found a bug in the function") = "technical".
Proof. reflexivity. Qed.

(** A tie of "technical" and "planning", one keyword each. *)
Lemma detectTopic_first_best_witness :
  ∃ scores : list nat,
    Forall2 (fun entry score => occurrences "deploy the plan" (snd entry) score)
            topics scores
    ∧ scores = [1; 0; 0; 1; 0]
    ∧ detectTopic (Some "Deploy the PLAN") = "technical".
Proof.
  destruct (detectTopic_first_best (Some "Deploy the PLAN")) as (_ & _ & Htruthy).
  destruct (Htruthy eq_refl) as (scores & Hscores & Heq).
  exists scores. split; [exact Hscores|].
  rewrite (occurrences_scores _ _ _ Hscores) in Heq |- *.
  split; [reflexivity|exact Heq].
Defined.

Example detectTopic_hello : detectTopic (Some "hello there") = "general".
Proof. reflexivity. Qed.

(** A tie keeps the topic met first: one keyword of "technical" and one of
    "planning". *)
Example detectTopic_tie : detectTopic (Some "Deploy the PLAN") = "technical".
Proof. reflexivity. Qed.

Example matchHeader_heading :
  RegExp.matchHeader "intro
## Plan for today
more" = Some "Plan for today".
Proof. reflexivity. Qed.

Example matchHeader_blank_heading : RegExp.matchHeader "#  " = Some " ".
Proof. reflexivity. Qed.

Example matchMarker_topic :
  RegExp.matchMarker "New TOPIC: releases" = Some "releases".
Proof. reflexivity. Qed.

Example defaultAuthorPattern_alice :
  RegExp.defaultAuthorPattern "Alice: hi" =
    Some (RegExp.mkMatch "" (Some "Alice") "hi").
Proof. reflexivity. Qed.

Example defaultAuthorPattern_none : RegExp.defaultAuthorPattern "hi!" = None.
Proof. reflexivity. Qed.

(** ** The further properties on examples *)

Example generateSectionSummary_threeSections :
  generateSectionSummary [0; 1; 2] threeSections
  = Some (Summary.mk 3 3 (Summary.AsString "1.00")
            (Some [("planning", 2); ("feedback", 1)])
            (Summary.AsArray ["ann"; "bob"; "cy"])
            (Some (Summary.mkDuration (Some 2000%Q) (Some 2%Z) (Some 0%Z) "0.00")),
          threeSections).
Proof. reflexivity. Qed.

(** An hour and a half, from a start half a second after the epoch. *)
Example durationOf_ninety_minutes :
  durationOf (dateDifference (Some 5400500%Z) (Some 500%Z))
  = Summary.mkDuration (Some 5400000%Q) (Some 5400%Z) (Some 90%Z) "1.50".
Proof. reflexivity. Qed.

(** The names that are array indices come first among the entries. *)
Example entries_order :
  JsObject.entries [("b", 1); ("10", 2); ("a", 3); ("2", 4); ("01", 5)]
  = [("2", 4); ("10", 2); ("b", 1); ("a", 3); ("01", 5)].
Proof. reflexivity. Qed.

Example toFixed2_of_doubles :
  map (fun q => Number.toFixed2 (Number.nearest q))
      [1005 # 1000; 8345 # 1000; 7 # 3; - (1 # 1000)]%Q
  = ["1.00"; "8.35"; "2.33"; "-0.00"].
Proof. reflexivity. Qed.

Lemma extractTitle_trimmed_witness :
  trim "Plans" = "Plans"
  ∧ (RegExp.matchHeader (default "" (Some "# Plans")) = None →
     RegExp.matchMarker (default "" (Some "# Plans")) = None →
     String.length "Plans" < 100).
Proof. apply (extractTitle_trimmed (Some "# Plans") "Plans"). reflexivity. Defined.

Lemma detectSections_triggers_witness :
  ∃ (refs : list ref) (w' : World) (snapshots : list Snapshot),
    detectSections exampleClock exampleDateParse gapMessages defaultOptions
      emptyWorld = Some (refs, w')
    ∧ sectionsAt w' refs = Some snapshots
    ∧ if isTimedOut (Some 1000%Z) (Some 1861001%Z)
           (default 30%Q (timeGap defaultOptions))
         || hasSectionMarker
              (Message.content (plainMessage 1861001 "hello again"))
              (default defaultSectionMarkers (sectionMarkers defaultOptions))
         || (default true (detectTopicChanges defaultOptions)
             && hasTopicChange (plainMessage 1000 "hello")
                  (plainMessage 1861001 "hello again"))
      then ∃ k s others,
             snapshots !! k = Some (s, plainMessage 1861001 "hello again" :: others)
             ∧ offsetOf snapshots k = 1
      else ∃ k s before after,
             snapshots !! k
             = Some (s, before ++ plainMessage 1000 "hello"
                          :: plainMessage 1861001 "hello again" :: after)
             ∧ offsetOf snapshots k + length before = 0.
Proof.
  apply (detectSections_triggers exampleClock exampleDateParse gapMessages
           defaultOptions emptyWorld 0
           (plainMessage 1000 "hello") (plainMessage 1861001 "hello again")
           (Some 1000%Z) (Some 1861001%Z));
    reflexivity.
Defined.

Lemma detectSections_spans_ordered_witness :
  ∃ (refs : list ref) (w' : World) (snapshots : list Snapshot),
    detectSections exampleClock exampleDateParse gapMessages defaultOptions
      emptyWorld = Some (refs, w')
    ∧ sectionsAt w' refs = Some snapshots
    ∧ ∀ (k k' : nat) (s s' : ConversationSection.t) (held held' : list Message.t),
        k < k' →
        snapshots !! k = Some (s, held) →
        snapshots !! k' = Some (s', held') →
        dateGe (ConversationSection.startTime s') (ConversationSection.endTime s)
        = true.
Proof.
  apply (detectSections_spans_ordered exampleClock exampleDateParse gapMessages
           defaultOptions emptyWorld [1000; 1861001; 1861002; 1700000000000]%Z).
  - reflexivity.
  - repeat constructor; lia.
Defined.

Lemma parseRawConversation_messages_witness :
  ∃ (messages : list Message.t) (w' : World),
    parseRawConversation exampleClock threeSegments defaultParseOptions emptyWorld
    = Some (messages, w')
    ∧ sectionObjs w' = sectionObjs emptyWorld
    ∧ arrays w' = arrays emptyWorld
    ∧ clockReads w' = clockReads emptyWorld + length ["Alice: hi"; "Bob:"; "Carol: yo"]
    ∧ Forall (fun message =>
                ∃ (j : nat) (segment content author : string),
                  ["Alice: hi"; "Bob:"; "Carol: yo"] !! j = Some segment
                  ∧ Message.id message = Some (Z.of_nat j)
                  ∧ Message.timestamp message
                    = TsDate (Some (exampleClock (clockReads emptyWorld + j)))
                  ∧ Message.content message = Some content
                  ∧ content ≠ ""
                  ∧ trim content = content
                  ∧ Message.author message = Some author
                  ∧ trim author = author
                  ∧ (RegExp.defaultAuthorPattern segment = None → author = "Unknown")
                  ∧ Message.user message = None
                  ∧ Message.originalContent message = Some segment)
             messages.
Proof.
  apply (parseRawConversation_messages exampleClock threeSegments
           defaultParseOptions emptyWorld).
  reflexivity.
Defined.


Lemma mergeSimilarSections_keeps_messages_witness :
  ∃ (out : list ref) (w' : World) (fused : list Snapshot),
    mergeSimilarSections [0; 1; 2] None threeSections = Some (out, w')
    ∧ sectionsAt w' out = Some fused
    ∧ concat (map snd fused) = concat (map snd threeSnapshots).
Proof.
  apply (mergeSimilarSections_keeps_messages [0; 1; 2] None threeSections
           threeSnapshots).
  - reflexivity.
  - apply (bool_decide_unpack _). by vm_compute.
  - apply (bool_decide_unpack _). by vm_compute.
Defined.

Lemma mergeSimilarSections_same_section_witness :
  ∃ (w' : World) (s' : ConversationSection.t),
    mergeSimilarSections [0; 0] None threeSections = Some ([0], w')
    ∧ sectionAt w' 0
      = Some (s', [plainMessage 1000 "the plan"] ++ [plainMessage 1000 "the plan"]).
Proof.
  apply (mergeSimilarSections_same_section 0 None threeSections
           (sectionOf 0 "Plan" 0 1000 "planning" ["ann"; "bob"])
           [plainMessage 1000 "the plan"]);
    [reflexivity|discriminate].
Defined.

Lemma parse_then_detect_witness :
  ∃ (messages : list Message.t) (w1 : World) (refs : list ref) (w2 : World)
    (snapshots : list Snapshot),
    parseRawConversation exampleClock threeSegments defaultParseOptions emptyWorld
    = Some (messages, w1)
    ∧ detectSections exampleClock exampleDateParse messages defaultOptions w1
      = Some (refs, w2)
    ∧ sectionsAt w2 refs = Some snapshots
    ∧ concat (map snd snapshots) = messages
    ∧ clockReads w2 = clockReads w1
    ∧ (∀ (s : ConversationSection.t) (held : list Message.t),
         (s, held) ∈ snapshots →
         dateGe (ConversationSection.endTime s) (ConversationSection.startTime s)
         = true)
    ∧ (∀ (k k' : nat) (s s' : ConversationSection.t) (held held' : list Message.t),
         k < k' →
         snapshots !! k = Some (s, held) →
         snapshots !! k' = Some (s', held') →
         dateGe (ConversationSection.startTime s') (ConversationSection.endTime s)
         = true).
Proof.
  apply (parse_then_detect exampleClock exampleDateParse threeSegments
           defaultParseOptions defaultOptions emptyWorld).
  - reflexivity.
  - intros i j Hle. unfold exampleClock. lia.
Defined.

Lemma generateSectionSummary_topics_witness :
  ∃ (summary : Summary.t) (histogram : list (string * nat)),
    generateSectionSummary [0; 1; 2] protoSections = Some (summary, protoSections)
    ∧ Summary.topics summary = Some histogram
    ∧ histogram ≡ₚ [("planning", 2)]
    ∧ StronglySorted (fun a b => snd b ≤ snd a) histogram
    ∧ list_sum (map snd histogram) + 1 = Summary.totalSections summary.
Proof.
  destruct (generateSectionSummary_topics [0; 1; 2] protoSections protoSnapshots
              eq_refl)
    as (summary & Hrun & _ & Hcounted).
  destruct Hcounted as (histogram & Htopics & Hperm & Hsorted & Hsum & _).
  { repeat constructor; apply (bool_decide_unpack _); by vm_compute. }
  by exists summary, histogram.
Defined.

Lemma merge_keeps_summary_witness :
  ∃ (before : Summary.t) (out : list ref) (w' : World) (after : Summary.t),
    generateSectionSummary [0; 1; 2] threeSections = Some (before, threeSections)
    ∧ mergeSimilarSections [0; 1; 2] None threeSections = Some (out, w')
    ∧ generateSectionSummary out w' = Some (after, w')
    ∧ Summary.totalMessages after = Summary.totalMessages before
    ∧ Summary.participants after = Summary.participants before
    ∧ Summary.duration after = Summary.duration before
    ∧ Summary.totalSections after ≤ Summary.totalSections before.
Proof.
  apply (merge_keeps_summary [0; 1; 2] None threeSections threeSnapshots).
  - reflexivity.
  - apply (bool_decide_unpack _). by vm_compute.
  - apply (bool_decide_unpack _). by vm_compute.
Defined.

Lemma generateSectionSummary_duration_witness :
  ∃ (summary : Summary.t) (duration : Summary.Duration),
    generateSectionSummary [0; 1; 2] threeSections = Some (summary, threeSections)
    ∧ Summary.duration summary = Some duration
    ∧ ((Z.abs (3000 - 1000) <= 2 ^ 53)%Z →
       Summary.milliseconds duration = Some (inject_Z (3000 - 1000)))
    ∧ is_Some (Summary.seconds duration)
    ∧ is_Some (Summary.minutes duration).
Proof.
  apply (generateSectionSummary_duration [0; 1; 2] threeSections threeSnapshots
           (sectionOf 0 "Plan" 0 1000 "planning" ["ann"; "bob"],
            [plainMessage 1000 "the plan"])
           (sectionOf 2 "Review" 2 3000 "feedback" ["ann"],
            [plainMessage 3000 "a review"]));
    reflexivity.
Defined.

Lemma extractTitle_single_line_witness :
  includes "hello there" (String "010" EmptyString) = false
  ∧ (RegExp.matchHeader (default "" (Some "hello there")) = None →
     RegExp.matchMarker (default "" (Some "hello there")) = None →
     Some "hello there"
     = trim <$> head (split (String "010" EmptyString)
                        (default "" (Some "hello there")))).
Proof.
  apply (extractTitle_single_line (Some "hello there") "hello there"). reflexivity.
Defined.

Lemma defaultAuthorPattern_sound_witness :
  ∃ name spaces,
    "Alice: hi"
    = RegExp.before (RegExp.mkMatch "" (Some "Alice") "hi")
      +:+ name +:+ ":" +:+ spaces
      +:+ RegExp.after (RegExp.mkMatch "" (Some "Alice") "hi")
    ∧ RegExp.group1 (RegExp.mkMatch "" (Some "Alice") "hi") = Some name
    ∧ RegExp.lineStartsAfter
        (RegExp.before (RegExp.mkMatch "" (Some "Alice") "hi")) = true
    ∧ name ≠ ""
    ∧ every (fun c => isWordChar c || isWhiteSpace c) name = true
    ∧ every isWhiteSpace spaces = true
    ∧ match RegExp.after (RegExp.mkMatch "" (Some "Alice") "hi") with
      | EmptyString => True
      | String c _ => isWhiteSpace c = false
      end.
Proof.
  apply (defaultAuthorPattern_sound "Alice: hi"
           (RegExp.mkMatch "" (Some "Alice") "hi")).
  reflexivity.
Defined.
